(** * immich-duplicate-cleaner: the duplicate-group reconciliation engine

    A shallow embedding of [main.go]: the filename classifier
    ([isOriginalFilename]), the quality ranker ([selectBestQualityAsset]),
    the album reconciler ([synchronizeAlbums]), the deletion pass
    ([autoDeleteDuplicates]) and the per-group driver
    ([processDuplicateGroup]); around them the configuration check
    ([validateConfig]), the five HTTP helpers below the gateway (module
    [Http]) and [main] from the parsed flags on.  [parseFlags] is the
    [flag] package at work and is not embedded.

    Go strings are byte sequences: [string] (a list of 8-bit [ascii]).
    The [int64] file size is only compared: a [Z].  The [int] counter of
    [synchronizeAlbums] is added to: a [Z] with the wrap-around of a 64-bit
    [int] written out ([addInt]).  A [time.Time] is the instant it denotes,
    a [Z]; [Before] is the strict order on instants.  Go maps are [gmap]s;
    the order in which [range] walks a map is not fixed by the language, so
    it is an input of every function that ranges over one. *)

From Stdlib Require Import ZArith Ascii.
From stdpp Require Import gmap strings list fin_maps pretty.

Open Scope Z_scope.

(** ** Data model (the struct declarations of main.go) *)

Record Config := {
  ImmichURL : string;
  APIKey : string;
  AutoDelete : bool;
  DryRun : bool;
  Yes : bool;
  Verbose : bool
}.

Record DuplicateAsset := { da_ID : string }.

Record DuplicateGroup := {
  DuplicateID : string;
  Assets : list DuplicateAsset
}.

Record ExifInfo := {
  FileSizeInByte : Z;
  ImageWidth : Z;
  ImageHeight : Z
}.

(** [Album.Assets] is decoded but never read by the engine; its elements keep
    only their identifier here. *)
Record Album := {
  album_ID : string;
  AlbumName : string;
  album_Assets : list string;
  AssetCount : Z
}.

(** The field [ExifInfo *ExifInfo] is [Exif] here: [None] is the nil pointer
    (no size metadata). *)
Record AssetDetails := {
  ID : string;
  OriginalFileName : string;
  Exif : option ExifInfo;
  FileCreatedAt : Z
}.

Definition Before (t u : Z) : bool := t <? u.

(** ** strings.ToUpper and strings.HasPrefix *)

(** A byte below [utf8.RuneSelf]; a string of such bytes is ASCII. *)
Definition isASCIIByte (c : ascii) : bool := (N_of_ascii c <? 128)%N.

Fixpoint isASCII (s : string) : bool :=
  match s with
  | EmptyString => true
  | String c r => isASCIIByte c && isASCII r
  end.

(** ['a' <= c && c <= 'z'] then [c -= 'a' - 'A']. *)
Definition upperByte (c : ascii) : ascii :=
  let n := N_of_ascii c in
  if ((97 <=? n) && (n <=? 122))%N then ascii_of_N (n - 32) else c.

Fixpoint upperASCII (s : string) : string :=
  match s with
  | EmptyString => EmptyString
  | String c r => String (upperByte c) (upperASCII r)
  end.

(** Go's [strings.ToUpper] upper-cases an all-ASCII string byte by byte and
    hands every other string to [Map(unicode.ToUpper, s)].  The Unicode case
    tables belong to Go's runtime library, not to this program: they are a
    parameter of the development. *)
Class UnicodeTables := {
  Map_unicode_ToUpper : string → string;
  unicode_EqualFold : string → string → bool
}.

Definition ToUpper {U : UnicodeTables} (s : string) : string :=
  if isASCII s then upperASCII s else Map_unicode_ToUpper s.

(** Go's [strings.EqualFold] compares two all-ASCII strings byte by byte up
    to letter case and folds Unicode runes otherwise. *)
Definition EqualFold {U : UnicodeTables} (s t : string) : bool :=
  if isASCII s && isASCII t then String.eqb (upperASCII s) (upperASCII t)
  else unicode_EqualFold s t.

(** [len(s) >= len(prefix) && s[:len(prefix)] == prefix] *)
Definition HasPrefix (s prefix : string) : bool :=
  (String.length prefix <=? String.length s)%nat
  && String.eqb (String.substring 0 (String.length prefix) s) prefix.

(** ** Filename classifier *)

Definition prefixes : list string :=
  ["IMG_"; "DSC_"; "DSCN"; "P_"; "PHOTO_"; "VID_"].

(** The loop over [prefixes] with its early [return false]. *)
Fixpoint noPrefixOf (upper : string) (ps : list string) : bool :=
  match ps with
  | [] => true
  | prefix :: rest => if HasPrefix upper prefix then false else noPrefixOf upper rest
  end.

Definition isOriginalFilename {U : UnicodeTables} (filename : string) : bool :=
  let upper := ToUpper filename in
  noPrefixOf upper prefixes.

(** Spec side of the classifier: a name starts with [p] up to ASCII letter
    case when it splits into a head that upper-cases to the upper-cased [p]
    and some tail. *)
Definition starts_with_ignoring_case (filename p : string) : Prop :=
  ∃ h t, filename = h +:+ t ∧ upperASCII h = upperASCII p.

(** ** Quality ranker *)

(** The two loop variables of [selectBestQualityAsset]. *)
Record Best := { bestID : string; bestSize : Z }.

Definition noBest : Best := {| bestID := ""; bestSize := -1 |}.

(** One iteration of the loop body for the entry [(assetID, details)].
    The map holds pointers to [AssetDetails]; its only caller stores the
    address of the struct it has just decoded, so a stored pointer is never
    nil and the values of the [gmap] are the structs.  [assets[bestID]] on a
    missing key is a nil pointer whose field read panics: the iteration then
    has no result ([None]). *)
Definition visit {U : UnicodeTables} (assets : gmap string AssetDetails)
    (b : Best) (entry : string * AssetDetails) : option Best :=
  let '(assetID, details) := entry in
  match Exif details with
  | None => Some b
  | Some exif =>
    let size := FileSizeInByte exif in
    if bestSize b <? size then
      Some {| bestID := assetID; bestSize := size |}
    else if (size =? bestSize b) && negb (String.eqb (bestID b) "") then
      match assets !! bestID b with
      | None => None
      | Some best =>
        if isOriginalFilename (OriginalFileName details)
           && negb (isOriginalFilename (OriginalFileName best))
        then Some {| bestID := assetID; bestSize := bestSize b |}
        else if Before (FileCreatedAt details) (FileCreatedAt best)
        then Some {| bestID := assetID; bestSize := bestSize b |}
        else Some b
      end
    else Some b
  end.

Fixpoint rangeLoop {U : UnicodeTables} (assets : gmap string AssetDetails)
    (b : Best) (entries : list (string * AssetDetails)) : option Best :=
  match entries with
  | [] => Some b
  | entry :: rest =>
    match visit assets b entry with
    | None => None
    | Some b' => rangeLoop assets b' rest
    end
  end.

(** [selectBestQualityAsset assets], the map being walked in the order
    [entries].  [None] is a run-time panic, [Some ""] the "no best" result. *)
Definition selectBestQualityAsset {U : UnicodeTables}
    (assets : gmap string AssetDetails)
    (entries : list (string * AssetDetails)) : option string :=
  bestID <$> rangeLoop assets noBest entries.

(** [entries] is one of the orders in which [range assets] can walk the map:
    every key/value pair exactly once. *)
Definition range_of {V} (assets : gmap string V) (entries : list (string * V)) : Prop :=
  entries ≡ₚ map_to_list assets.

(** Having size metadata, and the size the ranker compares. *)
Definition hasSize (details : AssetDetails) : bool :=
  match Exif details with Some _ => true | None => false end.

Definition sizeOf (details : AssetDetails) : Z :=
  match Exif details with Some e => FileSizeInByte e | None => -1 end.

(** ** Errors, log lines and the remote gateway *)

(** [errors.New]/[fmt.Errorf] without a cause, and [fmt.Errorf("...%w", err)]. *)
Inductive error :=
| errorString (msg : string)
| wrapError (msg : string) (cause : error).

(** A Go [(value, error)] pair. *)
Inductive result (A : Type) :=
| Ok (a : A)
| Err (e : error).
Arguments Ok {A} a.
Arguments Err {A} e.

Inductive Level := Info | Warning | Error.

(** One constructor per format string handed to [logInfo], [logWarning] or
    [logError]; the arguments are the values the format interpolates. *)
Inductive LogLine :=
| ProcessingGroup (groupNum totalGroups nAssets : Z)
| SkippingGroup
| Synchronized (syncCount : Z)
| AlreadySynchronized
| FetchAlbumsFailed (assetID : string) (err : error)
| CurrentAssignments
| AssetAssignment (assetID : string) (albumNames : list string)
| WouldAdd (n : Z) (albumID : string)
| AddFailed (albumID : string) (err : error)
| Added (n : Z) (albumID : string)
| Analyzing (nAssets : Z)
| FetchDetailsFailed (assetID : string) (err : error)
| NotEnoughDetails
| BestQuality (assetID : string)
| BestDimensions (size width height : Z)
| NoDuplicatesToDelete
| DeletionCancelled
| DeletionCancelledByUser
| WouldDelete (assetID : string)
| DeleteFailed (assetID : string) (err : error)
| Deleted (assetID : string).

(** What a run does to the outside: gateway calls with the answer they got,
    the confirmation prompt, and log lines. *)
Inductive Event :=
| CallGetAlbums (assetID : string) (res : result (list Album))
| CallGetDetails (assetID : string) (res : result AssetDetails)
| CallAddAssets (albumID : string) (assetIDs : list string) (res : option error)
| CallDelete (assetID : string) (res : option error)
| AskOperator (nDelete : Z) (res : result string)
| Logged (lvl : Level) (line : LogLine).

(** The surroundings of the engine.  The four HTTP helpers of main.go
    ([getAlbumsForAsset], [getAssetDetails], [addAssetsToAlbum],
    [deleteAsset]) read the base URL and the API key from the configuration,
    talk to the server through the global [httpClient] and return what the
    server answered; the answer is the server's choice, hence a function of
    the state of the world.  [Scanln] is the operator at the terminal and
    [rangeKeys] the Go runtime picking the order of a [range] over a map with
    the given keys. *)
Class Environment (World : Type) := {
  albumsRequest : string → string → string → World → result (list Album) * World;
  detailsRequest : string → string → string → World → result AssetDetails * World;
  addRequest : string → string → string → list string → World → option error * World;
  deleteRequest : string → string → string → World → option error * World;
  Scanln : World → result string * World;
  rangeKeys : list string → World → list string * World
}.

(** A [range] visits every key exactly once. *)
Definition fair_range {World} {E : Environment World} : Prop :=
  ∀ keys w, (rangeKeys keys w).1 ≡ₚ keys.

(** ** Effects: state of the world, emitted events, panics *)

Record Outcome (World A : Type) := {
  value : option A;       (* [None]: the run panicked *)
  after : World;
  events : list Event
}.
Arguments value {World A} _.
Arguments after {World A} _.
Arguments events {World A} _.

Definition M (World A : Type) : Type := World → Outcome World A.

Definition ret {World A} (a : A) : M World A :=
  fun w => {| value := Some a; after := w; events := [] |}.

Definition bind {World A B} (m : M World A) (k : A → M World B) : M World B :=
  fun w =>
    let o := m w in
    match value o with
    | None => {| value := None; after := after o; events := events o |}
    | Some a =>
      let o' := k a (after o) in
      {| value := value o'; after := after o'; events := events o ++ events o' |}
    end.

Definition panic {World A} : M World A :=
  fun w => {| value := None; after := w; events := [] |}.

Definition emit {World} (e : Event) : M World unit :=
  fun w => {| value := Some tt; after := w; events := [e] |}.

(** An exchange with the world, recorded with its answer. *)
Definition exchange {World A} (f : World → A * World) (ev : A → Event) : M World A :=
  fun w => let '(a, w') := f w in {| value := Some a; after := w'; events := [ev a] |}.

Definition silently {World A} (f : World → A * World) : M World A :=
  fun w => let '(a, w') := f w in {| value := Some a; after := w'; events := [] |}.

Notation "'let*' x := m 'in' k" := (bind m (fun x => k))
  (at level 10, x pattern, m at level 100, k at level 200, only parsing).
Notation "'do' m 'then' k" := (bind m (fun _ => k))
  (at level 10, m at level 100, k at level 200, only parsing).

(** A [for] loop over a slice threading the variables it updates. *)
Fixpoint forEach {World A S} (body : S → A → M World S) (s : S) (l : list A) : M World S :=
  match l with
  | [] => ret s
  | x :: rest => let* s' := body s x in forEach body s' rest
  end.

Definition logInfo {World} (line : LogLine) : M World unit := emit (Logged Info line).
Definition logWarning {World} (line : LogLine) : M World unit := emit (Logged Warning line).
Definition logError {World} (line : LogLine) : M World unit := emit (Logged Error line).

Definition truncateID (id : string) : string :=
  if (8 <? String.length id)%nat then String.substring 0 8 id else id.

Definition len {A} (l : list A) : Z := Z.of_nat (length l).

(** Go's [int] (64 bits on the supported platforms): addition wraps. *)
Definition wrapInt (z : Z) : Z := (z + 2^63) mod 2^64 - 2^63.
Definition addInt (a b : Z) : Z := wrapInt (a + b).

(** ** The engine *)

Section Engine.
Context {U : UnicodeTables} {World : Type} {E : Environment World}.

(** The HTTP helpers, each call recorded with the answer it got. *)
Definition getAlbumsForAsset (config : Config) (assetID : string)
    : M World (result (list Album)) :=
  exchange (albumsRequest (ImmichURL config) (APIKey config) assetID)
           (CallGetAlbums assetID).

Definition getAssetDetails (config : Config) (assetID : string)
    : M World (result AssetDetails) :=
  exchange (detailsRequest (ImmichURL config) (APIKey config) assetID)
           (CallGetDetails assetID).

Definition addAssetsToAlbum (config : Config) (albumID : string)
    (assetIDs : list string) : M World (option error) :=
  exchange (addRequest (ImmichURL config) (APIKey config) albumID assetIDs)
           (CallAddAssets albumID assetIDs).

Definition deleteAsset (config : Config) (assetID : string)
    : M World (option error) :=
  exchange (deleteRequest (ImmichURL config) (APIKey config) assetID)
           (CallDelete assetID).

(** [for k, v := range m]: the runtime picks an order of the keys; the
    loop then sees each key with its value. *)
Definition rangeMap {V} (m : gmap string V) : M World (list (string * V)) :=
  let* order := silently (rangeKeys (map_to_list m).*1) in
  ret (omap (fun k => pair k <$> m !! k) order).

Definition rangeSet (s : gset string) : M World (list string) :=
  silently (rangeKeys (elements s)).

(** *** synchronizeAlbums *)

(** [for _, album := range albums { allAlbumIDs[album.ID] = true }];
    [allAlbumIDs] only ever maps to [true]: a set. *)
Fixpoint markAlbums (allAlbumIDs : gset string) (albums : list Album) : gset string :=
  match albums with
  | [] => allAlbumIDs
  | album :: rest => markAlbums ({[album_ID album]} ∪ allAlbumIDs) rest
  end.

(** Body of the first loop, over [group.Assets]. *)
Definition fetchAlbums (config : Config)
    (vars : gmap string (list Album) * gset string) (asset : DuplicateAsset)
    : M World (gmap string (list Album) * gset string) :=
  let '(assetAlbums, allAlbumIDs) := vars in
  let* r := getAlbumsForAsset config (da_ID asset) in
  match r with
  | Err err =>
    do logWarning (FetchAlbumsFailed (truncateID (da_ID asset)) err) then
    ret (assetAlbums, allAlbumIDs)
  | Ok albums =>
    ret (<[da_ID asset := albums]> assetAlbums, markAlbums allAlbumIDs albums)
  end.

(** The innermost loop: is [albumID] among the albums of the asset? *)
Fixpoint inAlbum (albums : list Album) (albumID : string) : bool :=
  match albums with
  | [] => false
  | album :: rest =>
    if String.eqb (album_ID album) albumID then true else inAlbum rest albumID
  end.

(** "Find assets not in this album": [assetAlbums[asset.ID]] of a key that
    was never stored is the nil slice. *)
Fixpoint assetsToAdd (assetAlbums : gmap string (list Album)) (albumID : string)
    (assets : list DuplicateAsset) : list string :=
  match assets with
  | [] => []
  | asset :: rest =>
    if inAlbum (default [] (assetAlbums !! da_ID asset)) albumID
    then assetsToAdd assetAlbums albumID rest
    else da_ID asset :: assetsToAdd assetAlbums albumID rest
  end.

(** Body of the loop over [allAlbumIDs]. *)
Definition syncAlbum (config : Config) (group : DuplicateGroup)
    (assetAlbums : gmap string (list Album)) (syncCount : Z) (albumID : string)
    : M World Z :=
  let toAdd := assetsToAdd assetAlbums albumID (Assets group) in
  if 0 <? len toAdd then
    if DryRun config then
      do logInfo (WouldAdd (len toAdd) (truncateID albumID)) then
      ret (addInt syncCount (len toAdd))
    else
      let* err := addAssetsToAlbum config albumID toAdd in
      match err with
      | Some e =>
        do logError (AddFailed (truncateID albumID) e) then ret syncCount
      | None =>
        do logInfo (Added (len toAdd) (truncateID albumID)) then
        ret (addInt syncCount (len toAdd))
      end
  else ret syncCount.

Definition showAssignment (_ : unit) (entry : string * list Album) : M World unit :=
  let '(assetID, albums) := entry in
  logInfo (AssetAssignment (truncateID assetID) (AlbumName <$> albums)).

Definition synchronizeAlbums (config : Config) (group : DuplicateGroup)
    : M World (Z * option error) :=
  let* vars := forEach (fetchAlbums config) (∅, ∅) (Assets group) in
  let '(assetAlbums, allAlbumIDs) := vars in
  let* _ :=
    (if Verbose config then
       do logInfo CurrentAssignments then
       let* entries := rangeMap assetAlbums in
       forEach showAssignment tt entries
     else ret tt) in
  let* order := rangeSet allAlbumIDs in
  let* syncCount := forEach (syncAlbum config group assetAlbums) 0 order in
  ret (syncCount, None).

(** *** autoDeleteDuplicates *)

Definition fetchDetails (config : Config)
    (assetDetails : gmap string AssetDetails) (asset : DuplicateAsset)
    : M World (gmap string AssetDetails) :=
  let* r := getAssetDetails config (da_ID asset) in
  match r with
  | Err err =>
    do logWarning (FetchDetailsFailed (truncateID (da_ID asset)) err) then
    ret assetDetails
  | Ok details => ret (<[da_ID asset := details]> assetDetails)
  end.

(** "Identify assets to delete". *)
Fixpoint othersThan (bestAssetID : string) (keys : list string) : list string :=
  match keys with
  | [] => []
  | assetID :: rest =>
    if String.eqb assetID bestAssetID then othersThan bestAssetID rest
    else assetID :: othersThan bestAssetID rest
  end.

Definition deleteOne (config : Config) (_ : unit) (assetID : string) : M World unit :=
  if DryRun config then logInfo (WouldDelete (truncateID assetID))
  else
    let* err := deleteAsset config assetID in
    match err with
    | Some e => logError (DeleteFailed (truncateID assetID) e)
    | None => logInfo (Deleted (truncateID assetID))
    end.

(** The confirmation step; [true] when the deletion goes ahead. *)
Definition confirmDeletion (config : Config) (assetsToDelete : list string)
    : M World bool :=
  if negb (Yes config) && negb (DryRun config) then
    let* answer := exchange Scanln (AskOperator (len assetsToDelete)) in
    match answer with
    | Err _ => do logInfo DeletionCancelled then ret false
    | Ok response =>
      if negb (EqualFold response "y") && negb (EqualFold response "yes")
      then do logInfo DeletionCancelledByUser then ret false
      else ret true
    end
  else ret true.

Definition autoDeleteDuplicates (config : Config) (group : DuplicateGroup)
    : M World (option error) :=
  do logInfo (Analyzing (len (Assets group))) then
  let* assetDetails := forEach (fetchDetails config) ∅ (Assets group) in
  if (size assetDetails <? 2)%nat then
    do logWarning NotEnoughDetails then ret None
  else
    let* entries := rangeMap assetDetails in
    match selectBestQualityAsset assetDetails entries with
    | None => panic
    | Some bestAssetID =>
      if String.eqb bestAssetID "" then
        ret (Some (errorString "failed to determine best quality asset"))
      else
        do logInfo (BestQuality (truncateID bestAssetID)) then
        let* _ :=
          (if Verbose config then
             match assetDetails !! bestAssetID with
             | None => panic
             | Some best =>
               match Exif best with
               | Some exif =>
                 logInfo (BestDimensions (FileSizeInByte exif)
                            (ImageWidth exif) (ImageHeight exif))
               | None => ret tt
               end
             end
           else ret tt) in
        let* keys := rangeMap assetDetails in
        let assetsToDelete := othersThan bestAssetID keys.*1 in
        if len assetsToDelete =? 0 then
          do logInfo NoDuplicatesToDelete then ret None
        else
          let* proceed := confirmDeletion config assetsToDelete in
          if proceed then
            do forEach (deleteOne config) tt assetsToDelete then ret None
          else ret None
    end.

(** *** processDuplicateGroup *)

Definition processDuplicateGroup (config : Config) (groupNum totalGroups : Z)
    (group : DuplicateGroup) : M World (option error) :=
  do logInfo (ProcessingGroup groupNum totalGroups (len (Assets group))) then
  if len (Assets group) <? 2 then
    do logWarning SkippingGroup then ret None
  else
    let* synced := synchronizeAlbums config group in
    let '(syncCount, err) := synced in
    match err with
    | Some e => ret (Some (wrapError "album synchronization failed: " e))
    | None =>
      do (if 0 <? syncCount then logInfo (Synchronized syncCount)
          else logInfo AlreadySynchronized) then
      if AutoDelete config then
        let* err := autoDeleteDuplicates config group in
        match err with
        | Some e => ret (Some (wrapError "auto-delete failed: " e))
        | None => ret None
        end
      else ret None
    end.

End Engine.

(** ** Vocabulary of the statements *)

(** What the loop variables of the ranker mean between two iterations:
    either nothing was taken yet, or [bestID] names an asset with size
    metadata of the size [bestSize]. *)
Definition tracks (assets : gmap string AssetDetails) (b : Best) : Prop :=
  (bestID b = "" ∧ bestSize b = -1)
  ∨ ∃ details exif, assets !! bestID b = Some details
      ∧ Exif details = Some exif ∧ FileSizeInByte exif = bestSize b.

(** Sizes as the data model of the specification has them. *)
Definition sizes_nonnegative (assets : gmap string AssetDetails) : Prop :=
  ∀ k details exif, assets !! k = Some details →
    Exif details = Some exif → 0 ≤ FileSizeInByte exif.

Definition no_size_metadata (assets : gmap string AssetDetails) : Prop :=
  ∀ k details, assets !! k = Some details → Exif details = None.

Definition largest (assets : gmap string AssetDetails) (details : AssetDetails) : Prop :=
  hasSize details = true
  ∧ ∀ k' details', assets !! k' = Some details' →
      hasSize details' = true → sizeOf details' ≤ sizeOf details.



(** Candidates with size metadata. *)
Definition sized (entry : string * AssetDetails) : Prop := hasSize entry.2 = true.

#[local] Instance sized_dec entry : Decision (sized entry) :=
  decide (hasSize entry.2 = true).

Definition isAddCall (e : Event) : bool :=
  match e with CallAddAssets _ _ _ => true | _ => false end.

Definition isDeleteCall (e : Event) : bool :=
  match e with CallDelete _ _ => true | _ => false end.

Definition isWouldDelete (e : Event) : bool :=
  match e with Logged Info (WouldDelete _) => true | _ => false end.

Definition isGetAlbums (e : Event) : bool :=
  match e with CallGetAlbums _ _ => true | _ => false end.

Definition isLog (e : Event) : bool :=
  match e with Logged _ _ => true | _ => false end.

(** The "add assets to album" writes of a trace, in order, with the
    server's answer. *)
Definition addCalls (evs : list Event) : list (string * list string * option error) :=
  omap (fun e => match e with
                 | CallAddAssets albumID assetIDs res => Some (albumID, assetIDs, res)
                 | _ => None
                 end) evs.

(** Number of (asset, album) pairs in a list of writes. *)
Definition countPairs (calls : list (string * list string * option error)) : Z :=
  foldr (fun call n => len call.1.2 + n) 0 calls.

Definition accepted (call : string * list string * option error) : bool :=
  match call.2 with None => true | Some _ => false end.

(** Pairs sent to the server, and pairs in the writes it accepted. *)
Definition attemptedPairs (evs : list Event) : Z := countPairs (addCalls evs).

Definition addedPairs (evs : list Event) : Z :=
  countPairs (filter (fun call => accepted call = true) (addCalls evs)).

(** The "delete asset" calls of a trace and its "would delete" lines. *)
Definition deleteCalls (evs : list Event) : list string :=
  omap (fun e => match e with CallDelete assetID _ => Some assetID | _ => None end) evs.

Definition wouldDeletes (evs : list Event) : list string :=
  omap (fun e => match e with
                 | Logged Info (WouldDelete assetID) => Some assetID
                 | _ => None
                 end) evs.

(** The counts the operator was asked to confirm. *)
Definition promptedCounts (evs : list Event) : list Z :=
  omap (fun e => match e with AskOperator nDelete _ => Some nDelete | _ => None end) evs.

Definition isPrompt (e : Event) : bool :=
  match e with AskOperator _ _ => true | _ => false end.

(** An event that is no delete call, no "would delete" line and no
    prompt. *)
Definition quiet (e : Event) : Prop :=
  isDeleteCall e = false ∧ isWouldDelete e = false ∧ isPrompt e = false.

(** The same configuration with the preview flag set to [b]. *)
Definition withDryRun (b : bool) (config : Config) : Config :=
  {| ImmichURL := ImmichURL config; APIKey := APIKey config;
     AutoDelete := AutoDelete config; DryRun := b;
     Yes := Yes config; Verbose := Verbose config |}.

(** The writes the second loop of [synchronizeAlbums] is after: for each
    album of [order] that some asset of the group is missing from, the album
    and those assets. *)
Definition planned (assetAlbums : gmap string (list Album)) (group : DuplicateGroup)
    (order : list string) : list (string * list string) :=
  omap (fun albumID =>
          let toAdd := assetsToAdd assetAlbums albumID (Assets group) in
          if 0 <? len toAdd then Some (albumID, toAdd) else None) order.

Definition countPlanned (plan : list (string * list string)) : Z :=
  foldr (fun p n => len p.2 + n) 0 plan.

Section Surroundings.
Context {U : UnicodeTables} {World : Type} {E : Environment World}.

(** An event of the second loop in normal mode: a log line, or a write
    together with what the server answered to it. *)
Definition write_or_log (config : Config) (e : Event) : Prop :=
  match e with
  | Logged _ _ => True
  | CallAddAssets albumID assetIDs res =>
    ∃ w, res = (addRequest (ImmichURL config) (APIKey config) albumID assetIDs w).1
  | _ => False
  end.

(** The server reports the album set [shared] for the asset, whenever
    asked. *)
Definition reports (config : Config) (shared : gset string) (asset : DuplicateAsset) : Prop :=
  ∀ w, ∃ albums,
    (albumsRequest (ImmichURL config) (APIKey config) (da_ID asset) w).1 = Ok albums
    ∧ ∀ albumID, albumID ∈ album_ID <$> albums ↔ albumID ∈ shared.

(** The server always answers [albums] when asked for the asset. *)
Definition answers (config : Config) (asset : DuplicateAsset) (albums : list Album) : Prop :=
  ∀ w, (albumsRequest (ImmichURL config) (APIKey config) (da_ID asset) w).1 = Ok albums.

(** The server accepts the write. *)
Definition accepts (config : Config) (albumID : string) (assetIDs : list string) : Prop :=
  ∀ w, (addRequest (ImmichURL config) (APIKey config) albumID assetIDs w).1 = None.

(** The deletion is not called off: confirmation is skipped, or the
    operator answers yes. *)
Definition confirms (config : Config) : Prop :=
  Yes config = true
  ∨ ∀ w, ∃ response, (Scanln w).1 = Ok response
      ∧ (EqualFold response "y" || EqualFold response "yes") = true.

(** A computation that depends on the preview flag [b] mirrors itself
    across the two modes when there is a list [l] of assets such that
    preview mode logs one "would delete" line for each, calls nothing and
    asks nothing, and normal mode asks at most for the confirmation of
    [len l] deletions and, when not called off, issues one delete call for
    each asset of [l]. *)
Definition mirrors (config : Config) (f : bool → M World (option error)) (w : World) : Prop :=
  ∃ l : list string,
    ∀ b, let o := f b w in
      (b = true → deleteCalls (events o) = []
                  ∧ promptedCounts (events o) = []
                  ∧ wouldDeletes (events o) = truncateID <$> l)
      ∧ (b = false → wouldDeletes (events o) = []
                     ∧ (∀ n, n ∈ promptedCounts (events o) → n = len l)
                     ∧ (confirms config → deleteCalls (events o) = l)).

End Surroundings.

(** ** The rest of main.go *)

(** *** validateConfig *)

(** [len(s) >= len(suffix) && s[len(s)-len(suffix):] == suffix] *)
Definition HasSuffix (s suffix : string) : bool :=
  (String.length suffix <=? String.length s)%nat
  && String.eqb (String.substring (String.length s - String.length suffix)
                   (String.length suffix) s) suffix.

(** [strings.TrimSuffix]: [s[:len(s)-len(suffix)]] when [s] has the suffix. *)
Definition TrimSuffix (s suffix : string) : string :=
  if HasSuffix s suffix
  then String.substring 0 (String.length s - String.length suffix) s
  else s.

(** [validateConfig] receives a pointer and stores the trimmed URL through
    it: the result is the error together with the configuration as the call
    leaves it. *)
Definition validateConfig (config : Config) : option error * Config :=
  if String.eqb (ImmichURL config) "" then
    (Some (errorString "--url is required"), config)
  else if String.eqb (APIKey config) "" then
    (Some (errorString "--api-key is required"), config)
  else
    (None,
     {| ImmichURL := TrimSuffix (ImmichURL config) "/"; APIKey := APIKey config;
        AutoDelete := AutoDelete config; DryRun := DryRun config;
        Yes := Yes config; Verbose := Verbose config |}).

(** *** The HTTP helpers, below the gateway *)

Module Http.

Definition duplicatesEndpoint : string := "/api/duplicates".
Definition albumsEndpoint : string := "/api/albums".
Definition assetsEndpoint : string := "/api/assets".

Definition StatusOK : Z := 200.
Definition StatusNoContent : Z := 204.

(** An [http.Request] by what the helpers build it from: [Method] and
    [URL] are the strings handed to [http.NewRequest], which parses the
    URL; [Header] lists the [req.Header.Set] calls in order. *)
Record Request := {
  Method : string;
  URL : string;
  Header : list (string * string);
  Body : option string
}.

(** An [http.Response]: the status code and the body, a stream. *)
Record Response (Stream : Type) := {
  StatusCode : Z;
  RespBody : Stream
}.
Arguments StatusCode {Stream} _.
Arguments RespBody {Stream} _.

(** What the helpers use and do not define: the global [httpClient], and the
    standard library's request validation, body reading and JSON coding. *)
Class Net (World Stream : Type) := {
  NewRequest_error : string → string → option error;
  Do : Request → World → result (Response Stream) * World;
  ReadAll : Stream → result string;
  Close : Stream → option error;
  Marshal_AddAssetsRequest : list string → result string;
  Marshal_delete : string → result string;
  Decode_duplicates : Stream → result (list DuplicateGroup);
  Decode_albums : Stream → result (list Album);
  Decode_details : Stream → result AssetDetails
}.

(** What a helper returns and leaves behind: the requests handed to
    [httpClient.Do] and the errors of closing a body, which it logs. *)
Record Exchange (World A : Type) := {
  answer : A;
  world_after : World;
  sent : list Request;
  closeErrors : list error
}.
Arguments answer {World A} _.
Arguments world_after {World A} _.
Arguments sent {World A} _.
Arguments closeErrors {World A} _.

Section Helpers.
Context {World Stream : Type} {N : Net World Stream}.

(** The block every helper runs on a status it does not accept. *)
Definition statusError (resp : Response Stream) : error :=
  match ReadAll (RespBody resp) with
  | Err err =>
    wrapError ("HTTP " +:+ pretty (StatusCode resp) +:+ ": failed to read response body: ") err
  | Ok body => errorString ("HTTP " +:+ pretty (StatusCode resp) +:+ ": " +:+ body)
  end.

(** The deferred [resp.Body.Close()]. *)
Definition closing (resp : Response Stream) : list error :=
  match Close (RespBody resp) with Some err => [err] | None => [] end.

(** [http.NewRequest], the header settings, [httpClient.Do] and the deferred
    close, which all five helpers share word for word; [interpret] is what a
    helper does with the response. *)
Definition roundTrip {A} (method url : string) (header : list (string * string))
    (body : option string) (failed : error → A)
    (interpret : Response Stream → A) (w : World) : Exchange World A :=
  match NewRequest_error method url with
  | Some err =>
    {| answer := failed (wrapError "failed to create request: " err);
       world_after := w; sent := []; closeErrors := [] |}
  | None =>
    let req := {| Method := method; URL := url; Header := header; Body := body |} in
    let '(r, w') := Do req w in
    match r with
    | Err err =>
      {| answer := failed (wrapError "request failed: " err);
         world_after := w'; sent := [req]; closeErrors := [] |}
    | Ok resp =>
      {| answer := interpret resp; world_after := w'; sent := [req];
         closeErrors := closing resp |}
    end
  end.

Definition getDuplicates (config : Config) : World → Exchange World (result (list DuplicateGroup)) :=
  roundTrip "GET" (ImmichURL config +:+ duplicatesEndpoint)
    [("x-api-key", APIKey config); ("Accept", "application/json")] None Err
    (fun resp =>
       if negb (StatusCode resp =? StatusOK) then Err (statusError resp)
       else match Decode_duplicates (RespBody resp) with
            | Err err => Err (wrapError "failed to decode response: " err)
            | Ok duplicates => Ok duplicates
            end).

Definition getAlbumsForAsset (config : Config) (assetID : string)
    : World → Exchange World (result (list Album)) :=
  roundTrip "GET" (ImmichURL config +:+ albumsEndpoint +:+ "?assetId=" +:+ assetID)
    [("x-api-key", APIKey config); ("Accept", "application/json")] None Err
    (fun resp =>
       if negb (StatusCode resp =? StatusOK) then Err (statusError resp)
       else match Decode_albums (RespBody resp) with
            | Err err => Err (wrapError "failed to decode response: " err)
            | Ok albums => Ok albums
            end).

Definition getAssetDetails (config : Config) (assetID : string)
    : World → Exchange World (result AssetDetails) :=
  roundTrip "GET" (ImmichURL config +:+ assetsEndpoint +:+ "/" +:+ assetID)
    [("x-api-key", APIKey config); ("Accept", "application/json")] None Err
    (fun resp =>
       if negb (StatusCode resp =? StatusOK) then Err (statusError resp)
       else match Decode_details (RespBody resp) with
            | Err err => Err (wrapError "failed to decode response: " err)
            | Ok details => Ok details
            end).

Definition addAssetsToAlbum (config : Config) (albumID : string) (assetIDs : list string)
    (w : World) : Exchange World (option error) :=
  match Marshal_AddAssetsRequest assetIDs with
  | Err err =>
    {| answer := Some (wrapError "failed to marshal request: " err);
       world_after := w; sent := []; closeErrors := [] |}
  | Ok jsonData =>
    roundTrip "PUT" (ImmichURL config +:+ albumsEndpoint +:+ "/" +:+ albumID +:+ "/assets")
      [("x-api-key", APIKey config); ("Content-Type", "application/json");
       ("Accept", "application/json")]
      (Some jsonData) Some
      (fun resp =>
         if negb (StatusCode resp =? StatusOK) then Some (statusError resp) else None)
      w
  end.

Definition deleteAsset (config : Config) (assetID : string) (w : World)
    : Exchange World (option error) :=
  match Marshal_delete assetID with
  | Err err =>
    {| answer := Some (wrapError "failed to marshal request: " err);
       world_after := w; sent := []; closeErrors := [] |}
  | Ok jsonData =>
    roundTrip "DELETE" (ImmichURL config +:+ assetsEndpoint)
      [("x-api-key", APIKey config); ("Content-Type", "application/json");
       ("Accept", "application/json")]
      (Some jsonData) Some
      (fun resp =>
         if negb (StatusCode resp =? StatusNoContent) && negb (StatusCode resp =? StatusOK)
         then Some (statusError resp) else None)
      w
  end.

(** The helpers read two fields of the configuration. *)
Definition credentials (url key : string) : Config :=
  {| ImmichURL := url; APIKey := key; AutoDelete := false; DryRun := false;
     Yes := false; Verbose := false |}.

(** The gateway of the engine, made of the helpers, an operator and a
    runtime. *)
Definition gateway (operator : World → result string * World)
    (runtime : list string → World → list string * World) : Environment World :=
  {| albumsRequest := fun url key assetID w =>
       let x := getAlbumsForAsset (credentials url key) assetID w in
       (answer x, world_after x);
     detailsRequest := fun url key assetID w =>
       let x := getAssetDetails (credentials url key) assetID w in
       (answer x, world_after x);
     addRequest := fun url key albumID assetIDs w =>
       let x := addAssetsToAlbum (credentials url key) albumID assetIDs w in
       (answer x, world_after x);
     deleteRequest := fun url key assetID w =>
       let x := deleteAsset (credentials url key) assetID w in
       (answer x, world_after x);
     Scanln := operator;
     rangeKeys := runtime |}.

End Helpers.

End Http.

(** *** main *)

(** The listing of the duplicate groups, at the level of the gateway. *)
Class Listing (World : Type) := {
  duplicatesRequest : string → string → World → result (list DuplicateGroup) * World
}.

(** The log lines of [main] itself. *)
Inductive MainLine :=
| Starting
| DryRunMode
| FetchingGroups
| FoundGroups (n : Z)
| NoDuplicatesFound
| GroupFailed (groupNum : Z) (err : error)
| ProcessingComplete
| AutoDeleteTip.

Inductive MainEvent :=
| CallGetDuplicates (res : result (list DuplicateGroup))
| MainLogged (lvl : Level) (line : MainLine)
| Engine (e : Event).

(** How [main] ends: it returns, [log.Fatalf] ends the process with the
    given message, or a panic does. *)
Inductive Exit :=
| Returns
| Fatalf (format : string) (err : error)
| Panics.

Record MainOutcome (World : Type) := {
  exit : Exit;
  final : World;
  mainEvents : list MainEvent
}.
Arguments exit {World} _.
Arguments final {World} _.
Arguments mainEvents {World} _.

Section Main.
Context {U : UnicodeTables} {World : Type} {E : Environment World} {L : Listing World}.

(** [for i, group := range duplicates] of [main], from index [i]: the
    result says whether the loop ran to its end ([false]: a panic). *)
Fixpoint groupsLoop (config : Config) (total i : Z) (groups : list DuplicateGroup)
    (w : World) : bool * World * list MainEvent :=
  match groups with
  | [] => (true, w, [])
  | group :: rest =>
    let o := processDuplicateGroup config (i + 1) total group w in
    match value o with
    | None => (false, after o, Engine <$> events o)
    | Some err =>
      let failed := match err with
                    | Some e => [MainLogged Error (GroupFailed (i + 1) e)]
                    | None => []
                    end in
      let '(finished, w', evs) := groupsLoop config total (i + 1) rest (after o) in
      (finished, w', (Engine <$> events o) ++ failed ++ evs)
    end
  end.

(** [main] from the configuration that [parseFlags] returns. *)
Definition main (flags : Config) (w : World) : MainOutcome World :=
  let '(err, config) := validateConfig flags in
  match err with
  | Some e => {| exit := Fatalf "Configuration error: " e; final := w; mainEvents := [] |}
  | None =>
    let start :=
      [MainLogged Info Starting]
      ++ (if DryRun config then [MainLogged Warning DryRunMode] else [])
      ++ [MainLogged Info FetchingGroups] in
    let '(r, w1) := duplicatesRequest (ImmichURL config) (APIKey config) w in
    match r with
    | Err e =>
      {| exit := Fatalf "Failed to fetch duplicates: " e; final := w1;
         mainEvents := start ++ [CallGetDuplicates r] |}
    | Ok duplicates =>
      let found := [CallGetDuplicates r; MainLogged Info (FoundGroups (len duplicates))] in
      if len duplicates =? 0 then
        {| exit := Returns; final := w1;
           mainEvents := start ++ found ++ [MainLogged Info NoDuplicatesFound] |}
      else
        let '(finished, w2, evs) := groupsLoop config (len duplicates) 0 duplicates w1 in
        if finished then
          {| exit := Returns; final := w2;
             mainEvents := start ++ found ++ evs
                           ++ [MainLogged Info ProcessingComplete]
                           ++ (if AutoDelete config then []
                               else [MainLogged Info AutoDeleteTip]) |}
        else {| exit := Panics; final := w2; mainEvents := start ++ found ++ evs |}
    end
  end.

End Main.

(** ** Vocabulary for the deletion pass, the group and the run *)

Definition selectionError : error :=
  errorString "failed to determine best quality asset".

Definition isGetDetails (e : Event) : bool :=
  match e with CallGetDetails _ _ => true | _ => false end.

(** The membership and detail reads of a trace, in order. *)
Definition albumFetches (evs : list Event) : list string :=
  omap (fun e => match e with CallGetAlbums assetID _ => Some assetID | _ => None end) evs.

Definition detailFetches (evs : list Event) : list string :=
  omap (fun e => match e with CallGetDetails assetID _ => Some assetID | _ => None end) evs.

(** What the server told about the assets in the course of a trace: the
    albums of each asset and its details; of two answers for one
    identifier the later one counts. *)
Definition recordAlbums (m : gmap string (list Album)) (e : Event)
    : gmap string (list Album) :=
  match e with
  | CallGetAlbums assetID (Ok albums) => <[assetID := albums]> m
  | _ => m
  end.

Definition memberships (evs : list Event) : gmap string (list Album) :=
  foldl recordAlbums ∅ evs.

Definition recordDetails (m : gmap string AssetDetails) (e : Event)
    : gmap string AssetDetails :=
  match e with
  | CallGetDetails assetID (Ok details) => <[assetID := details]> m
  | _ => m
  end.

Definition fetched (evs : list Event) : gmap string AssetDetails :=
  foldl recordDetails ∅ evs.

(** The assets announced as the best of their group, as logged. *)
Definition bestLines (evs : list Event) : list string :=
  omap (fun e => match e with
                 | Logged Info (BestQuality assetID) => Some assetID
                 | _ => None
                 end) evs.

(** The group headers of a run of [main]: number, total and size. *)
Definition groupHeaders (evs : list MainEvent) : list (Z * Z * Z) :=
  omap (fun e => match e with
                 | Engine (Logged Info (ProcessingGroup groupNum totalGroups nAssets)) =>
                   Some (groupNum, totalGroups, nAssets)
                 | _ => None
                 end) evs.

Definition engineEvents (evs : list MainEvent) : list Event :=
  omap (fun e => match e with Engine e => Some e | _ => None end) evs.

Definition listingCalls (evs : list MainEvent) : list (result (list DuplicateGroup)) :=
  omap (fun e => match e with CallGetDuplicates res => Some res | _ => None end) evs.

Definition failedGroups (evs : list MainEvent) : list (Z * error) :=
  omap (fun e => match e with
                 | MainLogged Error (GroupFailed groupNum err) => Some (groupNum, err)
                 | _ => None
                 end) evs.

(** An event of the loop that reads the albums. *)
Definition fetches_albums (e : Event) : Prop :=
  match e with
  | CallGetAlbums _ _ => True
  | Logged Warning (FetchAlbumsFailed _ _) => True
  | _ => False
  end.

(** An event of [synchronizeAlbums]: a read of albums, a write, or a
    log line of its own. *)
Definition synchronizes (e : Event) : Prop :=
  match e with
  | CallGetAlbums _ _ | CallAddAssets _ _ _ => True
  | Logged _ line =>
    match line with
    | FetchAlbumsFailed _ _ | CurrentAssignments | AssetAssignment _ _
    | WouldAdd _ _ | AddFailed _ _ | Added _ _ => True
    | _ => False
    end
  | _ => False
  end.

(** Some asset was reported in the album in the course of the trace. *)
Definition reported (evs : list Event) (albumID : string) : Prop :=
  ∃ assetID albums, CallGetAlbums assetID (Ok albums) ∈ evs
    ∧ albumID ∈ album_ID <$> albums.

(** The asset is on record as a member of the album. *)
Definition recorded (m : gmap string (list Album)) (assetID albumID : string) : Prop :=
  ∃ albums, m !! assetID = Some albums ∧ albumID ∈ album_ID <$> albums.

(** An event of the loop that reads the details. *)
Definition fetches_details (e : Event) : Prop :=
  match e with
  | CallGetDetails _ _ => True
  | Logged Warning (FetchDetailsFailed _ _) => True
  | _ => False
  end.

(** An event of the deletion pass before the confirmation: a read of
    details or a log line of that part. *)
Definition reads_details (e : Event) : Prop :=
  match e with
  | CallGetDetails _ _ => True
  | Logged _ line =>
    match line with
    | Analyzing _ | FetchDetailsFailed _ _ | NotEnoughDetails | BestQuality _
    | BestDimensions _ _ _ => True
    | _ => False
    end
  | _ => False
  end.

(** An event of the confirmation and the deletion loop. *)
Definition deletes (e : Event) : Prop :=
  match e with
  | CallDelete _ _ | AskOperator _ _ => True
  | Logged _ line =>
    match line with
    | DeletionCancelled | DeletionCancelledByUser | WouldDelete _
    | DeleteFailed _ _ | Deleted _ => True
    | _ => False
    end
  | _ => False
  end.

(** An event of [autoDeleteDuplicates]: a read of details, the prompt, a
    delete call, or a log line of its own. *)
Definition removes (e : Event) : Prop :=
  match e with
  | CallGetDetails _ _ | CallDelete _ _ | AskOperator _ _ => True
  | Logged _ line =>
    match line with
    | Analyzing _ | FetchDetailsFailed _ _ | NotEnoughDetails | BestQuality _
    | BestDimensions _ _ _ | NoDuplicatesToDelete | DeletionCancelled
    | DeletionCancelledByUser | WouldDelete _ | DeleteFailed _ _ | Deleted _ => True
    | _ => False
    end
  | _ => False
  end.

(** The requests the helpers build. *)
Definition getRequest (config : Config) (path : string) : Http.Request :=
  {| Http.Method := "GET"; Http.URL := ImmichURL config +:+ path;
     Http.Header := [("x-api-key", APIKey config); ("Accept", "application/json")];
     Http.Body := None |}.

Definition writeRequest (config : Config) (method path jsonData : string) : Http.Request :=
  {| Http.Method := method; Http.URL := ImmichURL config +:+ path;
     Http.Header := [("x-api-key", APIKey config); ("Content-Type", "application/json");
                     ("Accept", "application/json")];
     Http.Body := Some jsonData |}.

Section Operator.
Context {U : UnicodeTables} {World : Type} {E : Environment World}.

(** The operator never confirms: the input fails, or the answer is
    neither "y" nor "yes". *)
Definition declines : Prop :=
  ∀ w, match (Scanln w).1 with
       | Ok response => (EqualFold response "y" || EqualFold response "yes") = false
       | Err _ => True
       end.

(** The last two steps of [autoDeleteDuplicates]: the confirmation and the
    loop over the assets to delete. *)
Definition confirmAndDelete (config : Config) (assetsToDelete : list string)
    : M World (option error) :=
  let* proceed := confirmDeletion config assetsToDelete in
  if proceed then
    do forEach (deleteOne config) tt assetsToDelete then ret None
  else ret None.

(** A write in a trace carries an answer of the gateway. *)
Definition answered (config : Config) (e : Event) : Prop :=
  match e with
  | CallAddAssets albumID assetIDs res =>
    ∃ w, res = (addRequest (ImmichURL config) (APIKey config) albumID assetIDs w).1
  | CallDelete assetID res =>
    ∃ w, res = (deleteRequest (ImmichURL config) (APIKey config) assetID w).1
  | _ => True
  end.

End Operator.

(** ** Scripted surroundings, for evaluating the engine on examples *)

(** No Unicode tables: enough for names and answers that are ASCII, where
    Go never consults them. *)
Definition ascii_only : UnicodeTables :=
  {| Map_unicode_ToUpper := fun s => s;
     unicode_EqualFold := String.eqb |}.

(** A server that answers by asset identifier, accepts or rejects every
    write alike, an operator with one answer, and a runtime that walks maps
    in the order of their key list. *)
Definition scripted (albums : string → result (list Album))
    (details : string → result AssetDetails)
    (addAnswer deleteAnswer : option error)
    (operator : result string) : Environment unit :=
  {| albumsRequest := fun _ _ assetID w => (albums assetID, w);
     detailsRequest := fun _ _ assetID w => (details assetID, w);
     addRequest := fun _ _ _ _ w => (addAnswer, w);
     deleteRequest := fun _ _ _ w => (deleteAnswer, w);
     Scanln := fun w => (operator, w);
     rangeKeys := fun keys w => (keys, w) |}.

Definition mkAsset (id name : string) (size : option Z) (created : Z) : AssetDetails :=
  {| ID := id; OriginalFileName := name;
     Exif := (fun s => {| FileSizeInByte := s; ImageWidth := 0; ImageHeight := 0 |}) <$> size;
     FileCreatedAt := created |}.

Definition mkAlbum (id name : string) : Album :=
  {| album_ID := id; AlbumName := name; album_Assets := []; AssetCount := 0 |}.

Definition mkGroup (ids : list string) : DuplicateGroup :=
  {| DuplicateID := "group"; Assets := Build_DuplicateAsset <$> ids |}.

Definition mkConfig (autoDelete dryRun yes : bool) : Config :=
  {| ImmichURL := "http://localhost:2283"; APIKey := "key";
     AutoDelete := autoDelete; DryRun := dryRun; Yes := yes; Verbose := false |}.

(** Candidates of the repository's ranking tests, and variations on them.
    Dates are day numbers. *)
Definition by_size : list (string * AssetDetails) :=
  [("asset1", mkAsset "asset1" "photo.jpg" (Some 1000000) 0);
   ("asset2", mkAsset "asset2" "photo.jpg" (Some 2000000) 0)].

Definition by_date : list (string * AssetDetails) :=
  [("asset1", mkAsset "asset1" "photo.jpg" (Some 1000000) 2);
   ("asset2", mkAsset "asset2" "image.jpg" (Some 1000000) 1)].

Definition original_first : list (string * AssetDetails) :=
  [("asset1", mkAsset "asset1" "vacation.jpg" (Some 1000000) 2);
   ("asset2", mkAsset "asset2" "IMG_1234.jpg" (Some 1000000) 1)].

Definition unnamed_first : list (string * AssetDetails) :=
  [("", mkAsset "" "photo.jpg" (Some 1000000) 2);
   ("asset2", mkAsset "asset2" "image.jpg" (Some 1000000) 1)].

Definition unnamed_alone : list (string * AssetDetails) :=
  [("", mkAsset "" "photo.jpg" (Some 1000000) 0)].

Definition full_tie : list (string * AssetDetails) :=
  [("asset1", mkAsset "asset1" "first.jpg" (Some 1000000) 1);
   ("asset2", mkAsset "asset2" "second.jpg" (Some 1000000) 1)].

Definition one_unsized : list (string * AssetDetails) :=
  [("asset1", mkAsset "asset1" "photo.jpg" None 0);
   ("asset2", mkAsset "asset2" "photo.jpg" (Some 1000000) 0)].

Definition negative_size : list (string * AssetDetails) :=
  [("asset1", mkAsset "asset1" "photo.jpg" (Some (-1)) 0)].

Definition candidates (entries : list (string * AssetDetails))
    : gmap string AssetDetails :=
  list_to_map entries.

(** A group of two assets, an album, and three servers: one that fails on
    asset B, one that knows B outside the album, one that reports both
    assets in the album. *)
Definition albumX : Album := mkAlbum "X" "Vacation 2023".

Definition group_AB : DuplicateGroup := mkGroup ["A"; "B"].

Definition details_AB (assetID : string) : result AssetDetails :=
  Ok (mkAsset assetID "photo.jpg"
        (Some (if String.eqb assetID "A" then 2000000 else 1000000)) 0).

Definition server_B_fails : Environment unit :=
  scripted (fun assetID => if String.eqb assetID "A" then Ok [albumX]
                           else Err (errorString "HTTP 500: "))
           details_AB None None (Ok "y").

Definition server_B_missing : Environment unit :=
  scripted (fun assetID => if String.eqb assetID "A" then Ok [albumX] else Ok [])
           details_AB None None (Ok "y").

Definition server_shared : Environment unit :=
  scripted (fun _ => Ok [albumX]) details_AB None None (Ok "y").

(** A configuration as the flags give it, with a trailing slash and the
    preview flag; a listing of two groups; a server without details for
    asset B. *)
Definition flags_preview : Config :=
  {| ImmichURL := "http://localhost:2283/"; APIKey := "key";
     AutoDelete := true; DryRun := true; Yes := false; Verbose := false |}.

Definition listing (groups : list DuplicateGroup) : Listing unit :=
  {| duplicatesRequest := fun _ _ w => (Ok groups, w) |}.

Definition two_groups : list DuplicateGroup := [group_AB; mkGroup ["C"]].

Definition server_B_unknown : Environment unit :=
  scripted (fun _ => Ok [albumX])
           (fun assetID => if String.eqb assetID "A" then details_AB assetID
                           else Err (errorString "HTTP 404: "))
           None None (Ok "y").

(** A server whose assets have no size metadata, an operator who
    declines, and an HTTP client that answers every request by the status
    its method calls for, with the URL as the body: the details decoded
    from it take the length of the URL for the size. *)
Definition server_unsized : Environment unit :=
  scripted (fun _ => Ok [albumX])
           (fun assetID => Ok (mkAsset assetID "photo.jpg" None 0))
           None None (Ok "y").

Definition server_operator_declines : Environment unit :=
  scripted (fun _ => Ok [albumX]) details_AB None None (Ok "n").

Definition canned (status : string → Z) : Http.Net unit string :=
  {| Http.NewRequest_error := fun _ _ => None;
     Http.Do := fun req w =>
       (Ok {| Http.StatusCode := status (Http.Method req);
              Http.RespBody := Http.URL req |}, w);
     Http.ReadAll := fun body => Ok body;
     Http.Close := fun _ => None;
     Http.Marshal_AddAssetsRequest := fun ids => Ok (String.concat "," ids);
     Http.Marshal_delete := fun id => Ok id;
     Http.Decode_duplicates := fun _ => Ok [];
     Http.Decode_albums := fun _ => Ok [albumX];
     Http.Decode_details := fun body =>
       Ok (mkAsset body "photo.jpg" (Some (Z.of_nat (String.length body))) 0) |}.

Definition polite : Http.Net unit string :=
  canned (fun method => if String.eqb method "DELETE" then 204 else 200).

Definition obliging : Environment unit :=
  Http.gateway (N:=polite) (fun w => (Ok "y", w)) (fun keys w => (keys, w)).

(** A server that knows B outside the album and rejects every write. *)
Definition server_rejects : Environment unit :=
  scripted (fun assetID => if String.eqb assetID "A" then Ok [albumX] else Ok [])
           details_AB (Some (errorString "HTTP 500: ")) None (Ok "y").

(** ** The filename classifier *)

Section Classifier.
Context {U : UnicodeTables}.

Lemma substring_0_0 (s : string) : String.substring 0 0 s = "".
Proof. by destruct s. Qed.

Lemma HasPrefix_spec (s p : string) :
  HasPrefix s p = true ↔ ∃ rest, s = p +:+ rest.
Proof.
  unfold HasPrefix. revert s. induction p as [|c p IH]; intros s; simpl.
  - rewrite substring_0_0. simpl. split; [by exists s | done].
  - destruct s as [|c' s]; simpl.
    + split; [done | by intros [rest ?]].
    + specialize (IH s). rewrite andb_true_iff in IH.
      rewrite String.eqb_eq in IH.
      destruct (Ascii.eqb_spec c' c) as [-> | Hne].
      * rewrite andb_true_iff, String.eqb_eq, IH.
        split; intros [rest Heq]; exists rest; [by rewrite Heq |].
        by injection Heq.
      * rewrite andb_false_r. split; [done |].
        intros [rest Heq]. injection Heq as ? ?. done.
Qed.

Lemma noPrefixOf_false (upper : string) (ps : list string) :
  noPrefixOf upper ps = false ↔ ∃ p, p ∈ ps ∧ HasPrefix upper p = true.
Proof.
  induction ps as [|p ps IH]; simpl.
  - split; [done | intros (p & Hp & _); by apply elem_of_nil in Hp].
  - destruct (HasPrefix upper p) eqn:Hp.
    + split; [intros _ | done]. exists p. split; [left | done].
    + rewrite IH. split.
      * intros (q & Hq & Hpre). exists q. split; [by right | done].
      * intros (q & Hq & Hpre). apply elem_of_cons in Hq as [-> | Hq];
          [congruence | by exists q].
Qed.

Lemma upperASCII_app (a b : string) :
  upperASCII (a +:+ b) = upperASCII a +:+ upperASCII b.
Proof. induction a as [|c a IH]; simpl; [done | by rewrite IH]. Qed.

Lemma upperASCII_split (f p rest : string) :
  upperASCII f = p +:+ rest →
  ∃ h t, f = h +:+ t ∧ upperASCII h = p ∧ upperASCII t = rest.
Proof.
  revert f. induction p as [|c p IH]; intros f Hf; simpl in *.
  - by exists "", f.
  - destruct f as [|c' f]; simpl in Hf; [done |].
    injection Hf as Hc Hf. destruct (IH f Hf) as (h & t & -> & Hh & Ht).
    exists (String c' h), t. simpl. by rewrite Hc, Hh.
Qed.

Lemma prefixes_upper (p : string) : p ∈ prefixes → upperASCII p = p.
Proof.
  unfold prefixes. rewrite !elem_of_cons, elem_of_nil.
  intros [->|[->|[->|[->|[->|[->|[]]]]]]]; reflexivity.
Qed.

Lemma ToUpper_ascii (s : string) : isASCII s = true → ToUpper s = upperASCII s.
Proof. unfold ToUpper. by intros ->. Qed.

Lemma isOriginalFilename_false (filename : string) :
  isOriginalFilename filename = false
  ↔ ∃ p, p ∈ prefixes ∧ ∃ rest, ToUpper filename = p +:+ rest.
Proof.
  unfold isOriginalFilename. rewrite noPrefixOf_false.
  split; intros (p & Hp & Hpre); exists p; (split; [done |]);
    by apply HasPrefix_spec.
Qed.

Lemma upper_prefix_iff (filename p : string) :
  p ∈ prefixes →
  (∃ rest, upperASCII filename = p +:+ rest) ↔ starts_with_ignoring_case filename p.
Proof.
  intros Hp. unfold starts_with_ignoring_case. rewrite (prefixes_upper p Hp).
  split.
  - intros [rest Hrest]. apply upperASCII_split in Hrest as (h & t & ? & ? & ?).
    by exists h, t.
  - intros (h & t & -> & Hh). exists (upperASCII t).
    by rewrite upperASCII_app, Hh.
Qed.

(** C3: [isOriginalFilename] is a total function to [bool] that answers
    [false] exactly when the upper-cased name starts with one of the six
    prefixes; for an ASCII name that is: exactly when the name starts with
    one of them up to letter case.  Every other name, the empty one
    included, is original. *)
Theorem isOriginalFilename_iff_no_camera_prefix (filename : string) :
  (isOriginalFilename filename = false
     ↔ ∃ p, p ∈ prefixes ∧ ∃ rest, ToUpper filename = p +:+ rest)
  ∧ (isOriginalFilename filename = true
     ↔ ¬ ∃ p, p ∈ prefixes ∧ ∃ rest, ToUpper filename = p +:+ rest)
  ∧ (isASCII filename = true →
       (isOriginalFilename filename = false
          ↔ ∃ p, p ∈ prefixes ∧ starts_with_ignoring_case filename p)
       ∧ (isOriginalFilename filename = true
          ↔ ¬ ∃ p, p ∈ prefixes ∧ starts_with_ignoring_case filename p))
  ∧ isOriginalFilename "" = true
  ∧ prefixes = ["IMG_"; "DSC_"; "DSCN"; "P_"; "PHOTO_"; "VID_"].
Proof.
  pose proof (isOriginalFilename_false filename) as Hgen.
  assert (Hascii : isASCII filename = true →
    isOriginalFilename filename = false
      ↔ ∃ p, p ∈ prefixes ∧ starts_with_ignoring_case filename p).
  { intros Ha. rewrite Hgen, (ToUpper_ascii _ Ha).
    split; intros (p & Hp & Hpre); exists p; (split; [done |]);
      by apply (upper_prefix_iff filename p Hp). }
  split; [done |]. split.
  { rewrite <- Hgen. by destruct (isOriginalFilename filename). }
  split; [| done].
  intros Ha. split; [by apply Hascii |].
  rewrite <- (Hascii Ha). by destruct (isOriginalFilename filename).
Qed.

End Classifier.

(** ** The quality ranker *)

Section Ranker.
Context {U : UnicodeTables}.
Implicit Types (assets : gmap string AssetDetails) (b : Best)
  (entries : list (string * AssetDetails)) (details : AssetDetails).

Lemma range_of_elem {V} (m : gmap string V) (l : list (string * V)) k v :
  range_of m l → (k, v) ∈ l ↔ m !! k = Some v.
Proof. unfold range_of. intros ->. apply elem_of_map_to_list. Qed.

Lemma range_of_list_to_map {V} (l : list (string * V)) :
  NoDup l.*1 → range_of (list_to_map l : gmap string V) l.
Proof. intros Hl. unfold range_of. by rewrite map_to_list_to_map. Qed.

Lemma tracks_noBest assets : tracks assets noBest.
Proof. by left. Qed.

Lemma visit_spec assets b k details :
  assets !! k = Some details → tracks assets b →
  ∃ b', visit assets b (k, details) = Some b'
    ∧ tracks assets b'
    ∧ bestSize b ≤ bestSize b'
    ∧ (∀ exif, Exif details = Some exif → FileSizeInByte exif ≤ bestSize b').
Proof.
  intros Hk Hb. unfold visit.
  destruct (Exif details) as [exif|] eqn:Hexif; [| exists b; naive_solver lia].
  destruct (Z.ltb_spec (bestSize b) (FileSizeInByte exif)) as [Hlt | Hge].
  { eexists. split; [done |]. simpl. split; [| naive_solver lia].
    right. by exists details, exif. }
  destruct (Z.eqb_spec (FileSizeInByte exif) (bestSize b)) as [Heq | Hne];
    [| exists b; naive_solver lia].
  destruct (String.eqb_spec (bestID b) "") as [Hid | Hid]; simpl;
    [exists b; naive_solver lia |].
  destruct Hb as [[? _] | (best & bexif & Hbest & Hbexif & Hbsize)]; [done |].
  rewrite Hbest.
  assert (Htaken : tracks assets {| bestID := k; bestSize := bestSize b |}).
  { right. by exists details, exif. }
  assert (Hkept : tracks assets b) by (right; by exists best, bexif).
  repeat case_match; eexists; (split; [done |]); simpl; naive_solver lia.
Qed.

Lemma rangeLoop_spec assets entries b :
  (∀ k details, (k, details) ∈ entries → assets !! k = Some details) →
  tracks assets b →
  ∃ b', rangeLoop assets b entries = Some b'
    ∧ tracks assets b'
    ∧ bestSize b ≤ bestSize b'
    ∧ (∀ k details exif, (k, details) ∈ entries →
         Exif details = Some exif → FileSizeInByte exif ≤ bestSize b').
Proof.
  revert b. induction entries as [|[k details] entries IH]; intros b Hin Hb.
  - exists b. simpl. repeat split; [done | lia |].
    intros ??? Hel. by apply elem_of_nil in Hel.
  - destruct (visit_spec assets b k details) as (b1 & Hv & Hb1 & Hle1 & Hsz1);
      [apply Hin; left | done |].
    destruct (IH b1) as (b' & Hloop & Hb' & Hle & Hsz);
      [intros; apply Hin; by right | done |].
    exists b'. cbn [rangeLoop]. rewrite Hv. repeat split; [done | done | lia |].
    intros k' d' e' Hel He'. apply elem_of_cons in Hel as [[= -> ->] | Hel].
    + specialize (Hsz1 e' He'). lia.
    + by apply (Hsz k' d').
Qed.

(** The whole run: it ends without a panic, and its result either is the
    empty identifier left from the start, or names an asset with size
    metadata whose size is the largest of all. *)
Lemma select_spec assets entries :
  range_of assets entries →
  ∃ b, rangeLoop assets noBest entries = Some b
    ∧ selectBestQualityAsset assets entries = Some (bestID b)
    ∧ tracks assets b
    ∧ (∀ k details exif, assets !! k = Some details →
         Exif details = Some exif → FileSizeInByte exif ≤ bestSize b).
Proof.
  intros Hr.
  destruct (rangeLoop_spec assets entries noBest) as (b & Hloop & Hb & _ & Hsz).
  { intros k d. by apply range_of_elem. }
  { apply tracks_noBest. }
  exists b. unfold selectBestQualityAsset. rewrite Hloop.
  split_and!; [done | done | done |].
  intros k d e Hk. apply (Hsz k). by apply (range_of_elem assets).
Qed.


Lemma sizeOf_hasSize details :
  hasSize details = true → ∃ exif, Exif details = Some exif ∧ sizeOf details = FileSizeInByte exif.
Proof. unfold hasSize, sizeOf. destruct (Exif details) as [e|]; [by exists e | done]. Qed.

(** C4: an asset whose byte size is strictly larger than that of every
    other candidate with size metadata is the one selected, in whatever
    order the map is walked and whatever the names and dates are.  Sizes
    are byte counts: the largest one is not negative. *)
Theorem strictly_largest_is_selected assets entries m dm :
  range_of assets entries →
  assets !! m = Some dm → hasSize dm = true → 0 ≤ sizeOf dm →
  (∀ k details, assets !! k = Some details → hasSize details = true →
     k ≠ m → sizeOf details < sizeOf dm) →
  selectBestQualityAsset assets entries = Some m.
Proof.
  intros Hr Hm Hs Hnn Hmax.
  destruct (select_spec assets entries Hr) as (b & _ & -> & Hb & Hsz).
  destruct (sizeOf_hasSize dm Hs) as (em & Hem & Hsm).
  specialize (Hsz m dm em Hm Hem). f_equal.
  destruct Hb as [[_ Hm1] | (d & e & Hd & He & Hde)]; [lia |].
  destruct (decide (bestID b = m)) as [| Hne]; [done |].
  specialize (Hmax (bestID b) d Hd). rewrite Hsm in Hmax.
  unfold hasSize, sizeOf in Hmax. rewrite He in Hmax.
  specialize (Hmax eq_refl Hne). lia.
Qed.













Lemma range_of_sized assets entries :
  range_of assets entries → range_of (filter sized assets) (filter sized entries).
Proof.
  unfold range_of. intros ->. apply NoDup_Permutation.
  - apply NoDup_filter, NoDup_map_to_list.
  - apply NoDup_map_to_list.
  - intros [k d]. rewrite list_elem_of_filter, !elem_of_map_to_list.
    rewrite map_lookup_filter_Some. tauto.
Qed.

Lemma visit_sized assets b k details :
  tracks assets b → hasSize details = true →
  visit (filter sized assets) b (k, details) = visit assets b (k, details).
Proof.
  intros Hb Hs. unfold visit.
  destruct (Exif details) as [exif|]; [| done].
  destruct (bestSize b <? FileSizeInByte exif); [done |].
  destruct (FileSizeInByte exif =? bestSize b); [| done].
  destruct (String.eqb_spec (bestID b) "") as [Hid | Hid]; simpl; [done |].
  destruct Hb as [[? _] | (best & bexif & Hbest & Hbexif & _)]; [done |].
  rewrite Hbest.
  assert (filter sized assets !! bestID b = Some best) as ->; [| done].
  apply map_lookup_filter_Some. split; [done |].
  unfold sized, hasSize. simpl. by rewrite Hbexif.
Qed.

Lemma rangeLoop_sized assets entries b :
  (∀ k details, (k, details) ∈ entries → assets !! k = Some details) →
  tracks assets b →
  rangeLoop (filter sized assets) b (filter sized entries)
  = rangeLoop assets b entries.
Proof.
  revert b. induction entries as [|[k d] entries IH]; intros b Hin Hb; [done |].
  destruct (visit_spec assets b k d) as (b1 & Hv & Hb1 & _);
    [apply Hin; left | done |].
  cbn [rangeLoop]. rewrite Hv.
  destruct (hasSize d) eqn:Hs.
  - rewrite filter_cons_True by done. cbn [rangeLoop].
    rewrite visit_sized, Hv by done. apply IH; [| done].
    intros; apply Hin; by right.
  - rewrite filter_cons_False by (unfold sized; simpl; congruence).
    assert (b1 = b) as ->.
    { unfold visit, hasSize in *. destruct (Exif d); [done | congruence]. }
    apply IH; [| done]. intros; apply Hin; by right.
Qed.

(** C6, as the code has it: the run never panics; candidates without
    size metadata are skipped, so the result is the one of the run over
    the candidates that have it, and a non-empty result names a candidate
    with size metadata.  The empty string doubles as "no best yet": the
    result is the empty string exactly when no candidate has size
    metadata provided no candidate is itself named by the empty string
    (and sizes are byte counts, not negative). *)
Theorem none_iff_no_size_metadata assets entries :
  range_of assets entries →
  ∃ r, selectBestQualityAsset assets entries = Some r
    ∧ selectBestQualityAsset (filter sized assets) (filter sized entries) = Some r
    ∧ range_of (filter sized assets) (filter sized entries)
    ∧ (r ≠ "" → ∃ details, assets !! r = Some details ∧ hasSize details = true)
    ∧ (sizes_nonnegative assets → assets !! "" = None →
         (r = "" ↔ no_size_metadata assets)).
Proof.
  intros Hr.
  destruct (select_spec assets entries Hr) as (b & Hloop & Hsel & Hb & Hsz).
  exists (bestID b). split_and!.
  - done.
  - unfold selectBestQualityAsset. rewrite rangeLoop_sized, Hloop; [done | |].
    + intros k d. by apply range_of_elem.
    + apply tracks_noBest.
  - by apply range_of_sized.
  - intros Hne. destruct Hb as [[? _] | (d & e & Hd & He & _)]; [done |].
    exists d. split; [done |]. unfold hasSize. by rewrite He.
  - intros Hnn Hempty. split.
    + intros Hid k d Hk.
      destruct Hb as [[_ Hm1] | (d0 & e0 & Hd0 & _)]; [| congruence].
      destruct (Exif d) as [e|] eqn:He; [| done].
      specialize (Hsz k d e Hk He). specialize (Hnn k d e Hk He). lia.
    + intros Hno. destruct Hb as [[? _] | (d & e & Hd & He & _)]; [done |].
      by rewrite (Hno _ _ Hd) in He.
Qed.

(** C5, as the code has it: a candidate of the size and of the
    originality class of the current best replaces it exactly when it was
    created strictly earlier, and on equal dates the current best stays,
    provided the current best is not named by the empty string (which
    the loop reads as "no best yet" and then compares nothing).  So of
    two such candidates walked in the order [first], [next] the selected
    one is [next] if strictly earlier and [first] otherwise. *)
Theorem earlier_wins_among_equals assets first next dfirst dnext :
  first ≠ "" →
  assets !! first = Some dfirst →
  hasSize dfirst = true → hasSize dnext = true →
  sizeOf dnext = sizeOf dfirst →
  isOriginalFilename (OriginalFileName dnext)
    = isOriginalFilename (OriginalFileName dfirst) →
  visit assets {| bestID := first; bestSize := sizeOf dfirst |} (next, dnext)
    = Some {| bestID := if Before (FileCreatedAt dnext) (FileCreatedAt dfirst)
                        then next else first;
              bestSize := sizeOf dfirst |}
  ∧ (0 ≤ sizeOf dfirst →
     selectBestQualityAsset assets [(first, dfirst); (next, dnext)]
       = Some (if Before (FileCreatedAt dnext) (FileCreatedAt dfirst)
               then next else first)).
Proof.
  intros Hne Hfirst Hsf Hsn Hsize Hclass.
  destruct (sizeOf_hasSize _ Hsf) as (ef & Hef & Hszf).
  destruct (sizeOf_hasSize _ Hsn) as (en & Hen & Hszn).
  assert (Hstep : visit assets {| bestID := first; bestSize := sizeOf dfirst |} (next, dnext)
    = Some {| bestID := if Before (FileCreatedAt dnext) (FileCreatedAt dfirst)
                        then next else first;
              bestSize := sizeOf dfirst |}).
  { unfold visit. rewrite Hen. simpl.
    rewrite <- Hszn, Hsize, Z.ltb_irrefl, Z.eqb_refl.
    destruct (String.eqb_spec first "") as [| _]; [done |]. simpl.
    rewrite Hfirst, Hclass, andb_negb_r.
    by destruct (Before _ _). }
  split; [done |]. intros Hnn.
  unfold selectBestQualityAsset. cbn [rangeLoop].
  assert (visit assets noBest (first, dfirst)
          = Some {| bestID := first; bestSize := sizeOf dfirst |}) as ->.
  { unfold visit. rewrite Hef. simpl.
    destruct (Z.ltb_spec (-1) (FileSizeInByte ef)); [by rewrite Hszf | lia]. }
  by rewrite Hstep.
Qed.

(** The comparison behind C1: an original-named current best is replaced
    by a camera-named candidate of the same size that was created
    earlier. *)
Lemma visit_replaces_original assets b k details exif best :
  bestID b ≠ "" → assets !! bestID b = Some best →
  Exif details = Some exif → FileSizeInByte exif = bestSize b →
  isOriginalFilename (OriginalFileName best) = true →
  isOriginalFilename (OriginalFileName details) = false →
  FileCreatedAt details < FileCreatedAt best →
  visit assets b (k, details) = Some {| bestID := k; bestSize := bestSize b |}.
Proof.
  intros Hne Hbest He Hsize Hob Hod Hdate. unfold visit.
  rewrite He, Hsize, Z.ltb_irrefl, Z.eqb_refl.
  destruct (String.eqb_spec (bestID b) "") as [| _]; [done |]. simpl.
  rewrite Hbest, Hod. simpl. unfold Before.
  by destruct (Z.ltb_spec (FileCreatedAt details) (FileCreatedAt best)); [| lia].
Qed.

(** C1, where the code departs from it: [original_first] holds two
    candidates of 1,000,000 bytes, [vacation.jpg] (original, created on day
    2) and [IMG_1234.jpg] (camera-generated, created on day 1).  Walked in
    that order, the only original-named candidate loses: the date comparison
    is also reached when the candidate is the one that is not original.
    Walked in the other order, it wins. *)
Theorem earlier_camera_name_beats_original :
  range_of (candidates original_first) original_first
  ∧ range_of (candidates original_first) (reverse original_first)
  ∧ isOriginalFilename "vacation.jpg" = true
  ∧ isOriginalFilename "IMG_1234.jpg" = false
  ∧ selectBestQualityAsset (candidates original_first) original_first = Some "asset2"
  ∧ selectBestQualityAsset (candidates original_first) (reverse original_first)
    = Some "asset1".
Proof.
  assert (Hr : range_of (candidates original_first) original_first).
  { apply range_of_list_to_map. by apply (bool_decide_unpack _). }
  split_and!; [done | | by vm_compute ..].
  unfold range_of in *. rewrite <- Hr. apply Permutation_swap.
Qed.

End Ranker.

(** ** The album reconciler *)

Section Reconciler.
Context {U : UnicodeTables} {World : Type} {E : Environment World}.
Implicit Types (config : Config) (group : DuplicateGroup) (w : World)
  (assetAlbums : gmap string (list Album)) (evs : list Event).

Lemma value_bind {A B} (m : M World A) (k : A → M World B) w :
  value (bind m k w)
  = match value (m w) with Some a => value (k a (after (m w))) | None => None end.
Proof. unfold bind. by destruct (value (m w)). Qed.

Lemma events_bind {A B} (m : M World A) (k : A → M World B) w :
  events (bind m k w)
  = events (m w)
    ++ match value (m w) with Some a => events (k a (after (m w))) | None => [] end.
Proof. unfold bind. destruct (value (m w)); simpl; [done | by rewrite app_nil_r]. Qed.

Lemma after_bind {A B} (m : M World A) (k : A → M World B) w :
  after (bind m k w)
  = match value (m w) with Some a => after (k a (after (m w))) | None => after (m w) end.
Proof. unfold bind. by destruct (value (m w)). Qed.

Lemma bind_Some {A B} (m : M World A) (k : A → M World B) w a :
  value (m w) = Some a →
  bind m k w = {| value := value (k a (after (m w)));
                  after := after (k a (after (m w)));
                  events := events (m w) ++ events (k a (after (m w))) |}.
Proof. unfold bind. by intros ->. Qed.

(** A loop whose body never panics runs to its end, and a property of the
    events of every iteration holds of the events of the loop. *)
Lemma forEach_total {A S} (body : S → A → M World S) (P : Event → Prop) l s w :
  (∀ s x w, is_Some (value (body s x w)) ∧ Forall P (events (body s x w))) →
  is_Some (value (forEach body s l w)) ∧ Forall P (events (forEach body s l w)).
Proof.
  intros Hbody. revert s w. induction l as [|x l IH]; intros s w; simpl.
  - split; [by eexists | constructor].
  - rewrite value_bind, events_bind.
    destruct (Hbody s x w) as [[s' Hs'] Hev]. rewrite Hs'.
    destruct (IH s' (after (body s x w))) as [Hv Hev'].
    split; [done | by apply Forall_app].
Qed.

Lemma addCalls_app evs1 evs2 : addCalls (evs1 ++ evs2) = addCalls evs1 ++ addCalls evs2.
Proof. apply omap_app. Qed.

Lemma addCalls_none evs : Forall (fun e => isAddCall e = false) evs → addCalls evs = [].
Proof.
  induction 1 as [|e evs He _ IH]; [done |].
  destruct e; try done. 
Qed.

Lemma countPairs_app calls1 calls2 :
  countPairs (calls1 ++ calls2) = countPairs calls1 + countPairs calls2.
Proof. unfold countPairs. induction calls1 as [|c l IH]; simpl; lia. Qed.

Lemma addedPairs_app evs1 evs2 : addedPairs (evs1 ++ evs2) = addedPairs evs1 + addedPairs evs2.
Proof. unfold addedPairs. by rewrite addCalls_app, filter_app, countPairs_app. Qed.

Lemma attemptedPairs_app evs1 evs2 :
  attemptedPairs (evs1 ++ evs2) = attemptedPairs evs1 + attemptedPairs evs2.
Proof. unfold attemptedPairs. by rewrite addCalls_app, countPairs_app. Qed.

Lemma countPairs_nonneg calls : 0 ≤ countPairs calls.
Proof. unfold countPairs, len. induction calls; simpl; lia. Qed.

(** Arithmetic on Go's [int]. *)
Lemma wrapInt_small z : - 2^63 ≤ z < 2^63 → wrapInt z = z.
Proof. intros Hz. unfold wrapInt. rewrite Z.mod_small; lia. Qed.

Lemma addInt_wrapInt z n : addInt (wrapInt z) n = wrapInt (z + n).
Proof.
  unfold addInt, wrapInt.
  replace ((z + 2^63) mod 2^64 - 2^63 + n + 2^63) with ((z + 2^63) mod 2^64 + n) by lia.
  rewrite Zplus_mod_idemp_l. f_equal. f_equal. lia.
Qed.

(** *** The loop over the albums *)

Lemma attemptedPairs_planned evs :
  attemptedPairs evs = countPlanned (addCalls evs).*1.
Proof.
  unfold attemptedPairs, countPairs, countPlanned.
  induction (addCalls evs) as [|c l IH]; simpl; [done | by rewrite IH].
Qed.

Lemma syncAlbum_dry config group assetAlbums c albumID w :
  DryRun config = true →
  let toAdd := assetsToAdd assetAlbums albumID (Assets group) in
  let o := syncAlbum config group assetAlbums c albumID w in
  value o = Some (if 0 <? len toAdd then addInt c (len toAdd) else c)
  ∧ after o = w
  ∧ Forall (fun e => isLog e = true) (events o).
Proof.
  intros Hdry. unfold syncAlbum. rewrite Hdry. simpl.
  destruct (0 <? len _); simpl; split_and!; try done; by repeat constructor.
Qed.

Lemma sync_loop_dry config group assetAlbums order c z w :
  DryRun config = true → c = wrapInt z →
  let o := forEach (syncAlbum config group assetAlbums) c order w in
  value o = Some (wrapInt (z + countPlanned (planned assetAlbums group order)))
  ∧ after o = w
  ∧ Forall (fun e => isLog e = true) (events o).
Proof.
  intros Hdry. revert c z w. induction order as [|X order IH]; intros c z w ->; simpl.
  - split_and!; [by rewrite Z.add_0_r | done | constructor].
  - rewrite value_bind, events_bind, after_bind.
    destruct (syncAlbum_dry config group assetAlbums (wrapInt z) X w Hdry)
      as (-> & -> & Hev).
    destruct (0 <? len (assetsToAdd assetAlbums X (Assets group))) eqn:Hpos; simpl.
    + destruct (IH _ (z + len (assetsToAdd assetAlbums X (Assets group))) w
                  (addInt_wrapInt _ _)) as (-> & -> & Hev').
      split_and!; [f_equal; f_equal; lia | done | by apply Forall_app].
    + destruct (IH _ z w eq_refl) as (-> & -> & Hev').
      split_and!; [done | done | by apply Forall_app].
Qed.

Lemma syncAlbum_wet config group assetAlbums z albumID w :
  DryRun config = false →
  let toAdd := assetsToAdd assetAlbums albumID (Assets group) in
  let o := syncAlbum config group assetAlbums (wrapInt z) albumID w in
  value o = Some (wrapInt (z + addedPairs (events o)))
  ∧ (addCalls (events o)).*1 = (if 0 <? len toAdd then [(albumID, toAdd)] else [])
  ∧ Forall (write_or_log config) (events o).
Proof.
  intros Hwet. unfold syncAlbum. rewrite Hwet. simpl.
  destruct (0 <? len _); simpl.
  - unfold addAssetsToAlbum, exchange, bind.
    destruct (addRequest _ _ _ _ w) as [r w'] eqn:Hreq. simpl.
    assert (write_or_log config
              (CallAddAssets albumID (assetsToAdd assetAlbums albumID (Assets group)) r)).
    { simpl. exists w. by rewrite Hreq. }
    destruct r as [e|]; simpl; unfold addedPairs; simpl.
    + split_and!; [by rewrite Z.add_0_r | done | by repeat constructor].
    + split_and!; [| done | by repeat constructor].
      rewrite addInt_wrapInt. do 2 f_equal. unfold countPairs. simpl. lia.
  - split_and!; [by rewrite Z.add_0_r | done | constructor].
Qed.

Lemma sync_loop_wet config group assetAlbums order z w :
  DryRun config = false →
  let o := forEach (syncAlbum config group assetAlbums) (wrapInt z) order w in
  value o = Some (wrapInt (z + addedPairs (events o)))
  ∧ (addCalls (events o)).*1 = planned assetAlbums group order
  ∧ Forall (write_or_log config) (events o).
Proof.
  intros Hwet. revert z w. induction order as [|X order IH]; intros z w; simpl.
  - split_and!; [by rewrite Z.add_0_r | done | constructor].
  - rewrite value_bind, events_bind.
    destruct (syncAlbum_wet config group assetAlbums z X w Hwet) as (-> & Hcalls & Hev).
    destruct (IH (z + addedPairs (events (syncAlbum config group assetAlbums (wrapInt z) X w)))
                (after (syncAlbum config group assetAlbums (wrapInt z) X w)))
      as (-> & Hcalls' & Hev').
    rewrite addedPairs_app, addCalls_app, fmap_app, Hcalls, Hcalls'.
    split_and!; [f_equal; f_equal; lia | | by apply Forall_app].
    by destruct (0 <? len _).
Qed.

Lemma write_or_log_not_fetch config evs :
  Forall (write_or_log config) evs → Forall (fun e => isGetAlbums e = false) evs.
Proof. intros Hf. eapply Forall_impl; [done |]. by intros []. Qed.

Lemma log_not_write evs :
  Forall (fun e => isLog e = true) evs →
  Forall (fun e => isAddCall e = false ∧ isGetAlbums e = false) evs.
Proof. intros Hf. eapply Forall_impl; [done |]. by intros []. Qed.

(** *** The loop over the assets *)

Lemma elem_of_markAlbums (allAlbumIDs : gset string) albums albumID :
  albumID ∈ markAlbums allAlbumIDs albums
  ↔ albumID ∈ allAlbumIDs ∨ albumID ∈ album_ID <$> albums.
Proof.
  revert allAlbumIDs. induction albums as [|a albums IH]; intros s; simpl.
  - rewrite elem_of_nil. tauto.
  - rewrite IH, elem_of_cons, elem_of_union, elem_of_singleton. tauto.
Qed.

Lemma inAlbum_spec albums albumID :
  inAlbum albums albumID = true ↔ albumID ∈ album_ID <$> albums.
Proof.
  induction albums as [|a albums IH]; simpl.
  - rewrite elem_of_nil. split; [done | tauto].
  - rewrite elem_of_cons, <- IH.
    destruct (String.eqb_spec (album_ID a) albumID) as [-> | Hne]; [by split; [left |] |].
    split; [by right | intros [-> | ?]; done].
Qed.

Lemma elem_of_assetsToAdd assetAlbums albumID assets id :
  id ∈ assetsToAdd assetAlbums albumID assets
  ↔ ∃ asset, asset ∈ assets ∧ id = da_ID asset
      ∧ inAlbum (default [] (assetAlbums !! da_ID asset)) albumID = false.
Proof.
  induction assets as [|a assets IH]; simpl.
  - rewrite elem_of_nil. split; [done | intros (? & Hin & _); by apply elem_of_nil in Hin].
  - destruct (inAlbum _ albumID) eqn:Hin.
    + rewrite IH. split; intros (x & Hx & -> & Hno); exists x.
      * split; [by right | done].
      * apply elem_of_cons in Hx as [-> | Hx]; [congruence | done].
    + rewrite elem_of_cons, IH. split.
      * intros [-> | (x & Hx & -> & Hno)]; [exists a | exists x];
          (split; [by (left || right) | done]).
      * intros (x & Hx & -> & Hno). apply elem_of_cons in Hx as [-> | Hx];
          [by left | right; by exists x].
Qed.

Lemma fetchAlbums_step config assetAlbums allAlbumIDs asset w :
  let r := (albumsRequest (ImmichURL config) (APIKey config) (da_ID asset) w).1 in
  let o := fetchAlbums config (assetAlbums, allAlbumIDs) asset w in
  value o = Some (match r with
                  | Ok albums => (<[da_ID asset := albums]> assetAlbums,
                                  markAlbums allAlbumIDs albums)
                  | Err _ => (assetAlbums, allAlbumIDs)
                  end)
  ∧ ∃ logs, events o = CallGetAlbums (da_ID asset) r :: logs
      ∧ Forall (fun e => isLog e = true) logs.
Proof.
  unfold fetchAlbums, getAlbumsForAsset, exchange, bind.
  destruct (albumsRequest _ _ _ w) as [[albums | err] w']; simpl.
  - split; [done |]. by exists [].
  - split; [done |]. eexists. split; [done |]. by repeat constructor.
Qed.

Lemma fetch_loop config assets assetAlbums0 (allAlbumIDs0 : gset string) w :
  let o := forEach (fetchAlbums config) (assetAlbums0, allAlbumIDs0) assets w in
  ∃ assetAlbums (allAlbumIDs : gset string),
    value o = Some (assetAlbums, allAlbumIDs)
    ∧ (∀ albumID, albumID ∈ allAlbumIDs
         ↔ albumID ∈ allAlbumIDs0
           ∨ ∃ id albums, CallGetAlbums id (Ok albums) ∈ events o
               ∧ albumID ∈ album_ID <$> albums)
    ∧ (∀ id, (∀ albums, CallGetAlbums id (Ok albums) ∉ events o) →
         assetAlbums !! id = assetAlbums0 !! id)
    ∧ Forall (fun e => isAddCall e = false) (events o).
Proof.
  revert assetAlbums0 allAlbumIDs0 w.
  induction assets as [|a assets IH]; intros m0 s0 w; cbn [forEach].
  - exists m0, s0. split_and!; [done | | done | constructor].
    intros X. split; [by left |]. intros [? | (? & ? & Hin & _)]; [done |].
    by apply elem_of_nil in Hin.
  - rewrite value_bind, events_bind.
    destruct (fetchAlbums_step config m0 s0 a w) as (-> & logs & -> & Hlogs).
    set (r := (albumsRequest (ImmichURL config) (APIKey config) (da_ID a) w).1) in *.
    set (vars := match r with Ok albums => _ | Err _ => _ end).
    destruct vars as [m1 s1] eqn:Hvars.
    destruct (IH m1 s1 (after (fetchAlbums config (m0, s0) a w)))
      as (m & s & Hval & Hs & Hm & Hno).
    rewrite Hval. exists m, s. split; [done |].
    set (evs := events _) in *.
    assert (Hlog : ∀ id res, CallGetAlbums id res ∉ logs).
    { intros id res Hin. rewrite Forall_forall in Hlogs. by apply Hlogs in Hin. }
    split_and!.
    + intros X. rewrite Hs. split.
      * intros [HX | (id & albums & Hin & HX)].
        -- subst vars. destruct r as [albums | err]; injection Hvars as <- <-;
             [| by left].
           apply elem_of_markAlbums in HX as [HX | HX]; [by left |].
           right. exists (da_ID a), albums. split; [left | done].
        -- right. exists id, albums. split; [| done].
           right. apply elem_of_app. by right.
      * intros [HX | (id & albums & Hin & HX)].
        -- left. subst vars. destruct r as [albums | err]; injection Hvars as <- <-;
             [| done]. apply elem_of_markAlbums. by left.
        -- apply elem_of_cons in Hin as [[= -> Hr] | Hin].
           ++ left. subst vars. rewrite <- Hr in Hvars. injection Hvars as <- <-.
              apply elem_of_markAlbums. by right.
           ++ apply elem_of_app in Hin as [Hin | Hin]; [by apply Hlog in Hin |].
              right. by exists id, albums.
    + intros id Hnone. rewrite Hm.
      * subst vars. destruct r as [albums | err] eqn:Hr; injection Hvars as <- <-;
          [| done].
        apply lookup_insert_ne. intros <-. apply (Hnone albums). left.
      * intros albums Hin. apply (Hnone albums). right. apply elem_of_app. by right.
    + constructor; [done |]. apply Forall_app. split; [| done].
      eapply Forall_impl; [done |]. by intros [].
Qed.

Lemma omap_lookup_keys {V} (m : gmap string V) :
  omap (fun k => pair k <$> m !! k) (map_to_list m).*1 = map_to_list m.
Proof.
  assert (Hall : Forall (fun kv => m !! kv.1 = Some kv.2) (map_to_list m)).
  { apply Forall_forall. intros [k v]. apply elem_of_map_to_list. }
  induction Hall as [|[k v] l Hkv _ IH]; [done |].
  rewrite fmap_cons. cbn [omap list_omap fst]. simpl in Hkv. rewrite Hkv.
  simpl. by f_equal.
Qed.

Lemma rangeMap_outcome {V} (m : gmap string V) w :
  ∃ entries w',
    rangeMap m w = {| value := Some entries; after := w'; events := [] |}
    ∧ (fair_range → range_of m entries).
Proof.
  unfold rangeMap, silently, bind.
  destruct (rangeKeys (map_to_list m).*1 w) as [order w'] eqn:Hrange. simpl.
  eexists _, w'. split; [done |].
  intros Hfair. specialize (Hfair (map_to_list m).*1 w). rewrite Hrange in Hfair.
  unfold range_of. simpl in Hfair. by rewrite Hfair, omap_lookup_keys.
Qed.

Lemma showAssignments_logs (entries : list (string * list Album)) w :
  let o := forEach showAssignment tt entries w in
  is_Some (value o) ∧ Forall (fun e => isLog e = true) (events o).
Proof.
  apply forEach_total. intros [] [id albums] w'. simpl.
  split; [by eexists | by repeat constructor].
Qed.

Lemma showAssignments_outcome config assetAlbums w :
  let o := (if Verbose config then
              do logInfo CurrentAssignments then
              let* entries := rangeMap assetAlbums in
              forEach showAssignment tt entries
            else ret tt) w in
  value o = Some tt ∧ Forall (fun e => isLog e = true) (events o).
Proof.
  destruct (Verbose config); cbv zeta; [| split; [done | constructor]].
  rewrite value_bind, events_bind. simpl. rewrite value_bind, events_bind.
  destruct (rangeMap_outcome assetAlbums w) as (entries & w' & -> & _). simpl.
  destruct (showAssignments_logs entries w') as [[[] Hv] He].
  split; [done | by constructor].
Qed.

(** The part of [synchronizeAlbums] before the second loop does not look
    at the preview flag: what it finds ([assetAlbums], [allAlbumIDs]), the
    events it leaves ([pre]) and the order picked for the second loop are
    the same in both modes.  The result of the function is the count of
    the second loop together with a nil error. *)
Lemma sync_outcome config group w :
  ∃ assetAlbums (allAlbumIDs : gset string) pre order w2,
    (∀ albumID, albumID ∈ allAlbumIDs
       ↔ ∃ id albums, CallGetAlbums id (Ok albums) ∈ pre
           ∧ albumID ∈ album_ID <$> albums)
    ∧ (∀ id, (∀ albums, CallGetAlbums id (Ok albums) ∉ pre) → assetAlbums !! id = None)
    ∧ Forall (fun e => isAddCall e = false) pre
    ∧ (fair_range → order ≡ₚ elements allAlbumIDs)
    ∧ value (forEach (fetchAlbums config) (∅, ∅) (Assets group) w)
      = Some (assetAlbums, allAlbumIDs)
    ∧ ∀ b,
        let o := forEach (syncAlbum (withDryRun b config) group assetAlbums) 0 order w2 in
        value (synchronizeAlbums (withDryRun b config) group w)
          = (fun c => (c, None)) <$> value o
        ∧ events (synchronizeAlbums (withDryRun b config) group w) = pre ++ events o.
Proof.
  destruct (fetch_loop config (Assets group) ∅ ∅ w) as (m & s & Hval & Hs & Hm & Hno).
  set (o1 := forEach (fetchAlbums config) (∅, ∅) (Assets group) w) in *.
  pose (o2 := (if Verbose config then
                 do logInfo CurrentAssignments then
                 let* entries := rangeMap m in
                 forEach showAssignment tt entries
               else ret tt) (after o1)).
  destruct (showAssignments_outcome config m (after o1)) as [Hv2 Hlog2].
  change (value o2 = Some tt) in Hv2.
  change (Forall (fun e => isLog e = true) (events o2)) in Hlog2.
  destruct (rangeKeys (elements s) (after o2)) as [order w2] eqn:Hrange.
  exists m, s, (events o1 ++ events o2), order, w2.
  assert (Hcall : ∀ id res, CallGetAlbums id res ∈ events o1 ++ events o2
                            ↔ CallGetAlbums id res ∈ events o1).
  { intros id res. rewrite elem_of_app. split; [| by left].
    intros [? | Hin]; [done |]. rewrite Forall_forall in Hlog2. by apply Hlog2 in Hin. }
  split_and!.
  - intros X. rewrite Hs. setoid_rewrite Hcall.
    split; [| by right]. intros [Hin | ?]; [by apply not_elem_of_empty in Hin | done].
  - intros id Hnone. rewrite Hm; [done |].
    intros albums Hin. apply (Hnone albums). by apply Hcall.
  - apply Forall_app. split; [done |]. eapply Forall_impl; [done |]. by intros [].
  - intros Hfair. specialize (Hfair (elements s) (after o2)). by rewrite Hrange in Hfair.
  - done.
  - intros b. unfold synchronizeAlbums.
    change (fetchAlbums (withDryRun b config)) with (fetchAlbums config).
    change (Verbose (withDryRun b config)) with (Verbose config).
    rewrite (bind_Some _ _ _ _ Hval). cbn [value events after].
    change ((if Verbose config then _ else _) (after o1)) with o2.
    rewrite (bind_Some _ _ _ _ Hv2). cbn [value events after].
    assert (Hset : value (rangeSet s (after o2)) = Some order
                   ∧ after (rangeSet s (after o2)) = w2
                   ∧ events (rangeSet s (after o2)) = []).
    { unfold rangeSet, silently. by rewrite Hrange. }
    destruct Hset as (Hv3 & Ha3 & He3).
    rewrite (bind_Some _ _ _ _ Hv3). cbn [value events after].
    rewrite Ha3, He3, value_bind, events_bind. simpl.
    destruct (value (forEach _ 0 order w2)); simpl;
      by rewrite ?app_nil_r, ?app_assoc.
Qed.

Lemma withDryRun_same config : withDryRun (DryRun config) config = config.
Proof. by destruct config. Qed.

Lemma elem_of_addCalls evs albumID assetIDs res :
  (albumID, assetIDs, res) ∈ addCalls evs ↔ CallAddAssets albumID assetIDs res ∈ evs.
Proof.
  unfold addCalls. rewrite list_elem_of_omap. split.
  - intros (e & He & Hmatch). destruct e; try done. by injection Hmatch as -> -> ->.
  - intros He. by eexists.
Qed.

Lemma elem_of_planned assetAlbums group order albumID assetIDs :
  (albumID, assetIDs) ∈ planned assetAlbums group order
  ↔ albumID ∈ order ∧ assetIDs = assetsToAdd assetAlbums albumID (Assets group)
    ∧ 0 < len assetIDs.
Proof.
  unfold planned. rewrite list_elem_of_omap. split.
  - intros (X & HX & Hmatch). simpl in Hmatch.
    destruct (Z.ltb_spec 0 (len (assetsToAdd assetAlbums X (Assets group)))); [| done].
    by injection Hmatch as -> <-.
  - intros (HX & -> & Hpos). exists albumID. split; [done |]. simpl.
    by destruct (Z.ltb_spec 0 (len (assetsToAdd assetAlbums albumID (Assets group))));
      [| lia].
Qed.

(** The loop over the albums, in either mode, from a count of zero. *)
Lemma sync_loop config group assetAlbums order w :
  let o := forEach (syncAlbum config group assetAlbums) 0 order w in
  ∃ c, value o = Some c
    ∧ (DryRun config = true →
         c = wrapInt (countPlanned (planned assetAlbums group order))
         ∧ Forall (fun e => isLog e = true) (events o))
    ∧ (DryRun config = false →
         c = wrapInt (addedPairs (events o))
         ∧ (addCalls (events o)).*1 = planned assetAlbums group order
         ∧ Forall (write_or_log config) (events o)).
Proof.
  cbv zeta. change 0 with (wrapInt 0) at 1 2 3. destruct (DryRun config) eqn:Hmode.
  - destruct (sync_loop_dry config group assetAlbums order (wrapInt 0) 0 w Hmode eq_refl)
      as (Hv & _ & Hev).
    eexists. split; [done |]. split; [done | by intros [=]].
  - destruct (sync_loop_wet config group assetAlbums order 0 w Hmode) as (Hv & Hc & Hev).
    eexists. split; [done |]. split; [by intros [=] | done].
Qed.

Lemma sync_value config group w :
  ∃ syncCount, value (synchronizeAlbums config group w) = Some (syncCount, None).
Proof.
  destruct (sync_outcome config group w)
    as (m & s & pre & order & w2 & _ & _ & _ & _ & _ & Hrun).
  destruct (Hrun (DryRun config)) as [Hv _]. rewrite withDryRun_same in Hv.
  destruct (sync_loop config group m order w2) as (c & Hc & _).
  exists c. by rewrite Hv, Hc.
Qed.

Lemma sync_count config group w :
  DryRun config = false →
  let o := synchronizeAlbums config group w in
  value o = Some (wrapInt (addedPairs (events o)), None).
Proof.
  intros Hmode o. subst o.
  destruct (sync_outcome config group w)
    as (m & s & pre & order & w2 & _ & _ & Hpre & _ & _ & Hrun).
  destruct (Hrun (DryRun config)) as [Hv Hev]. rewrite withDryRun_same in Hv, Hev.
  destruct (sync_loop config group m order w2) as (c & Hc & _ & Hwet).
  destruct (Hwet Hmode) as (-> & _).
  rewrite Hv, Hev, Hc, addedPairs_app. unfold addedPairs at 2.
  by rewrite (addCalls_none pre Hpre).
Qed.

(** C10: whatever the server answers, to the reads and to the writes,
    [synchronizeAlbums] returns a count together with the nil error; so
    [processDuplicateGroup] never returns the error of its "album
    synchronization failed" branch. *)
Theorem synchronizeAlbums_never_fails config group w :
  (∃ syncCount, value (synchronizeAlbums config group w) = Some (syncCount, None))
  ∧ ∀ groupNum totalGroups e,
      value (processDuplicateGroup config groupNum totalGroups group w)
      ≠ Some (Some (wrapError "album synchronization failed: " e)).
Proof.
  split; [apply sync_value |].
  intros groupNum totalGroups e. unfold processDuplicateGroup.
  rewrite value_bind. simpl.
  destruct (len (Assets group) <? 2); [done |].
  rewrite value_bind.
  destruct (sync_value config group w) as (c & ->).
  rewrite value_bind.
  assert (∀ w', value ((if 0 <? c then logInfo (Synchronized c)
                        else logInfo AlreadySynchronized) w') = Some tt) as ->.
  { intros w'. by destruct (0 <? c). }
  destruct (AutoDelete config); [| done].
  rewrite value_bind.
  by destruct (value (autoDeleteDuplicates config group _)) as [[e' |] |].
Qed.

(** C2, as the code has it: a failed fetch is not fatal (the function
    still returns a count and a nil error) and puts no album into the
    union: every album written to came from a fetch that succeeded.  But
    the asset is not left out of the additions.  With no memberships
    recorded for it, it counts as missing from every album: in normal
    mode each album some other fetch reported gets a write, the asset is
    among the assets of that write, and the count returned is the number
    of (asset, album) pairs of the accepted writes. *)
Theorem failed_fetch_joins_every_addition config group w :
  fair_range →
  let o := synchronizeAlbums config group w in
  (∃ syncCount, value o = Some (syncCount, None))
  ∧ (∀ albumID assetIDs res, CallAddAssets albumID assetIDs res ∈ events o →
       ∃ id albums, CallGetAlbums id (Ok albums) ∈ events o
         ∧ albumID ∈ album_ID <$> albums)
  ∧ (DryRun config = false →
     value o = Some (wrapInt (addedPairs (events o)), None)
     ∧ ∀ asset, asset ∈ Assets group →
         (∀ albums, CallGetAlbums (da_ID asset) (Ok albums) ∉ events o) →
         ∀ id albums albumID,
           CallGetAlbums id (Ok albums) ∈ events o → albumID ∈ album_ID <$> albums →
           ∃ assetIDs res, CallAddAssets albumID assetIDs res ∈ events o
             ∧ da_ID asset ∈ assetIDs).
Proof.
  intros Hfair o. subst o. split; [apply sync_value |].
  destruct (sync_outcome config group w)
    as (m & s & pre & order & w2 & Hs & Hm & Hpre & Horder & _ & Hrun).
  specialize (Horder Hfair).
  destruct (Hrun (DryRun config)) as [_ Hev]. rewrite withDryRun_same in Hev.
  destruct (sync_loop config group m order w2) as (c & _ & Hdry & Hwet).
  set (loop := events (forEach (syncAlbum config group m) 0 order w2)) in *.
  pose proof (sync_count config group w) as Hcount. cbv zeta in Hcount.
  rewrite Hev in Hcount. rewrite Hev.
  assert (Hfetch : ∀ id res, CallGetAlbums id res ∈ pre ++ loop ↔ CallGetAlbums id res ∈ pre).
  { intros id res. rewrite elem_of_app. split; [| by left].
    intros [? | Hin]; [done |]. destruct (DryRun config).
    - destruct Hdry as [_ Hlog]; [done |]. rewrite Forall_forall in Hlog.
      by apply Hlog in Hin.
    - destruct Hwet as (_ & _ & Hlog); [done |]. rewrite Forall_forall in Hlog.
      by apply Hlog in Hin. }
  assert (Hadd : ∀ X ids r, CallAddAssets X ids r ∈ pre ++ loop ↔ CallAddAssets X ids r ∈ loop).
  { intros X ids r. rewrite elem_of_app. split; [| by right].
    intros [Hin | ?]; [| done]. rewrite Forall_forall in Hpre. by apply Hpre in Hin. }
  split.
  - intros X ids r Hin. apply Hadd in Hin. setoid_rewrite Hfetch. apply Hs.
    destruct (DryRun config).
    + destruct Hdry as [_ Hlog]; [done |]. rewrite Forall_forall in Hlog.
      by apply Hlog in Hin.
    + destruct Hwet as (_ & Hplan & _); [done |].
      apply elem_of_addCalls in Hin.
      apply (list_elem_of_fmap_2 fst) in Hin. rewrite Hplan in Hin. simpl in Hin.
      apply elem_of_planned in Hin as (HX & _). rewrite Horder in HX.
      by apply elem_of_elements in HX.
  - intros Hmode. split; [by apply Hcount |].
    intros asset Hasset Hfailed id albums X Hid HX.
    destruct Hwet as (_ & Hplan & _); [done |].
    setoid_rewrite Hadd.
    assert (Hnone : m !! da_ID asset = None).
    { apply Hm. intros albums' Hin. apply (Hfailed albums'). by apply Hfetch. }
    assert (Hin : da_ID asset ∈ assetsToAdd m X (Assets group)).
    { apply elem_of_assetsToAdd. exists asset. by rewrite Hnone. }
    assert (HXs : X ∈ order).
    { rewrite Horder. apply elem_of_elements, Hs. exists id, albums.
      split; [by apply Hfetch | done]. }
    assert (Hp : (X, assetsToAdd m X (Assets group)) ∈ planned m group order).
    { apply elem_of_planned. split_and!; [done | done |].
      unfold len. destruct (assetsToAdd m X (Assets group)); simpl; [| lia].
      by apply elem_of_nil in Hin. }
    rewrite <- Hplan in Hp. apply list_elem_of_fmap in Hp as ([[X' ids] r] & [= <- <-] & Hp).
    exists (assetsToAdd m X (Assets group)), r. split; [| done].
    by apply elem_of_addCalls.
Qed.

(** *** Counting the additions *)

Lemma fetch_uniform config (shared : gset string) assets :
  (∀ asset, asset ∈ assets → reports config shared asset) →
  ∀ assetAlbums0 (allAlbumIDs0 : gset string) w,
  ∃ assetAlbums (allAlbumIDs : gset string),
    value (forEach (fetchAlbums config) (assetAlbums0, allAlbumIDs0) assets w)
      = Some (assetAlbums, allAlbumIDs)
    ∧ (∀ albumID, albumID ∈ allAlbumIDs → albumID ∈ allAlbumIDs0 ∨ albumID ∈ shared)
    ∧ (∀ id albums, assetAlbums !! id = Some albums →
         assetAlbums0 !! id = Some albums
         ∨ ∀ albumID, albumID ∈ album_ID <$> albums ↔ albumID ∈ shared)
    ∧ (∀ id, id ∈ da_ID <$> assets → is_Some (assetAlbums !! id))
    ∧ (∀ id, is_Some (assetAlbums0 !! id) → is_Some (assetAlbums !! id)).
Proof.
  induction assets as [|a assets IH]; intros Hrep m0 s0 w; cbn [forEach].
  - exists m0, s0. split_and!; [done | by left | by left | | done].
    intros id Hin. by apply elem_of_nil in Hin.
  - rewrite value_bind.
    destruct (fetchAlbums_step config m0 s0 a w) as (-> & _).
    destruct (Hrep a (list_elem_of_here _ _) w) as (albums & -> & Hshared).
    destruct (IH (fun x Hx => Hrep x (list_elem_of_further _ _ _ Hx))
                (<[da_ID a := albums]> m0) (markAlbums s0 albums)
                (after (fetchAlbums config (m0, s0) a w)))
      as (m & s & -> & Hs & Hm & Hall & Hkeep).
    exists m, s. split_and!; [done | | | |].
    + intros X HX. apply Hs in HX as [HX | HX]; [| by right].
      apply elem_of_markAlbums in HX as [HX | HX]; [by left | right; by apply Hshared].
    + intros id albums' Hid.
      apply Hm in Hid as [Hid | Hid]; [| by right].
      destruct (decide (da_ID a = id)) as [<- | Hne].
      * rewrite lookup_insert_eq in Hid. injection Hid as <-. by right.
      * rewrite lookup_insert_ne in Hid by done. by left.
    + intros id Hid. rewrite fmap_cons in Hid.
      apply elem_of_cons in Hid as [-> | Hid]; [| by apply Hall].
      apply Hkeep. rewrite lookup_insert_eq. by eexists.
    + intros id Hid. apply Hkeep.
      destruct (decide (da_ID a = id)) as [<- | Hne].
      * rewrite lookup_insert_eq. by eexists.
      * by rewrite lookup_insert_ne.
Qed.

Lemma assetsToAdd_nil assetAlbums albumID assets :
  (∀ asset, asset ∈ assets →
     inAlbum (default [] (assetAlbums !! da_ID asset)) albumID = true) →
  assetsToAdd assetAlbums albumID assets = [].
Proof.
  intros Hall. destruct (assetsToAdd assetAlbums albumID assets) as [|id l] eqn:Hl;
    [done |].
  assert (Hin : id ∈ assetsToAdd assetAlbums albumID assets) by (rewrite Hl; left).
  apply elem_of_assetsToAdd in Hin as (asset & Hasset & _ & Hno).
  rewrite (Hall asset Hasset) in Hno. done.
Qed.

Lemma planned_nil assetAlbums group order :
  (∀ albumID, albumID ∈ order → assetsToAdd assetAlbums albumID (Assets group) = []) →
  planned assetAlbums group order = [].
Proof.
  intros Hall. destruct (planned assetAlbums group order) as [|[X ids] l] eqn:Hl;
    [done |].
  assert (Hin : (X, ids) ∈ planned assetAlbums group order) by (rewrite Hl; left).
  apply elem_of_planned in Hin as (HX & -> & Hpos).
  rewrite (Hall X HX) in Hpos. done.
Qed.

Lemma planned_single assetAlbums group order albumID :
  NoDup order → albumID ∈ order →
  0 < len (assetsToAdd assetAlbums albumID (Assets group)) →
  (∀ other, other ∈ order → other ≠ albumID →
     assetsToAdd assetAlbums other (Assets group) = []) →
  planned assetAlbums group order
  = [(albumID, assetsToAdd assetAlbums albumID (Assets group))].
Proof.
  intros Hnodup Hin Hpos Hothers. unfold planned.
  induction order as [|Y order IH]; [by apply elem_of_nil in Hin |].
  apply NoDup_cons in Hnodup as [HY Hnodup]. cbn [omap list_omap].
  destruct (decide (Y = albumID)) as [-> | Hne].
  - destruct (Z.ltb_spec 0 (len (assetsToAdd assetAlbums albumID (Assets group))));
      [| lia].
    f_equal. apply (planned_nil assetAlbums group order).
    intros other Hother. apply Hothers; [by right | by intros ->].
  - rewrite (Hothers Y) by (done || left). simpl.
    apply IH; [done | | ].
    + apply elem_of_cons in Hin as [-> | Hin]; done.
    + intros other Hother. apply Hothers. by right.
Qed.

Lemma wrapInt_0 : wrapInt 0 = 0.
Proof. done. Qed.

(** The first part of C8: all assets already in the same albums. *)
Lemma sync_shared config group (shared : gset string) w :
  fair_range →
  (∀ asset, asset ∈ Assets group → reports config shared asset) →
  let o := synchronizeAlbums config group w in
  value o = Some (0, None) ∧ addCalls (events o) = [].
Proof.
  intros Hfair Hrep o. subst o.
  destruct (sync_outcome config group w)
    as (m & s & pre & order & w2 & _ & _ & Hpre & Horder & Hfetch & Hrun).
  destruct (fetch_uniform config shared (Assets group) Hrep ∅ ∅ w)
    as (m' & s' & Hfetch' & Hs & Hm & Hall & _).
  rewrite Hfetch in Hfetch'. injection Hfetch' as <- <-.
  destruct (Hrun (DryRun config)) as [Hv Hev]. rewrite withDryRun_same in Hv, Hev.
  destruct (sync_loop config group m order w2) as (c & Hc & Hdry & Hwet).
  rewrite Hv, Hev, Hc, addCalls_app, (addCalls_none pre Hpre). simpl.
  assert (Hplan : planned m group order = []).
  { apply planned_nil. intros X HX. apply assetsToAdd_nil. intros asset Hasset.
    rewrite (Horder Hfair) in HX. apply elem_of_elements, Hs in HX as [HX | HX];
      [by apply not_elem_of_empty in HX |].
    destruct (Hall (da_ID asset)) as [albums Halbums];
      [by apply list_elem_of_fmap_2 |].
    rewrite Halbums. simpl. apply inAlbum_spec.
    apply Hm in Halbums as [Hempty | Hshared]; [by rewrite lookup_empty in Hempty |].
    by apply Hshared. }
  destruct (DryRun config).
  - destruct Hdry as [-> Hlog]; [done |]. rewrite Hplan. split; [done |].
    apply addCalls_none. eapply Forall_impl; [done |]. by intros [].
  - destruct Hwet as (-> & Hcalls & _); [done |]. rewrite Hplan in Hcalls.
    apply fmap_nil_inv in Hcalls. unfold addedPairs. by rewrite Hcalls.
Qed.

(** The second part of C8: a group of two, [a] in album [X], [b] not, no
    other difference between their albums. *)
Lemma sync_one_missing config group a b albumsA albumsB X w :
  fair_range →
  Assets group = [a; b] → da_ID a ≠ da_ID b →
  answers config a albumsA → answers config b albumsB →
  X ∈ album_ID <$> albumsA → X ∉ album_ID <$> albumsB →
  (∀ Y, Y ≠ X → Y ∈ album_ID <$> albumsA ↔ Y ∈ album_ID <$> albumsB) →
  let o := synchronizeAlbums config group w in
  (DryRun config = true → value o = Some (1, None) ∧ addCalls (events o) = [])
  ∧ (DryRun config = false → accepts config X [da_ID b] →
       value o = Some (1, None) ∧ addCalls (events o) = [(X, [da_ID b], None)]).
Proof.
  intros Hfair Hgroup Hab HA HB HXA HXB Hsame o. subst o.
  destruct (sync_outcome config group w)
    as (m & s & pre & order & w2 & _ & _ & Hpre & Horder & Hfetch & Hrun).
  specialize (Horder Hfair).
  (* what the first loop finds *)
  rewrite Hgroup in Hfetch. cbn [forEach] in Hfetch.
  rewrite value_bind in Hfetch.
  destruct (fetchAlbums_step config ∅ ∅ a w) as (Ha & _).
  rewrite Ha, HA in Hfetch. clear Ha. rewrite value_bind in Hfetch.
  destruct (fetchAlbums_step config (<[da_ID a := albumsA]> ∅) (markAlbums ∅ albumsA) b
              (after (fetchAlbums config (∅, ∅) a w))) as (Hb & _).
  rewrite Hb, HB in Hfetch. clear Hb. simpl in Hfetch. injection Hfetch as <- <-.
  set (m := <[da_ID b := albumsB]> (<[da_ID a := albumsA]> ∅)) in *.
  assert (Hma : m !! da_ID a = Some albumsA).
  { subst m. by rewrite lookup_insert_ne, lookup_insert_eq. }
  assert (Hmb : m !! da_ID b = Some albumsB).
  { subst m. by rewrite lookup_insert_eq. }
  assert (HtoAdd : ∀ Y, assetsToAdd m Y (Assets group)
            = (if inAlbum albumsA Y then [] else [da_ID a])
              ++ (if inAlbum albumsB Y then [] else [da_ID b])).
  { intros Y. rewrite Hgroup. simpl. rewrite Hma, Hmb. simpl.
    by destruct (inAlbum albumsA Y), (inAlbum albumsB Y). }
  assert (HX : assetsToAdd m X (Assets group) = [da_ID b]).
  { rewrite HtoAdd. apply inAlbum_spec in HXA as ->.
    destruct (inAlbum albumsB X) eqn:Hin; [| done]. by apply inAlbum_spec in Hin. }
  assert (Hplan : planned m group order = [(X, [da_ID b])]).
  { rewrite <- HX. apply planned_single.
    - rewrite Horder. apply NoDup_elements.
    - rewrite Horder. apply elem_of_elements, elem_of_markAlbums. left.
      apply elem_of_markAlbums. by right.
    - by rewrite HX.
    - intros Y HY Hne. rewrite Horder in HY.
      apply elem_of_elements, elem_of_markAlbums in HY as [HY | HY].
      + apply elem_of_markAlbums in HY as [HY | HY];
          [by apply not_elem_of_empty in HY |].
        rewrite HtoAdd. pose proof HY as HYB. apply (Hsame Y Hne) in HYB.
        apply inAlbum_spec in HY as ->. by apply inAlbum_spec in HYB as ->.
      + rewrite HtoAdd. pose proof HY as HYA. apply (Hsame Y Hne) in HYA.
        apply inAlbum_spec in HY as ->. by apply inAlbum_spec in HYA as ->. }
  destruct (Hrun (DryRun config)) as [Hv Hev]. rewrite withDryRun_same in Hv, Hev.
  destruct (sync_loop config group m order w2) as (c & Hc & Hdry & Hwet).
  rewrite Hv, Hev, Hc, addCalls_app, (addCalls_none pre Hpre). simpl.
  split.
  - intros Hmode. destruct (Hdry Hmode) as [-> Hlog]. rewrite Hplan.
    split; [done |]. apply addCalls_none. eapply Forall_impl; [done |]. by intros [].
  - intros Hmode Hacc. destruct (Hwet Hmode) as (-> & Hcalls & Hlog).
    rewrite Hplan in Hcalls.
    destruct (addCalls (events (forEach (syncAlbum config group m) 0 order w2)))
      as [|[[X' ids] r] [|? ?]] eqn:Hlist; try done.
    injection Hcalls as -> ->.
    assert (Hin : CallAddAssets X [da_ID b] r
                  ∈ events (forEach (syncAlbum config group m) 0 order w2)).
    { apply elem_of_addCalls. rewrite Hlist. left. }
    rewrite Forall_forall in Hlog. apply Hlog in Hin as [w' ->].
    rewrite Hacc. unfold addedPairs. rewrite Hlist. simpl. by rewrite Hacc.
Qed.

(** *** Preview mode *)

Lemma accepted_all config evs :
  (∀ albumID assetIDs, accepts config albumID assetIDs) →
  Forall (write_or_log config) evs → addedPairs evs = attemptedPairs evs.
Proof.
  intros Hacc Hev. unfold addedPairs, attemptedPairs. f_equal.
  induction Hev as [|e evs He _ IH]; [done |].
  destruct e; try done. simpl in *. destruct He as [w' ->].
  rewrite filter_cons_True; [by f_equal |].
  unfold accepted. simpl. by rewrite Hacc.
Qed.

(** The album half of C9. *)
Lemma preview_counts_additions config group w :
  let dry := synchronizeAlbums (withDryRun true config) group w in
  let wet := synchronizeAlbums (withDryRun false config) group w in
  addCalls (events dry) = []
  ∧ value dry = Some (wrapInt (attemptedPairs (events wet)), None)
  ∧ ((∀ albumID assetIDs, accepts config albumID assetIDs) → value dry = value wet).
Proof.
  intros dry wet. subst dry wet.
  destruct (sync_outcome config group w)
    as (m & s & pre & order & w2 & _ & _ & Hpre & _ & _ & Hrun).
  destruct (Hrun true) as [Hvd Hed]. destruct (Hrun false) as [Hvw Hew].
  destruct (sync_loop (withDryRun true config) group m order w2)
    as (cd & Hcd & Hdry & _).
  destruct (sync_loop (withDryRun false config) group m order w2)
    as (cw & Hcw & _ & Hwet).
  destruct (Hdry eq_refl) as [-> Hlog]. destruct (Hwet eq_refl) as (-> & Hcalls & Hwl).
  rewrite Hvd, Hed, Hvw, Hew, Hcd, Hcw.
  rewrite addCalls_app, attemptedPairs_app. unfold attemptedPairs at 1.
  rewrite (addCalls_none pre Hpre). simpl.
  rewrite (attemptedPairs_planned (events (forEach _ 0 order w2))), Hcalls.
  split_and!; [| done |].
  - apply addCalls_none. eapply Forall_impl; [done |]. by intros [].
  - intros Hacc. rewrite (accepted_all config _ Hacc Hwl).
    by rewrite attemptedPairs_planned, Hcalls.
Qed.

Lemma quiet_projections evs :
  Forall quiet evs →
  deleteCalls evs = [] ∧ wouldDeletes evs = [] ∧ promptedCounts evs = [].
Proof.
  induction 1 as [|e evs (Hd & Hw & Hp) _ (IHd & IHw & IHp)]; [done |].
  unfold deleteCalls, wouldDeletes, promptedCounts in *. cbn [omap list_omap].
  rewrite IHd, IHw, IHp. destruct e as [| | | | |[] []]; done.
Qed.

Lemma deleteCalls_app evs1 evs2 :
  deleteCalls (evs1 ++ evs2) = deleteCalls evs1 ++ deleteCalls evs2.
Proof. apply omap_app. Qed.

Lemma wouldDeletes_app evs1 evs2 :
  wouldDeletes (evs1 ++ evs2) = wouldDeletes evs1 ++ wouldDeletes evs2.
Proof. apply omap_app. Qed.

Lemma promptedCounts_app evs1 evs2 :
  promptedCounts (evs1 ++ evs2) = promptedCounts evs1 ++ promptedCounts evs2.
Proof. apply omap_app. Qed.

Lemma fetchDetails_loop config assets assetDetails0 w :
  let o := forEach (fetchDetails config) assetDetails0 assets w in
  is_Some (value o) ∧ Forall quiet (events o).
Proof.
  apply forEach_total. intros m a w'.
  unfold fetchDetails, getAssetDetails, exchange, bind.
  destruct (detailsRequest _ _ _ w') as [[details | err] w'']; simpl;
    (split; [by eexists | by repeat constructor]).
Qed.

Lemma deleteOne_dry config id w :
  DryRun config = true →
  deleteOne config tt id w
  = {| value := Some tt; after := w;
       events := [Logged Info (WouldDelete (truncateID id))] |}.
Proof. intros Hmode. unfold deleteOne. by rewrite Hmode. Qed.

Lemma deleteOne_wet config id w :
  DryRun config = false →
  ∃ res w' lvl line,
    deleteOne config tt id w
    = {| value := Some tt; after := w';
         events := [CallDelete id res; Logged lvl line] |}
    ∧ isWouldDelete (Logged lvl line) = false.
Proof.
  intros Hmode. unfold deleteOne. rewrite Hmode. unfold deleteAsset, exchange, bind.
  destruct (deleteRequest _ _ _ w) as [[e |] w']; simpl; by eexists _, _, _, _.
Qed.

Lemma deleteLoop_dry config l w :
  DryRun config = true →
  let o := forEach (deleteOne config) tt l w in
  value o = Some tt ∧ deleteCalls (events o) = []
  ∧ promptedCounts (events o) = []
  ∧ wouldDeletes (events o) = truncateID <$> l.
Proof.
  intros Hmode. revert w. induction l as [|id l IH]; intros w; [done |].
  cbn [forEach]. rewrite value_bind, events_bind, (deleteOne_dry config id w Hmode).
  cbn [value events after]. destruct (IH w) as (-> & Hd & Hp & Hw).
  unfold deleteCalls, wouldDeletes, promptedCounts in *. cbn [omap list_omap app].
  by rewrite Hd, Hp, Hw.
Qed.

Lemma deleteLoop_wet config l w :
  DryRun config = false →
  let o := forEach (deleteOne config) tt l w in
  value o = Some tt ∧ deleteCalls (events o) = l
  ∧ promptedCounts (events o) = []
  ∧ wouldDeletes (events o) = [].
Proof.
  intros Hmode. revert w. induction l as [|id l IH]; intros w; [done |].
  cbn [forEach]. rewrite value_bind, events_bind.
  destruct (deleteOne_wet config id w Hmode) as (res & w' & lvl & line & -> & Hline).
  cbn [value events after]. destruct (IH w') as (-> & Hd & Hp & Hw).
  unfold deleteCalls, wouldDeletes, promptedCounts in *. cbn [omap list_omap app].
  rewrite Hd, Hp, Hw. split_and!; [done | done | done |].
  by destruct lvl, line.
Qed.

Lemma confirmDeletion_dry config l w :
  DryRun config = true →
  confirmDeletion config l w = ret true w.
Proof. intros Hmode. unfold confirmDeletion. by rewrite Hmode, andb_false_r. Qed.

Lemma confirmDeletion_wet config l w :
  DryRun config = false →
  let o := confirmDeletion config l w in
  deleteCalls (events o) = [] ∧ wouldDeletes (events o) = []
  ∧ (∀ n, n ∈ promptedCounts (events o) → n = len l)
  ∧ (confirms config → value o = Some true).
Proof.
  intros Hmode. unfold confirmDeletion. rewrite Hmode, andb_true_r.
  destruct (Yes config) eqn:Hyes; simpl.
  { split_and!; [done | done | | done]. intros n Hn. by apply elem_of_nil in Hn. }
  unfold exchange, bind.
  destruct (Scanln w) as [answer w'] eqn:Hscan. simpl.
  assert (Hone : ∀ n : Z, n ∈ [len l] → n = len l).
  { intros n Hn. by apply list_elem_of_singleton in Hn. }
  assert (Hanswer : confirms config →
            ∃ response, answer = Ok response
              ∧ negb (EqualFold response "y") && negb (EqualFold response "yes") = false).
  { intros [? | Hyes']; [congruence |].
    destruct (Hyes' w) as (response & Hr & Haff). rewrite Hscan in Hr. simpl in Hr.
    exists response. split; [done |]. by rewrite <- negb_orb, Haff. }
  destruct answer as [response | err]; simpl.
  - destruct (negb (EqualFold response "y") && negb (EqualFold response "yes")) eqn:Hc;
      simpl; (split_and!; [done | done | done |]); [| done].
    intros Hconf. destruct (Hanswer Hconf) as (r & [= <-] & Hr). congruence.
  - split_and!; [done | done | done |].
    intros Hconf. by destruct (Hanswer Hconf) as (r & ? & _).
Qed.

Lemma mirrors_const config (m : M World (option error)) w :
  Forall quiet (events (m w)) → mirrors config (fun _ => m) w.
Proof.
  intros Hq. destruct (quiet_projections _ Hq) as (Hd & Hw & Hp).
  exists []. intros b. cbv zeta. rewrite Hd, Hw, Hp. split; [done |].
  intros _. split_and!; [done | | done]. intros n Hn. by apply elem_of_nil in Hn.
Qed.

Lemma mirrors_bind {A} config (m : M World A)
    (k : bool → A → M World (option error)) w :
  Forall quiet (events (m w)) →
  (∀ a, value (m w) = Some a → mirrors config (fun b => k b a) (after (m w))) →
  mirrors config (fun b => bind m (k b)) w.
Proof.
  intros Hq Hk. destruct (quiet_projections _ Hq) as (Hd & Hw & Hp).
  destruct (value (m w)) as [a |] eqn:Hv.
  - destruct (Hk a eq_refl) as [l Hl]. exists l. intros b. cbv zeta.
    rewrite events_bind, Hv, deleteCalls_app, wouldDeletes_app, promptedCounts_app,
      Hd, Hw, Hp.
    apply Hl.
  - exists []. intros b. cbv zeta. rewrite events_bind, Hv, app_nil_r, Hd, Hw, Hp.
    split; [done |]. intros _. split_and!; [done | | done].
    intros n Hn. by apply elem_of_nil in Hn.
Qed.

Lemma mirrors_delete config l w :
  mirrors config
    (fun b => bind (confirmDeletion (withDryRun b config) l)
                (fun proceed : bool =>
                   if proceed then
                     bind (forEach (deleteOne (withDryRun b config)) tt l)
                          (fun _ => ret None)
                   else ret None)) w.
Proof.
  exists l. intros b. cbv zeta. rewrite events_bind. split; intros ->.
  - rewrite (confirmDeletion_dry (withDryRun true config) l w eq_refl). simpl.
    rewrite events_bind.
    destruct (deleteLoop_dry (withDryRun true config) l w eq_refl) as (-> & Hd & Hp & Hw).
    simpl. rewrite app_nil_r. by split_and!.
  - destruct (confirmDeletion_wet (withDryRun false config) l w eq_refl)
      as (Hd & Hw & Hp & Hyes).
    set (oc := confirmDeletion (withDryRun false config) l w) in *.
    assert (Hloop : ∀ w', deleteCalls (events (bind
                (forEach (deleteOne (withDryRun false config)) tt l)
                (fun _ => ret (@None error)) w')) = l
              ∧ promptedCounts (events (bind
                (forEach (deleteOne (withDryRun false config)) tt l)
                (fun _ => ret (@None error)) w')) = []
              ∧ wouldDeletes (events (bind
                (forEach (deleteOne (withDryRun false config)) tt l)
                (fun _ => ret (@None error)) w')) = []).
    { intros w'. rewrite events_bind.
      destruct (deleteLoop_wet (withDryRun false config) l w' eq_refl)
        as (-> & Hdl & Hpl & Hwl).
      simpl. by rewrite app_nil_r. }
    split_and!.
    + rewrite wouldDeletes_app, Hw. simpl.
      destruct (value oc) as [[] |]; [apply Hloop | done | done].
    + intros n. rewrite promptedCounts_app, elem_of_app. intros [Hn | Hn]; [by apply Hp |].
      destruct (value oc) as [[] |]; simpl in Hn.
      * destruct (Hloop (after oc)) as (_ & Hnone & _). rewrite Hnone in Hn.
        by apply elem_of_nil in Hn.
      * by apply elem_of_nil in Hn.
      * by apply elem_of_nil in Hn.
    + intros Hconf. rewrite deleteCalls_app, Hd, (Hyes Hconf). apply Hloop.
Qed.

Lemma rangeMap_quiet {V} (m : gmap string V) w : Forall quiet (events (rangeMap m w)).
Proof. destruct (rangeMap_outcome m w) as (entries & w' & -> & _). constructor. Qed.

(** The deletion pass in both modes. *)
Lemma deletion_outcome config group w :
  mirrors config (fun b => autoDeleteDuplicates (withDryRun b config) group) w.
Proof.
  unfold autoDeleteDuplicates, fetchDetails, getAssetDetails.
  cbn [ImmichURL APIKey Verbose withDryRun].
  apply mirrors_bind; [by repeat constructor | intros [] _].
  apply mirrors_bind; [apply (fetchDetails_loop config) | intros details _].
  destruct (size details <? 2)%nat; [apply mirrors_const; by repeat constructor |].
  apply mirrors_bind; [apply rangeMap_quiet | intros entries _].
  destruct (selectBestQualityAsset details entries) as [best |];
    [| apply mirrors_const; constructor].
  destruct (best =? "")%string; [apply mirrors_const; constructor |].
  apply mirrors_bind; [by repeat constructor | intros [] _].
  apply mirrors_bind.
  { destruct (Verbose config); [| constructor].
    destruct (details !! best) as [d |]; [| constructor].
    destruct (Exif d); by repeat constructor. }
  intros [] _.
  apply mirrors_bind; [apply rangeMap_quiet | intros keys _].
  destruct (len (othersThan best keys.*1) =? 0);
    [apply mirrors_const; by repeat constructor |].
  apply mirrors_delete.
Qed.

(** C9: in preview mode nothing is written and the counts are those of
    normal mode.  Album synchronization issues no "add assets" call, and
    returns the number of (asset, album) pairs that normal mode sends to
    the server from the same state of the world, which is the count normal
    mode returns when the server accepts its writes.  The deletion pass
    issues no "delete asset" call and asks for no confirmation; the number
    of its "would delete" lines is the number of deletions normal mode asks
    the operator to confirm, and normal mode issues one delete call for each
    of these lines once the deletion is confirmed. *)
Theorem preview_writes_nothing_and_counts_the_same config group w :
  let dry := withDryRun true config in
  let wet := withDryRun false config in
  (addCalls (events (synchronizeAlbums dry group w)) = []
   ∧ value (synchronizeAlbums dry group w)
     = Some (wrapInt (attemptedPairs (events (synchronizeAlbums wet group w))), None)
   ∧ ((∀ albumID assetIDs, accepts config albumID assetIDs) →
        value (synchronizeAlbums dry group w) = value (synchronizeAlbums wet group w)))
  ∧ (deleteCalls (events (autoDeleteDuplicates dry group w)) = []
     ∧ promptedCounts (events (autoDeleteDuplicates dry group w)) = []
     ∧ (∀ n, n ∈ promptedCounts (events (autoDeleteDuplicates wet group w)) →
          n = len (wouldDeletes (events (autoDeleteDuplicates dry group w))))
     ∧ (confirms config →
          wouldDeletes (events (autoDeleteDuplicates dry group w))
            = truncateID <$> deleteCalls (events (autoDeleteDuplicates wet group w))
          ∧ length (wouldDeletes (events (autoDeleteDuplicates dry group w)))
            = length (deleteCalls (events (autoDeleteDuplicates wet group w))))).
Proof.
  intros dry wet. split; [apply preview_counts_additions |].
  destruct (deletion_outcome config group w) as [l Hl].
  destruct (Hl true) as [Hdry _]. destruct (Hl false) as [_ Hwet].
  destruct (Hdry eq_refl) as (Hd & Hp & Hw).
  destruct (Hwet eq_refl) as (_ & Hprompt & Hcalls).
  subst dry wet. rewrite Hw. split_and!; [done | done | |].
  - intros n Hn. rewrite (Hprompt n Hn). unfold len. by rewrite length_fmap.
  - intros Hconf. rewrite (Hcalls Hconf). split; [done | by rewrite length_fmap].
Qed.

End Reconciler.

(** ** The configuration check *)

Lemma length_app_string (a b : string) :
  String.length (a +:+ b) = (String.length a + String.length b)%nat.
Proof. induction a as [|c a IH]; simpl; [done | by rewrite IH]. Qed.

Lemma substring_app_l (a b : string) :
  String.substring 0 (String.length a) (a +:+ b) = a.
Proof. induction a as [|c a IH]; simpl; [apply substring_0_0 | by rewrite IH]. Qed.

Lemma substring_all (s : string) : String.substring 0 (String.length s) s = s.
Proof. induction s as [|c s IH]; simpl; [done | by rewrite IH]. Qed.

Lemma substring_app_r (a b : string) :
  String.substring (String.length a) (String.length b) (a +:+ b) = b.
Proof. induction a as [|c a IH]; simpl; [apply substring_all | done]. Qed.

Lemma substring_split (n : nat) (s : string) :
  (n ≤ String.length s)%nat →
  s = String.substring 0 n s +:+ String.substring n (String.length s - n) s.
Proof.
  revert s. induction n as [|n IH]; intros s Hn.
  - by rewrite substring_0_0, Nat.sub_0_r, substring_all.
  - destruct s as [|c s]; simpl in *; [lia |].
    change (String c s = String c (String.substring 0 n s
                                   +:+ String.substring n (String.length s - n) s)).
    f_equal. apply IH. lia.
Qed.

Lemma HasSuffix_spec (s suffix : string) :
  HasSuffix s suffix = true ↔ ∃ rest, s = rest +:+ suffix.
Proof.
  unfold HasSuffix. rewrite andb_true_iff, Nat.leb_le, String.eqb_eq. split.
  - intros [Hlen Heq].
    exists (String.substring 0 (String.length s - String.length suffix) s).
    etransitivity; [apply (substring_split (String.length s - String.length suffix)); lia |].
    f_equal.
    replace (String.length s - (String.length s - String.length suffix))%nat
      with (String.length suffix) by lia.
    done.
  - intros [rest ->]. rewrite length_app_string. split; [lia |].
    replace (String.length rest + String.length suffix - String.length suffix)%nat
      with (String.length rest) by lia.
    apply substring_app_r.
Qed.

Lemma TrimSuffix_app (rest suffix : string) :
  TrimSuffix (rest +:+ suffix) suffix = rest.
Proof.
  unfold TrimSuffix.
  assert (HasSuffix (rest +:+ suffix) suffix = true) as ->.
  { apply HasSuffix_spec. by exists rest. }
  rewrite length_app_string.
  replace (String.length rest + String.length suffix - String.length suffix)%nat
    with (String.length rest) by lia.
  apply substring_app_l.
Qed.

Lemma app_string_inj_r (a b suffix : string) :
  a +:+ suffix = b +:+ suffix → a = b.
Proof.
  intros Heq.
  rewrite <- (substring_app_l a suffix), <- (substring_app_l b suffix).
  assert (String.length a = String.length b) as ->; [| by rewrite Heq].
  apply (f_equal String.length) in Heq. rewrite !length_app_string in Heq. lia.
Qed.

(** X1: [validateConfig] accepts a configuration exactly when neither the
    URL nor the API key is empty.  An empty URL is reported as "--url is
    required", also when the key is empty too; a missing key alone as
    "--api-key is required".  A rejected configuration is left as it
    was. *)
Theorem validateConfig_rejects_iff (config : Config) :
  ((validateConfig config).1 = None
   ↔ ImmichURL config ≠ "" ∧ APIKey config ≠ "")
  ∧ (ImmichURL config = "" →
       validateConfig config = (Some (errorString "--url is required"), config))
  ∧ (ImmichURL config ≠ "" → APIKey config = "" →
       validateConfig config = (Some (errorString "--api-key is required"), config)).
Proof.
  unfold validateConfig.
  destruct (String.eqb_spec (ImmichURL config) "") as [Hu | Hu];
    destruct (String.eqb_spec (APIKey config) "") as [Hk | Hk]; simpl;
    split_and!; try done; try (split; [done | by intros []]); by split.
Qed.

(** X2: an accepted configuration keeps every field but the URL, from
    which one trailing slash is taken: a URL that does not end in "/" is
    stored unchanged, and [rest/] is stored as [rest], so that a URL ending
    in two slashes still ends in one.  The stored URL is empty exactly when
    the URL given was "/": the check for an empty URL comes before the
    trimming. *)
Theorem validateConfig_trims_one_slash (config : Config) :
  ImmichURL config ≠ "" → APIKey config ≠ "" →
  let stored := ImmichURL (validateConfig config).2 in
  (validateConfig config).1 = None
  ∧ ((∀ rest, ImmichURL config ≠ rest +:+ "/") → stored = ImmichURL config)
  ∧ (∀ rest, ImmichURL config = rest +:+ "/" → stored = rest)
  ∧ (stored = "" ↔ ImmichURL config = "/")
  ∧ (APIKey (validateConfig config).2 = APIKey config
     ∧ AutoDelete (validateConfig config).2 = AutoDelete config
     ∧ DryRun (validateConfig config).2 = DryRun config
     ∧ Yes (validateConfig config).2 = Yes config
     ∧ Verbose (validateConfig config).2 = Verbose config).
Proof.
  intros Hu Hk. unfold validateConfig.
  destruct (String.eqb_spec (ImmichURL config) "") as [? | _]; [done |].
  destruct (String.eqb_spec (APIKey config) "") as [? | _]; [done |].
  cbn [fst snd ImmichURL APIKey AutoDelete DryRun Yes Verbose].
  split_and!; try done.
  - intros Hno. unfold TrimSuffix.
    destruct (HasSuffix (ImmichURL config) "/") eqn:Hs; [| done].
    apply HasSuffix_spec in Hs as [rest Hs]. by destruct (Hno rest).
  - intros rest ->. apply TrimSuffix_app.
  - split.
    + intros He. unfold TrimSuffix in He.
      destruct (HasSuffix (ImmichURL config) "/") eqn:Hs; [| done].
      apply HasSuffix_spec in Hs as [rest Hs]. rewrite Hs in He |- *.
      revert He. rewrite length_app_string.
      replace (String.length rest + String.length "/" - String.length "/")%nat
        with (String.length rest) by lia.
      rewrite substring_app_l. by intros ->.
    + intros ->. reflexivity.
Qed.

(** ** Identifiers as the log shows them *)

Lemma length_substring_0 (n : nat) (s : string) :
  (n ≤ String.length s)%nat → String.length (String.substring 0 n s) = n.
Proof.
  revert s. induction n as [|n IH]; intros s Hn; [by rewrite substring_0_0 |].
  destruct s as [|c s]; simpl in *; [lia |]. rewrite IH; [done | lia].
Qed.

(** X3: [truncateID] returns a prefix of the identifier, of its first
    eight bytes when it has more than eight and all of it otherwise;
    truncating twice changes nothing, and an identifier is shown in full
    exactly when it has at most eight bytes. *)
Theorem truncateID_is_prefix (id : string) :
  (∃ rest, id = truncateID id +:+ rest)
  ∧ String.length (truncateID id) = (String.length id `min` 8)%nat
  ∧ truncateID (truncateID id) = truncateID id
  ∧ (truncateID id = id ↔ (String.length id ≤ 8)%nat).
Proof.
  destruct (Nat.ltb_spec 8 (String.length id)) as [Hlong | Hshort].
  - assert (Ht : truncateID id = String.substring 0 8 id).
    { unfold truncateID. by destruct (Nat.ltb_spec 8 (String.length id)); [| lia]. }
    rewrite !Ht. split_and!.
    + eexists. apply (substring_split 8). lia.
    + rewrite length_substring_0; lia.
    + unfold truncateID. by rewrite length_substring_0, Nat.ltb_irrefl by lia.
    + split; [| lia]. intros Heq. apply (f_equal String.length) in Heq.
      rewrite length_substring_0 in Heq; lia.
  - assert (Ht : truncateID id = id).
    { unfold truncateID. by destruct (Nat.ltb_spec 8 (String.length id)); [lia |]. }
    rewrite !Ht. split_and!; [| lia | done | done].
    exists "". clear. induction id as [|c id IH]; [done |].
    change (String c id = String c (id +:+ "")). by rewrite <- IH.
Qed.

(** ** The deletion pass *)

Section Deletion.
Context {U : UnicodeTables} {World : Type} {E : Environment World}.
Implicit Types (config : Config) (group : DuplicateGroup) (w : World)
  (evs : list Event).

Lemma events_Forall_bind {A B} (P : Event → Prop) (m : M World A) (k : A → M World B) w :
  Forall P (events (m w)) →
  (∀ a, value (m w) = Some a → Forall P (events (k a (after (m w))))) →
  Forall P (events (bind m k w)).
Proof.
  intros Hm Hk. rewrite events_bind. apply Forall_app. split; [done |].
  destruct (value (m w)) as [a |]; [by apply Hk | constructor].
Qed.

Lemma events_Forall_forEach {A S} (P : Event → Prop) (body : S → A → M World S) l s w :
  (∀ s x w, Forall P (events (body s x w))) →
  Forall P (events (forEach body s l w)).
Proof.
  intros Hbody. revert s w. induction l as [|x l IH]; intros s w; cbn [forEach].
  - constructor.
  - apply events_Forall_bind; [apply Hbody | intros; apply IH].
Qed.

Lemma fetched_app evs1 evs2 :
  Forall (fun e => isGetDetails e = false) evs2 → fetched (evs1 ++ evs2) = fetched evs1.
Proof.
  intros Hno. unfold fetched. rewrite foldl_app. generalize (foldl recordDetails ∅ evs1).
  induction Hno as [|e evs2 He _ IH]; intros m; [done |].
  simpl. by destruct e.
Qed.

Lemma fetched_snoc evs assetID r :
  fetched (evs ++ [CallGetDetails assetID r])
  = match r with Ok details => <[assetID := details]> (fetched evs) | Err _ => fetched evs end.
Proof. unfold fetched. rewrite foldl_app. simpl. by destruct r. Qed.

Lemma fetched_lookup evs assetID details :
  fetched evs !! assetID = Some details → CallGetDetails assetID (Ok details) ∈ evs.
Proof.
  induction evs as [|e evs IH] using rev_ind; [done |].
  intros Hl. apply elem_of_app.
  destruct e as [| id [d | err] | | | |]; try (left; apply IH; revert Hl;
    by rewrite fetched_app by (by repeat constructor)).
  - rewrite fetched_snoc in Hl.
    destruct (decide (id = assetID)) as [-> | Hne].
    + rewrite lookup_insert_eq in Hl. injection Hl as ->. right. left.
    + rewrite lookup_insert_ne in Hl by done. left. by apply IH.
  - rewrite fetched_snoc in Hl. left. by apply IH.
Qed.

Lemma detailFetches_app evs1 evs2 :
  detailFetches (evs1 ++ evs2) = detailFetches evs1 ++ detailFetches evs2.
Proof. apply omap_app. Qed.

Lemma detailFetches_none evs :
  Forall (fun e => isGetDetails e = false) evs → detailFetches evs = [].
Proof.
  induction 1 as [|e evs He _ IH]; [done |].
  unfold detailFetches in *. cbn [omap list_omap]. rewrite IH. by destruct e.
Qed.

Lemma elem_of_detailFetches evs assetID res :
  CallGetDetails assetID res ∈ evs → assetID ∈ detailFetches evs.
Proof.
  intros Hin. unfold detailFetches. apply list_elem_of_omap.
  by exists (CallGetDetails assetID res).
Qed.

(** The loop over the assets of the group: one read per asset, in the
    order of the group; what it stores is what the reads returned. *)
Lemma fetchDetails_run config assets pre w :
  let o := forEach (fetchDetails config) (fetched pre) assets w in
  value o = Some (fetched (pre ++ events o))
  ∧ detailFetches (events o) = da_ID <$> assets
  ∧ Forall fetches_details (events o).
Proof.
  revert pre w. induction assets as [|a assets IH]; intros pre w; cbn [forEach].
  - simpl. rewrite app_nil_r. split_and!; [done | done | constructor].
  - rewrite value_bind, events_bind.
    assert (Hstep : ∃ r logs w',
              fetchDetails config (fetched pre) a w
              = {| value := Some (fetched (pre ++ [CallGetDetails (da_ID a) r]));
                   after := w';
                   events := CallGetDetails (da_ID a) r :: logs |}
              ∧ Forall (fun e => isGetDetails e = false ∧ fetches_details e) logs).
    { unfold fetchDetails, getAssetDetails, exchange, bind.
      destruct (detailsRequest _ _ _ w) as [[details | err] w']; simpl.
      - exists (Ok details), [], w'. rewrite fetched_snoc. split; [reflexivity | constructor].
      - eexists (Err err), _, w'. rewrite fetched_snoc. split; [done |].
        by repeat constructor. }
    destruct Hstep as (r & logs & w' & -> & Hlogs). cbn [value events after].
    assert (Hsame : fetched (pre ++ [CallGetDetails (da_ID a) r])
                    = fetched (pre ++ CallGetDetails (da_ID a) r :: logs)).
    { rewrite (cons_middle _ pre logs), app_assoc.
      rewrite (fetched_app (pre ++ [CallGetDetails (da_ID a) r]) logs); [done |].
      eapply Forall_impl; [done |]. by intros ? []. }
    rewrite Hsame.
    destruct (IH (pre ++ CallGetDetails (da_ID a) r :: logs) w') as (-> & Hf & Hr).
    split_and!.
    + by rewrite <- app_assoc.
    + rewrite detailFetches_app, Hf.
      change (detailFetches (CallGetDetails (da_ID a) r :: logs))
        with (da_ID a :: detailFetches logs).
      rewrite (detailFetches_none logs); [done |].
      eapply Forall_impl; [done |]. by intros ? [].
    + constructor; [done |]. apply Forall_app. split; [| done].
      eapply Forall_impl; [done |]. by intros ? [].
Qed.

Lemma rangeMap_entries {V} (m : gmap string V) w :
  ∃ entries w',
    rangeMap m w = {| value := Some entries; after := w'; events := [] |}
    ∧ (∀ k v, (k, v) ∈ entries → m !! k = Some v)
    ∧ (fair_range → range_of m entries).
Proof.
  destruct (rangeMap_outcome m w) as (entries & w' & Hrun & Hfair).
  exists entries, w'. split_and!; [done | | done].
  revert Hrun. unfold rangeMap, silently, bind.
  destruct (rangeKeys (map_to_list m).*1 w) as [order w'']. simpl. intros [= <- _].
  intros k v Hin. apply list_elem_of_omap in Hin as (k' & _ & Hk').
  destruct (m !! k') as [v' |] eqn:Hl; [| done]. simpl in Hk'. by injection Hk' as <- <-.
Qed.

Lemma othersThan_filter (bestAssetID : string) (keys : list string) :
  othersThan bestAssetID keys = filter (fun k => k ≠ bestAssetID) keys.
Proof.
  induction keys as [|k keys IH]; [done |]. simpl.
  destruct (String.eqb_spec k bestAssetID) as [-> | Hne].
  - by rewrite filter_cons_False by (intros ?; done).
  - by rewrite filter_cons_True, IH by done.
Qed.

Lemma othersThan_nonempty (bestAssetID : string) (keys : list string) :
  NoDup keys → (2 ≤ length keys)%nat → othersThan bestAssetID keys ≠ [].
Proof.
  intros Hnd Hlen. destruct keys as [|k1 [|k2 keys]]; simpl in Hlen; [lia | lia |].
  simpl. destruct (String.eqb_spec k1 bestAssetID) as [-> | Hne1]; [| done].
  destruct (String.eqb_spec k2 bestAssetID) as [-> | Hne2]; [| done].
  apply NoDup_cons in Hnd as [Hnotin _]. destruct Hnotin. left.
Qed.

Lemma deleteLoop_deletes config l w :
  Forall deletes (events (forEach (deleteOne config) tt l w)).
Proof.
  apply events_Forall_forEach. intros [] id w'. unfold deleteOne.
  destruct (DryRun config); [by repeat constructor |].
  unfold deleteAsset, exchange, bind.
  destruct (deleteRequest _ _ _ w') as [[e |] w'']; simpl; by repeat constructor.
Qed.

(** The confirmation in normal mode: skipped with [--yes]; otherwise the
    operator is asked once, and the deletion goes ahead exactly when the
    answer is "y" or "yes" up to letter case. *)
Lemma confirmDeletion_cases config l w :
  DryRun config = false →
  let o := confirmDeletion config l w in
  (Yes config = true ∧ o = ret true w)
  ∨ (Yes config = false
     ∧ ∃ b logs,
         value o = Some b
         ∧ events o = AskOperator (len l) (Scanln w).1 :: logs
         ∧ Forall (fun e => isLog e = true ∧ deletes e ∧ isWouldDelete e = false) logs
         ∧ (b = true ↔ ∃ response, (Scanln w).1 = Ok response
                         ∧ (EqualFold response "y" || EqualFold response "yes") = true)).
Proof.
  intros Hmode. unfold confirmDeletion. rewrite Hmode, andb_true_r.
  destruct (Yes config); simpl; [by left | right]. split; [done |].
  unfold exchange, bind. destruct (Scanln w) as [[response | err] w']; simpl.
  - destruct (EqualFold response "y" || EqualFold response "yes") eqn:Haff.
    + rewrite <- negb_orb, Haff. simpl. exists true, [].
      split_and!; [done | done | constructor |]. split; [by exists response | done].
    + rewrite <- negb_orb, Haff. simpl. eexists false, _.
      split_and!; [done | done | by repeat constructor |].
      split; [done |]. intros (r & [= <-] & Hr). congruence.
  - eexists false, _. split_and!; [done | done | by repeat constructor |].
    split; [done |]. by intros (r & ? & _).
Qed.

Lemma logs_project logs :
  Forall (fun e => isLog e = true ∧ deletes e ∧ isWouldDelete e = false) logs →
  deleteCalls logs = [] ∧ wouldDeletes logs = [] ∧ promptedCounts logs = []
  ∧ Forall deletes logs.
Proof.
  induction 1 as [|e logs (Hl & Hd & Hw) _ (IHd & IHw & IHp & IHf)];
    [by split_and!; try constructor |].
  unfold deleteCalls, wouldDeletes, promptedCounts in *. cbn [omap list_omap].
  rewrite IHd, IHw, IHp.
  split_and!; [by destruct e | by destruct e as [| | | | |[] []] | by destruct e |].
  by constructor.
Qed.

(** The confirmation and the deletion loop. *)
Lemma confirmAndDelete_run config l w :
  let o := confirmAndDelete config l w in
  value o = Some None
  ∧ Forall deletes (events o)
  ∧ (length (promptedCounts (events o)) ≤ 1)%nat
  ∧ (∀ n, n ∈ promptedCounts (events o) → n = len l)
  ∧ (Yes config = true ∨ DryRun config = true → promptedCounts (events o) = [])
  ∧ (DryRun config = true →
       deleteCalls (events o) = [] ∧ wouldDeletes (events o) = truncateID <$> l)
  ∧ (DryRun config = false →
       wouldDeletes (events o) = []
       ∧ (deleteCalls (events o) = l ∨ deleteCalls (events o) = [])
       ∧ (confirms config → deleteCalls (events o) = l)
       ∧ (Yes config = false → declines → deleteCalls (events o) = [])).
Proof.
  cbv zeta. unfold confirmAndDelete.
  assert (Hloop : ∀ w', 
            let o := bind (forEach (deleteOne config) tt l) (fun _ => ret (@None error)) w' in
            value o = Some None ∧ events o = events (forEach (deleteOne config) tt l w')).
  { intros w'. cbv zeta. rewrite value_bind, events_bind.
    destruct (DryRun config) eqn:Hmode.
    - destruct (deleteLoop_dry config l w' Hmode) as (-> & _). simpl.
      by rewrite app_nil_r.
    - destruct (deleteLoop_wet config l w' Hmode) as (-> & _). simpl.
      by rewrite app_nil_r. }
  destruct (DryRun config) eqn:Hmode.
  - rewrite (bind_Some _ _ _ true); [| by rewrite confirmDeletion_dry].
    rewrite confirmDeletion_dry by done. cbn [ret value events after app].
    destruct (Hloop w) as [-> ->].
    destruct (deleteLoop_dry config l w Hmode) as (_ & Hd & Hp & Hw).
    rewrite Hd, Hp, Hw.
    split_and!; [done | apply deleteLoop_deletes | simpl; lia | | done | done | done].
    intros n Hn. by apply elem_of_nil in Hn.
  - destruct (confirmDeletion_cases config l w Hmode)
      as [[Hyes Hrun] | (Hyes & b & logs & Hv & Hev & Hlogs & Hb)].
    + rewrite (bind_Some _ _ _ true); [| by rewrite Hrun].
      rewrite Hrun. cbn [ret value events after app].
      destruct (Hloop w) as [-> ->].
      destruct (deleteLoop_wet config l w Hmode) as (_ & Hd & Hp & Hw).
      rewrite Hd, Hp, Hw.
      split_and!; [done | apply deleteLoop_deletes | simpl; lia | | done | done |].
      * intros n Hn. by apply elem_of_nil in Hn.
      * intros _. split_and!; [done | by left | done | congruence].
    + destruct (logs_project logs Hlogs) as (Hld & Hlw & Hlp & Hlf).
      rewrite (bind_Some _ _ _ b Hv). rewrite Hev. cbn [value events after].
      set (w' := after (confirmDeletion config l w)).
      assert (Hhead : ∀ rest,
                deleteCalls ((AskOperator (len l) (Scanln w).1 :: logs) ++ rest)
                = deleteCalls rest
                ∧ wouldDeletes ((AskOperator (len l) (Scanln w).1 :: logs) ++ rest)
                  = wouldDeletes rest
                ∧ promptedCounts ((AskOperator (len l) (Scanln w).1 :: logs) ++ rest)
                  = len l :: promptedCounts rest).
      { intros rest. rewrite deleteCalls_app, wouldDeletes_app, promptedCounts_app.
        change (deleteCalls (AskOperator (len l) (Scanln w).1 :: logs))
          with (deleteCalls logs).
        change (wouldDeletes (AskOperator (len l) (Scanln w).1 :: logs))
          with (wouldDeletes logs).
        change (promptedCounts (AskOperator (len l) (Scanln w).1 :: logs))
          with (len l :: promptedCounts logs).
        by rewrite Hld, Hlw, Hlp. }
      assert (Hone : ∀ n : Z, n ∈ [len l] → n = len l).
      { intros n Hn. by apply list_elem_of_singleton in Hn. }
      destruct b.
      * destruct (Hloop w') as [-> ->].
        destruct (deleteLoop_wet config l w' Hmode) as (_ & Hd & Hp & Hw).
        destruct (Hhead (events (forEach (deleteOne config) tt l w'))) as (-> & -> & ->).
        rewrite Hd, Hp, Hw.
        split_and!; [done | | simpl; lia | done | | done |].
        -- constructor; [done |]. apply Forall_app. split; [done |].
           apply deleteLoop_deletes.
        -- intros [? | ?]; congruence.
        -- intros _. split_and!; [done | by left | done |].
           intros _ Hdecl. destruct Hb as [Hb _].
           destruct (Hb eq_refl) as (response & Hr & Haff).
           specialize (Hdecl w). rewrite Hr in Hdecl. congruence.
      * cbn [ret value events after].
        destruct (Hhead []) as (-> & -> & ->).
        split_and!; [done | | simpl; lia | done | | done |].
        -- rewrite app_nil_r. by constructor.
        -- intros [? | ?]; congruence.
        -- intros _. split_and!; [done | by right | | done].
           intros [? | Hconf]; [congruence |].
           destruct (Hconf w) as (response & Hr & Haff).
           destruct Hb as [_ Hb]. discriminate Hb. by exists response.
Qed.

Lemma fetches_reads evs : Forall fetches_details evs → Forall reads_details evs.
Proof.
  intros H. eapply Forall_impl; [done |]. by intros [| | | | |[] []].
Qed.

Lemma bestLines_app evs1 evs2 : bestLines (evs1 ++ evs2) = bestLines evs1 ++ bestLines evs2.
Proof. apply omap_app. Qed.

Lemma fetches_no_best evs : Forall fetches_details evs → bestLines evs = [].
Proof.
  induction 1 as [|e evs He _ IH]; [done |].
  unfold bestLines in *. cbn [omap list_omap]. rewrite IH.
  by destruct e as [| | | | |[] []].
Qed.

(** What the events before the confirmation and those from the
    confirmation on contribute to the projections of a trace. *)
Lemma reads_project pre :
  Forall reads_details pre →
  deleteCalls pre = [] ∧ wouldDeletes pre = [] ∧ promptedCounts pre = []
  ∧ Logged Info NoDuplicatesToDelete ∉ pre.
Proof.
  induction 1 as [|e pre He _ (IHd & IHw & IHp & IHn)].
  { split_and!; try done. apply not_elem_of_nil. }
  unfold deleteCalls, wouldDeletes, promptedCounts in *. cbn [omap list_omap].
  rewrite IHd, IHw, IHp.
  split_and!; [by destruct e | by destruct e as [| | | | |[] []] | by destruct e |].
  intros [<- | Hin]%elem_of_cons; [done | by apply IHn].
Qed.

Lemma deletes_project tail :
  Forall deletes tail →
  Forall (fun e => isGetDetails e = false) tail ∧ bestLines tail = []
  ∧ Logged Info NoDuplicatesToDelete ∉ tail.
Proof.
  induction 1 as [|e tail He _ (IHg & IHb & IHn)].
  { split_and!; try done. apply not_elem_of_nil. }
  split_and!.
  - constructor; [by destruct e | done].
  - unfold bestLines in *. cbn [omap list_omap]. rewrite IHb.
    by destruct e as [| | | | |[] []].
  - intros [<- | Hin]%elem_of_cons; [done | by apply IHn].
Qed.

(** The run of [autoDeleteDuplicates], cut before the confirmation: the
    events up to there are [pre]; either the run stops there, or a best
    asset was chosen among the details read and the run goes on with the
    confirmation and the deletion of the other keys. *)
Lemma deletion_run config group w :
  let o := autoDeleteDuplicates config group w in
  ∃ pre,
    Forall reads_details pre
    ∧ detailFetches pre = da_ID <$> Assets group
    ∧ ((events o = pre ∧ bestLines pre = []
        ∧ ((size (fetched pre) < 2)%nat ∧ value o = Some None
           ∨ (2 ≤ size (fetched pre))%nat ∧ value o = Some (Some selectionError)))
       ∨ ∃ best dbest keys w',
           (2 ≤ size (fetched pre))%nat
           ∧ best ≠ "" ∧ fetched pre !! best = Some dbest ∧ hasSize dbest = true
           ∧ (fair_range → largest (fetched pre) dbest)
           ∧ bestLines pre = [truncateID best]
           ∧ (∀ k, k ∈ keys → is_Some (fetched pre !! k))
           ∧ (fair_range → keys ≡ₚ (map_to_list (fetched pre)).*1)
           ∧ (othersThan best keys = []
              ∧ events o = pre ++ [Logged Info NoDuplicatesToDelete]
              ∧ value o = Some None
              ∨ othersThan best keys ≠ []
                ∧ events o = pre ++ events (confirmAndDelete config (othersThan best keys) w')
                ∧ value o = value (confirmAndDelete config (othersThan best keys) w'))).
Proof.
  cbv zeta. unfold autoDeleteDuplicates.
  rewrite (bind_Some (logInfo _) _ _ tt eq_refl). cbn [logInfo emit value events after].
  destruct (fetchDetails_run config (Assets group) [] w) as (Hv & Hf & Hr).
  change (fetched []) with (∅ : gmap string AssetDetails) in *.
  set (o1 := forEach (fetchDetails config) ∅ (Assets group) w) in *.
  rewrite (bind_Some _ _ _ _ Hv). cbn [value events after].
  change (forEach (fetchDetails config) ∅ (Assets group) w) with o1.
  change ([] ++ events o1) with (events o1) in *.
  set (m := fetched (events o1)) in *.
  set (hello := Logged Info (Analyzing (len (Assets group)))).
  assert (Hpre : ∀ logs, Forall (fun e => isLog e = true ∧ reads_details e) logs →
            fetched ([hello] ++ events o1 ++ logs) = m
            ∧ detailFetches ([hello] ++ events o1 ++ logs) = da_ID <$> Assets group
            ∧ bestLines ([hello] ++ events o1 ++ logs) = bestLines logs
            ∧ Forall reads_details ([hello] ++ events o1 ++ logs)).
  { intros logs Hlogs.
    assert (Hnod : Forall (fun e => isGetDetails e = false) logs).
    { eapply Forall_impl; [done |]. by intros [] []. }
    split_and!.
    - change (fetched ([hello] ++ events o1 ++ logs)) with (fetched (events o1 ++ logs)).
      by rewrite fetched_app.
    - change (detailFetches ([hello] ++ events o1 ++ logs))
        with (detailFetches (events o1 ++ logs)).
      by rewrite detailFetches_app, (detailFetches_none logs Hnod), app_nil_r.
    - change (bestLines ([hello] ++ events o1 ++ logs))
        with (bestLines (events o1 ++ logs)).
      by rewrite bestLines_app, (fetches_no_best _ Hr).
    - constructor; [done |]. apply Forall_app. split; [by apply fetches_reads |].
      eapply Forall_impl; [exact Hlogs |]. by intros ? []. }
  destruct (Nat.ltb_spec (size m) 2) as [Hfew | Hmany].
  { rewrite (bind_Some (logWarning _) _ _ tt eq_refl). cbn [logWarning emit ret value events after].
    destruct (Hpre [Logged Warning NotEnoughDetails]) as (Hm & Hd & Hb & Hall);
      [by repeat constructor |].
    eexists. split_and!; [exact Hall | exact Hd |]. left.
    rewrite Hm. split_and!; [by rewrite app_nil_r | done | by left]. }
  destruct (rangeMap_entries m (after o1)) as (entries & w1 & Hrange & Hsub & Hfair).
  rewrite (bind_Some _ _ _ entries); [| by rewrite Hrange].
  rewrite Hrange. cbn [value events after app].
  destruct (rangeLoop_spec m entries noBest Hsub (tracks_noBest m))
    as (b & Hloop & Hb & _ & Hsz).
  unfold selectBestQualityAsset. rewrite Hloop. cbn [fmap option_fmap option_map].
  destruct (String.eqb_spec (bestID b) "") as [Hnone | Hbest].
  { destruct (Hpre []) as (Hm & Hd & Hbl & Hall); [constructor |].
    eexists. split_and!; [exact Hall | exact Hd |]. left.
    rewrite Hm. cbn [ret value events after]. split_and!; [done | done | by right]. }
  destruct Hb as [[? _] | (dbest & exif & Hdbest & Hexif & Hsize)]; [done |].
  rewrite (bind_Some (logInfo _) _ _ tt eq_refl). cbn [logInfo emit value events after].
  pose (shown := if Verbose config
                 then [Logged Info (BestDimensions (FileSizeInByte exif)
                                      (ImageWidth exif) (ImageHeight exif))]
                 else []).
  assert (Hverbose : ∀ w0,
            (if Verbose config then
               match m !! bestID b with
               | None => panic
               | Some best =>
                 match Exif best with
                 | Some exif =>
                   logInfo (BestDimensions (FileSizeInByte exif)
                              (ImageWidth exif) (ImageHeight exif))
                 | None => ret tt
                 end
               end
             else ret tt) w0
            = {| value := Some tt; after := w0; events := shown |}).
  { intros w0. subst shown. rewrite Hdbest, Hexif. by destruct (Verbose config). }
  rewrite (bind_Some _ _ _ tt); [| by rewrite Hverbose].
  rewrite Hverbose. cbn [value events after].
  destruct (rangeMap_entries m w1) as (keys & w2 & Hrange2 & Hsub2 & Hfair2).
  rewrite (bind_Some _ _ _ keys); [| by rewrite Hrange2].
  rewrite Hrange2. cbn [value events after app].
  destruct (Hpre (Logged Info (BestQuality (truncateID (bestID b))) :: shown))
    as (Hm & Hd & Hbl & Hall).
  { constructor; [done |]. subst shown. destruct (Verbose config); by repeat constructor. }
  exists ([hello] ++ events o1
          ++ Logged Info (BestQuality (truncateID (bestID b))) :: shown).
  split_and!; [exact Hall | exact Hd |]. right.
  exists (bestID b), dbest, keys.*1, w2. rewrite Hm.
  split_and!; [done | done | done | by unfold hasSize; rewrite Hexif | | | | |].
  - intros Hfr. unfold largest, hasSize, sizeOf. rewrite Hexif. split; [done |].
    intros k' d' Hk' Hs'. destruct (Exif d') as [e' |] eqn:He'; [| done].
    rewrite Hsize. apply (Hsz k' d' e'); [| done].
    by apply (range_of_elem m entries _ _ (Hfair Hfr)).
  - rewrite Hbl. cbn [bestLines omap list_omap]. f_equal.
    subst shown. by destruct (Verbose config).
  - intros k [[k' v] [-> Hin]]%list_elem_of_fmap. simpl. exists v. by apply Hsub2.
  - intros Hfr. specialize (Hfair2 Hfr). unfold range_of in Hfair2. by rewrite Hfair2.
  - destruct (Z.eqb_spec (len (othersThan (bestID b) keys.*1)) 0) as [Hnil | Hcons].
    + left. rewrite (bind_Some (logInfo _) _ _ tt eq_refl). cbn [logInfo emit ret value events after].
      split_and!; [| | done].
      * unfold len in Hnil. destruct (othersThan (bestID b) keys.*1); [done |]. simpl in Hnil. lia.
      * rewrite app_nil_r. simpl. by rewrite <- !app_assoc.
    + right. split_and!.
      * intros Hnil. rewrite Hnil in Hcons. done.
      * unfold confirmAndDelete. simpl. by rewrite <- !app_assoc.
      * done.
Qed.

Lemma fetched_members evs assetID :
  is_Some (fetched evs !! assetID) → assetID ∈ detailFetches evs.
Proof.
  intros [details Hl]. apply fetched_lookup in Hl.
  by apply elem_of_detailFetches in Hl.
Qed.

Lemma length_othersThan (bestAssetID : string) (keys : list string) :
  NoDup keys → bestAssetID ∈ keys →
  len (othersThan bestAssetID keys) = len keys - 1.
Proof.
  unfold len. induction 1 as [|k keys Hk Hnd IH]; intros Hin.
  { by apply elem_of_nil in Hin. }
  simpl othersThan. destruct (String.eqb_spec k bestAssetID) as [-> | Hne].
  - assert (othersThan bestAssetID keys = keys) as ->; [| simpl; lia].
    rewrite othersThan_filter. clear IH Hnd Hin.
    induction keys as [|k keys IH]; [done |].
    apply not_elem_of_cons in Hk as [Hne Hk].
    rewrite filter_cons_True by done. by rewrite IH.
  - apply elem_of_cons in Hin as [-> | Hin]; [done |].
    specialize (IH Hin). simpl length. destruct keys; [by apply elem_of_nil in Hin |].
    simpl length in *. lia.
Qed.

(** The run of the deletion pass told by its trace. *)
Lemma deletion_summary config group w :
  let o := autoDeleteDuplicates config group w in
  let m := fetched (events o) in
  detailFetches (events o) = da_ID <$> Assets group
  ∧ ((deleteCalls (events o) = [] ∧ wouldDeletes (events o) = []
      ∧ promptedCounts (events o) = [] ∧ bestLines (events o) = []
      ∧ (Logged Info NoDuplicatesToDelete ∉ events o)
      ∧ ((size m < 2)%nat ∧ value o = Some None
         ∨ (2 ≤ size m)%nat ∧ value o = Some (Some selectionError)))
     ∨ ∃ best dbest keys,
         value o = Some None ∧ (2 ≤ size m)%nat
         ∧ best ≠ "" ∧ m !! best = Some dbest ∧ hasSize dbest = true
         ∧ (fair_range → largest m dbest)
         ∧ bestLines (events o) = [truncateID best]
         ∧ (∀ k, k ∈ keys → is_Some (m !! k))
         ∧ (fair_range → keys ≡ₚ (map_to_list m).*1)
         ∧ (Logged Info NoDuplicatesToDelete ∈ events o → othersThan best keys = [])
         ∧ (length (promptedCounts (events o)) ≤ 1)%nat
         ∧ (∀ n, n ∈ promptedCounts (events o) → n = len (othersThan best keys))
         ∧ (Yes config = true ∨ DryRun config = true → promptedCounts (events o) = [])
         ∧ (DryRun config = true →
              deleteCalls (events o) = []
              ∧ wouldDeletes (events o) = truncateID <$> othersThan best keys)
         ∧ (DryRun config = false →
              wouldDeletes (events o) = []
              ∧ (deleteCalls (events o) = othersThan best keys
                 ∨ deleteCalls (events o) = [])
              ∧ (confirms config → deleteCalls (events o) = othersThan best keys)
              ∧ (Yes config = false → declines → deleteCalls (events o) = []))).
Proof.
  cbv zeta.
  destruct (deletion_run config group w) as (pre & Hpre & Hids & Hcases).
  destruct (reads_project pre Hpre) as (Hpd & Hpw & Hpp & Hpn).
  destruct Hcases as [(-> & Hbl & Hval)
    | (best & dbest & keys & w' & Hsize & Hne & Hbest & Hsized & Hlargest & Hbl
       & Hkeys & Hperm & Htail)].
  { split; [done |]. left. by split_and!. }
  assert (Hproj : ∀ tail, Forall (fun e => isGetDetails e = false) tail →
            bestLines tail = [] →
            events (autoDeleteDuplicates config group w) = pre ++ tail →
            fetched (events (autoDeleteDuplicates config group w)) = fetched pre
            ∧ detailFetches (events (autoDeleteDuplicates config group w))
              = da_ID <$> Assets group
            ∧ bestLines (events (autoDeleteDuplicates config group w)) = [truncateID best]
            ∧ deleteCalls (events (autoDeleteDuplicates config group w)) = deleteCalls tail
            ∧ wouldDeletes (events (autoDeleteDuplicates config group w)) = wouldDeletes tail
            ∧ promptedCounts (events (autoDeleteDuplicates config group w))
              = promptedCounts tail).
  { intros tail Hnod Hnob ->.
    rewrite fetched_app, detailFetches_app, bestLines_app, deleteCalls_app,
      wouldDeletes_app, promptedCounts_app by done.
    rewrite (detailFetches_none tail Hnod), Hnob, Hpd, Hpw, Hpp, Hids, Hbl, !app_nil_r.
    done. }
  destruct Htail as [(Hnil & Hev & Hval) | (Hcons & Hev & Hval)].
  - destruct (Hproj [Logged Info NoDuplicatesToDelete]) as (-> & Hf & Hb & Hd & Hw & Hp);
      [by repeat constructor | done | done |].
    split; [done |]. right. exists best, dbest, keys.
    rewrite Hd, Hw, Hp, Hnil.
    split_and!; try done; [simpl; lia | |].
    + intros n Hn. by apply elem_of_nil in Hn.
    + intros _. split_and!; try done. by left.
  - destruct (confirmAndDelete_run config (othersThan best keys) w')
      as (Hv & Hdel & Hlen & Hcount & Hsilent & Hdry & Hwet).
    destruct (deletes_project _ Hdel) as (Hnod & Hnob & Hnon).
    destruct (Hproj _ Hnod Hnob Hev) as (-> & Hf & Hb & -> & -> & ->).
    split; [done |]. right. exists best, dbest, keys.
    split_and!; try done; [by rewrite Hval |].
    intros Hin. rewrite Hev in Hin. apply elem_of_app in Hin as [Hin | Hin]; done.
Qed.

Lemma deletion_value config group w :
  value (autoDeleteDuplicates config group w) = Some None
  ∨ value (autoDeleteDuplicates config group w) = Some (Some selectionError).
Proof.
  destruct (deletion_summary config group w)
    as (_ & [(_ & _ & _ & _ & _ & [[_ Hv] | [_ Hv]]) | (? & ? & ? & Hv & _)]);
    rewrite Hv; by eauto.
Qed.

(** X4: [autoDeleteDuplicates] never panics and returns either nil or
    the error "failed to determine best quality asset"; when it returns
    that error, it has issued no delete call, logged no "would delete"
    line and asked nothing. *)
Theorem deletion_fails_only_on_selection config group w :
  let o := autoDeleteDuplicates config group w in
  (value o = Some None ∨ value o = Some (Some selectionError))
  ∧ (value o = Some (Some selectionError) →
       deleteCalls (events o) = [] ∧ wouldDeletes (events o) = []
       ∧ promptedCounts (events o) = []).
Proof.
  cbv zeta. destruct (deletion_summary config group w)
    as (_ & [(Hd & Hw & Hp & _ & _ & [[_ Hv] | [_ Hv]]) | (? & ? & ? & Hv & _)]);
    rewrite Hv; (split; [by eauto |]); by intros [=].
Qed.

(** X5: when the server returned details for fewer than two distinct
    assets of the group, the deletion pass returns nil without choosing a
    best asset, deleting, previewing a deletion or asking. *)
Theorem deletion_needs_two_details config group w :
  let o := autoDeleteDuplicates config group w in
  (size (fetched (events o)) < 2)%nat →
  value o = Some None
  ∧ deleteCalls (events o) = [] ∧ wouldDeletes (events o) = []
  ∧ promptedCounts (events o) = [] ∧ bestLines (events o) = [].
Proof.
  cbv zeta. intros Hfew. destruct (deletion_summary config group w)
    as (_ & [(Hd & Hw & Hp & Hb & _ & [[_ Hv] | [? _]]) | (? & ? & ? & _ & ? & _)]);
    [done | lia | lia].
Qed.

(** X6: when a range over a map visits each key once, every asset the
    deletion pass issues a delete call for is an asset of the group whose
    details were read, and it is not the asset announced as the best.  The
    best asset is never deleted; it has size metadata and is at least as
    large as every asset with size metadata whose details were read. *)
Theorem deleted_assets_are_not_better config group w :
  fair_range →
  let o := autoDeleteDuplicates config group w in
  ∀ assetID, assetID ∈ deleteCalls (events o) →
    ∃ best dbest details,
      bestLines (events o) = [truncateID best]
      ∧ best ≠ assetID ∧ (best ∉ deleteCalls (events o))
      ∧ fetched (events o) !! best = Some dbest
      ∧ fetched (events o) !! assetID = Some details
      ∧ assetID ∈ da_ID <$> Assets group
      ∧ largest (fetched (events o)) dbest.
Proof.
  intros Hfair o id Hin. subst o.
  destruct (deletion_summary config group w)
    as (Hids & [(Hd & _) | (best & dbest & keys & _ & _ & _ & Hbest & _ & Hlargest & Hbl
                            & Hkeys & _ & _ & _ & _ & _ & Hdry & Hwet)]).
  { rewrite Hd in Hin. by apply elem_of_nil in Hin. }
  destruct (DryRun config) eqn:Hmode.
  { destruct (Hdry eq_refl) as [Hd _]. rewrite Hd in Hin. by apply elem_of_nil in Hin. }
  destruct (Hwet eq_refl) as (_ & [Hd | Hd] & _);
    [| rewrite Hd in Hin; by apply elem_of_nil in Hin].
  rewrite Hd in Hin |- *. rewrite othersThan_filter in Hin |- *.
  apply list_elem_of_filter in Hin as [Hne Hin].
  destruct (Hkeys id Hin) as [details Hdetails].
  exists best, dbest, details. split_and!; try done.
  - by intros [? _]%list_elem_of_filter.
  - rewrite <- Hids. apply fetched_members. by exists details.
  - by apply Hlargest.
Qed.

(** X7: when a range over a map visits each key once: in normal mode, once the deletion is confirmed (or confirmation
    is skipped), a pass that returns nil over at least two assets with
    details issues exactly one delete call for every such asset but one,
    whether or not the asset has size metadata and whatever the server
    answers to the calls. *)
Theorem confirmed_deletion_leaves_one config group w :
  fair_range → DryRun config = false → confirms config →
  let o := autoDeleteDuplicates config group w in
  value o = Some None → (2 ≤ size (fetched (events o)))%nat →
  ∃ best, is_Some (fetched (events o) !! best)
    ∧ NoDup (deleteCalls (events o))
    ∧ (∀ assetID, assetID ∈ deleteCalls (events o)
         ↔ assetID ≠ best ∧ is_Some (fetched (events o) !! assetID))
    ∧ len (deleteCalls (events o)) = Z.of_nat (size (fetched (events o))) - 1.
Proof.
  intros Hfair Hmode Hconf o Hval Hsize. subst o.
  destruct (deletion_summary config group w)
    as (_ & [(_ & _ & _ & _ & _ & [[? _] | [_ Hv]])
            | (best & dbest & keys & _ & _ & _ & Hbest & _ & _ & _
               & Hkeys & Hperm & _ & _ & _ & _ & _ & Hwet)]);
    [lia | congruence |].
  destruct (Hwet Hmode) as (_ & _ & Hd & _). rewrite (Hd Hconf).
  specialize (Hperm Hfair).
  assert (Hnd : NoDup keys).
  { rewrite Hperm. apply NoDup_fst_map_to_list. }
  assert (Hdom : ∀ k, k ∈ keys ↔ is_Some (fetched (events (autoDeleteDuplicates config group w)) !! k)).
  { intros k. rewrite Hperm. rewrite list_elem_of_fmap. split.
    - intros ([k' v] & -> & Hin). exists v. by apply elem_of_map_to_list in Hin.
    - intros [v Hv]. exists (k, v). split; [done |]. by apply elem_of_map_to_list. }
  exists best. split_and!.
  - by exists dbest.
  - rewrite othersThan_filter. by apply NoDup_filter.
  - intros id. rewrite othersThan_filter, list_elem_of_filter, Hdom. done.
  - rewrite length_othersThan; [| done | apply Hdom; by exists dbest].
    unfold len. by rewrite Hperm, length_fmap, length_map_to_list.
Qed.

(** X8: when a range over a map visits each key once, the line "No duplicates to delete" is never logged: when a best
    asset is chosen, at least one other asset has details. *)
Theorem no_duplicates_branch_is_dead config group w :
  fair_range →
  Logged Info NoDuplicatesToDelete ∉ events (autoDeleteDuplicates config group w).
Proof.
  intros Hfair Hin.
  destruct (deletion_summary config group w)
    as (_ & [(_ & _ & _ & _ & Hno & _)
            | (best & dbest & keys & _ & Hsize & _ & _ & _ & _ & _
               & _ & Hperm & Hnil & _)]); [done |].
  specialize (Hperm Hfair).
  apply (othersThan_nonempty best keys); [| | by apply Hnil].
  - rewrite Hperm. apply NoDup_fst_map_to_list.
  - by rewrite Hperm, length_fmap, length_map_to_list.
Qed.

(** X9: the operator is asked at most once per group, and not at all
    with [--yes] or in preview mode; the number shown is the number of
    assets with details less one (when a range over a map visits each key
    once).  In normal mode without [--yes], an
    operator who does not answer "y" or "yes" (up to letter case), or
    whose input fails, stops every deletion. *)
Theorem operator_is_asked_at_most_once config group w :
  let o := autoDeleteDuplicates config group w in
  (length (promptedCounts (events o)) ≤ 1)%nat
  ∧ (Yes config = true ∨ DryRun config = true → promptedCounts (events o) = [])
  ∧ (fair_range → ∀ n, n ∈ promptedCounts (events o) →
       n = Z.of_nat (size (fetched (events o))) - 1)
  ∧ (DryRun config = false → Yes config = false → declines →
       deleteCalls (events o) = [] ∧ wouldDeletes (events o) = []).
Proof.
  cbv zeta.
  destruct (deletion_summary config group w)
    as (_ & [(Hd & Hw & Hp & _) | (best & dbest & keys & _ & _ & _ & Hbest & _ & _ & _
                                   & Hkeys & Hperm & _ & Hlen & Hcount & Hsilent
                                   & _ & Hwet)]).
  { rewrite Hd, Hw, Hp. split_and!; [simpl; lia | done | | done].
    intros _ n Hn. by apply elem_of_nil in Hn. }
  split_and!; [done | done | |].
  - intros Hfair n Hn. rewrite (Hcount n Hn). specialize (Hperm Hfair).
    rewrite length_othersThan.
    + unfold len. by rewrite Hperm, length_fmap, length_map_to_list.
    + rewrite Hperm. apply NoDup_fst_map_to_list.
    + rewrite Hperm. apply list_elem_of_fmap. exists (best, dbest).
      split; [done |]. by apply elem_of_map_to_list.
  - intros Hmode Hyes Hdecl. destruct (Hwet Hmode) as (Hw & _ & _ & Hd).
    split; [by apply Hd | done].
Qed.

End Deletion.

(** ** The album reconciler, by its trace *)

Section Synchronization.
Context {U : UnicodeTables} {World : Type} {E : Environment World}.
Implicit Types (config : Config) (group : DuplicateGroup) (w : World)
  (evs : list Event).

Lemma memberships_app evs1 evs2 :
  Forall (fun e => isGetAlbums e = false) evs2 →
  memberships (evs1 ++ evs2) = memberships evs1.
Proof.
  intros Hno. unfold memberships. rewrite foldl_app. generalize (foldl recordAlbums ∅ evs1).
  induction Hno as [|e evs2 He _ IH]; intros m; [done |].
  simpl. by destruct e.
Qed.

Lemma memberships_snoc evs assetID r :
  memberships (evs ++ [CallGetAlbums assetID r])
  = match r with Ok albums => <[assetID := albums]> (memberships evs) | Err _ => memberships evs end.
Proof. unfold memberships. rewrite foldl_app. simpl. by destruct r. Qed.

Lemma albumFetches_app evs1 evs2 :
  albumFetches (evs1 ++ evs2) = albumFetches evs1 ++ albumFetches evs2.
Proof. apply omap_app. Qed.

Lemma albumFetches_none evs :
  Forall (fun e => isGetAlbums e = false) evs → albumFetches evs = [].
Proof.
  induction 1 as [|e evs He _ IH]; [done |].
  unfold albumFetches in *. cbn [omap list_omap]. rewrite IH. by destruct e.
Qed.

Lemma fetchAlbums_run config assets pre (s0 : gset string) w :
  let o := forEach (fetchAlbums config) (memberships pre, s0) assets w in
  (∃ s, value o = Some (memberships (pre ++ events o), s))
  ∧ albumFetches (events o) = da_ID <$> assets
  ∧ Forall fetches_albums (events o).
Proof.
  revert pre s0 w. induction assets as [|a assets IH]; intros pre s0 w; cbn [forEach].
  - simpl. rewrite app_nil_r. split_and!; [by exists s0 | done | constructor].
  - rewrite value_bind, events_bind.
    assert (Hstep : ∃ r logs w' s1,
              fetchAlbums config (memberships pre, s0) a w
              = {| value := Some (memberships (pre ++ [CallGetAlbums (da_ID a) r]), s1);
                   after := w';
                   events := CallGetAlbums (da_ID a) r :: logs |}
              ∧ Forall (fun e => isGetAlbums e = false ∧ fetches_albums e) logs).
    { unfold fetchAlbums, getAlbumsForAsset, exchange, bind.
      destruct (albumsRequest _ _ _ w) as [[albums | err] w']; simpl.
      - eexists (Ok albums), [], w', _. rewrite memberships_snoc.
        split; [reflexivity | constructor].
      - eexists (Err err), _, w', _. rewrite memberships_snoc. split; [reflexivity |].
        by repeat constructor. }
    destruct Hstep as (r & logs & w' & s1 & -> & Hlogs). cbn [value events after].
    assert (Hsame : memberships (pre ++ [CallGetAlbums (da_ID a) r])
                    = memberships (pre ++ CallGetAlbums (da_ID a) r :: logs)).
    { rewrite (cons_middle _ pre logs), app_assoc.
      rewrite (memberships_app (pre ++ [CallGetAlbums (da_ID a) r]) logs); [done |].
      eapply Forall_impl; [exact Hlogs |]. by intros ? []. }
    rewrite Hsame.
    destruct (IH (pre ++ CallGetAlbums (da_ID a) r :: logs) s1 w') as ([s ->] & Hf & Hr).
    split_and!.
    + exists s. by rewrite <- app_assoc.
    + rewrite albumFetches_app, Hf.
      change (albumFetches (CallGetAlbums (da_ID a) r :: logs))
        with (da_ID a :: albumFetches logs).
      rewrite (albumFetches_none logs); [done |].
      eapply Forall_impl; [exact Hlogs |]. by intros ? [].
    + constructor; [done |]. apply Forall_app. split; [| done].
      eapply Forall_impl; [exact Hlogs |]. by intros ? [].
Qed.

Lemma showAssignments_events config (m : gmap string (list Album)) w :
  Forall (fun e => isLog e = true ∧ synchronizes e)
    (events ((if Verbose config then
                do logInfo CurrentAssignments then
                let* entries := rangeMap m in
                forEach showAssignment tt entries
              else ret tt) w)).
Proof.
  destruct (Verbose config); [| constructor].
  rewrite events_bind. simpl. constructor; [done |]. rewrite events_bind.
  destruct (rangeMap_outcome m w) as (entries & w' & -> & _). simpl.
  generalize w'. clear. induction entries as [|[id albums] entries IH]; intros w; [constructor |].
  cbn [forEach]. rewrite events_bind. simpl. constructor; [done | apply IH].
Qed.

Lemma syncAlbum_events config group m order c w :
  Forall (fun e => isGetAlbums e = false ∧ synchronizes e)
    (events (forEach (syncAlbum config group m) c order w)).
Proof.
  revert c w. induction order as [|X order IH]; intros c w; cbn [forEach]; [constructor |].
  rewrite events_bind. apply Forall_app. split.
  - unfold syncAlbum. cbv zeta.
    destruct (0 <? len _); [| constructor].
    destruct (DryRun config); [by repeat constructor |].
    unfold addAssetsToAlbum, exchange, bind.
    destruct (addRequest _ _ _ _ w) as [[e |] w']; simpl; by repeat constructor.
  - destruct (value _); [apply IH | constructor].
Qed.

(** The run of [synchronizeAlbums], cut between its reads and its
    writes. *)
Lemma sync_run config group w :
  ∃ pre order w2 (allAlbumIDs : gset string),
    Forall (fun e => isAddCall e = false ∧ synchronizes e) pre
    ∧ albumFetches pre = da_ID <$> Assets group
    ∧ (∀ albumID, albumID ∈ allAlbumIDs ↔ reported pre albumID)
    ∧ (fair_range → order ≡ₚ elements allAlbumIDs)
    ∧ value (synchronizeAlbums config group w)
      = (fun c => (c, None))
        <$> value (forEach (syncAlbum config group (memberships pre)) 0 order w2)
    ∧ events (synchronizeAlbums config group w)
      = pre ++ events (forEach (syncAlbum config group (memberships pre)) 0 order w2).
Proof.
  destruct (fetch_loop config (Assets group) ∅ ∅ w) as (m & s & Hval & Hs & _ & Hno).
  destruct (fetchAlbums_run config (Assets group) [] ∅ w) as ([s' Hval'] & Hids & Hfetch).
  change (memberships []) with (∅ : gmap string (list Album)) in *.
  set (o1 := forEach (fetchAlbums config) (∅, ∅) (Assets group) w) in *.
  change ([] ++ events o1) with (events o1) in *.
  rewrite Hval in Hval'. injection Hval' as -> <-.
  pose (o2 := (if Verbose config then
                 do logInfo CurrentAssignments then
                 let* entries := rangeMap (memberships (events o1)) in
                 forEach showAssignment tt entries
               else ret tt) (after o1)).
  destruct (showAssignments_outcome config (memberships (events o1)) (after o1)) as [Hv2 _].
  pose proof (showAssignments_events config (memberships (events o1)) (after o1)) as Hlog2.
  change (value o2 = Some tt) in Hv2.
  change (Forall (fun e => isLog e = true ∧ synchronizes e) (events o2)) in Hlog2.
  destruct (rangeKeys (elements s) (after o2)) as [order w2] eqn:Hrange.
  assert (Hquiet : Forall (fun e => isGetAlbums e = false) (events o2)).
  { eapply Forall_impl; [exact Hlog2 |]. by intros [] []. }
  assert (Hmem : memberships (events o1 ++ events o2) = memberships (events o1)).
  { by apply memberships_app. }
  assert (Hset : value (rangeSet s (after o2)) = Some order
                 ∧ after (rangeSet s (after o2)) = w2
                 ∧ events (rangeSet s (after o2)) = []).
  { unfold rangeSet, silently. by rewrite Hrange. }
  destruct Hset as (Hv3 & Ha3 & He3).
  exists (events o1 ++ events o2), order, w2, s. rewrite Hmem. split_and!.
  - apply Forall_app. split.
    + eapply Forall_impl; [exact Hfetch |]. by intros [| | | | |[] []].
    + eapply Forall_impl; [exact Hlog2 |]. by intros [] [].
  - by rewrite albumFetches_app, (albumFetches_none _ Hquiet), app_nil_r.
  - intros X. rewrite Hs. unfold reported. split.
    + intros [Hin | (id & albums & Hin & HX)]; [by apply not_elem_of_empty in Hin |].
      exists id, albums. split; [| done]. apply elem_of_app. by left.
    + intros (id & albums & Hin & HX). right. exists id, albums. split; [| done].
      apply elem_of_app in Hin as [Hin | Hin]; [done |].
      rewrite Forall_forall in Hquiet. by apply Hquiet in Hin.
  - intros Hfair. specialize (Hfair (elements s) (after o2)). by rewrite Hrange in Hfair.
  - unfold synchronizeAlbums. rewrite (bind_Some _ _ _ _ Hval). cbn [value events after].
    change (forEach (fetchAlbums config) (∅, ∅) (Assets group) w) with o1.
    change ((if Verbose config then _ else _) (after o1)) with o2.
    rewrite (bind_Some _ _ _ _ Hv2). cbn [value events after].
    rewrite (bind_Some _ _ _ _ Hv3). cbn [value events after].
    rewrite Ha3, value_bind. by destruct (value (forEach _ 0 order w2)).
  - unfold synchronizeAlbums. rewrite (bind_Some _ _ _ _ Hval). cbn [value events after].
    change (forEach (fetchAlbums config) (∅, ∅) (Assets group) w) with o1.
    change ((if Verbose config then _ else _) (after o1)) with o2.
    rewrite (bind_Some _ _ _ _ Hv2). cbn [value events after].
    rewrite (bind_Some _ _ _ _ Hv3). cbn [value events after].
    rewrite Ha3, He3, events_bind. simpl.
    destruct (value (forEach _ 0 order w2)); simpl; by rewrite ?app_nil_r, ?app_assoc.
Qed.

Lemma planned_albums m group order :
  (planned m group order).*1
  = filter (fun albumID => 0 < len (assetsToAdd m albumID (Assets group))) order.
Proof.
  induction order as [|X order IH]; [done |].
  change (planned m group (X :: order))
    with (match (if 0 <? len (assetsToAdd m X (Assets group))
                 then Some (X, assetsToAdd m X (Assets group)) else None) with
          | Some p => p :: planned m group order
          | None => planned m group order
          end).
  destruct (Z.ltb_spec 0 (len (assetsToAdd m X (Assets group)))) as [Hpos | Hnone].
  - rewrite filter_cons_True by done. rewrite fmap_cons. cbn [fst]. by rewrite IH.
  - by rewrite filter_cons_False by lia.
Qed.

Lemma not_recorded m assetID albumID :
  inAlbum (default [] (m !! assetID)) albumID = false ↔ ¬ recorded m assetID albumID.
Proof.
  rewrite <- not_true_iff_false, inAlbum_spec. unfold recorded.
  destruct (m !! assetID) as [albums |]; simpl.
  - split; [intros Hno (? & [= <-] & ?); done | intros Hno ?; apply Hno; by eexists].
  - split; [by intros _ (? & ? & _) | intros _ Hin; by apply elem_of_nil in Hin].
Qed.

(** What the whole trace says, from the cut. *)
Lemma sync_summary config group w :
  let evs := events (synchronizeAlbums config group w) in
  ∃ order reads writes,
    evs = reads ++ writes
    ∧ Forall (fun e => isAddCall e = false ∧ synchronizes e) reads
    ∧ Forall (fun e => isGetAlbums e = false ∧ synchronizes e) writes
    ∧ albumFetches evs = da_ID <$> Assets group
    ∧ (fair_range → NoDup order ∧ ∀ albumID, albumID ∈ order ↔ reported evs albumID)
    ∧ (DryRun config = true → addCalls evs = [])
    ∧ (DryRun config = false →
         (addCalls evs).*1 = planned (memberships evs) group order).
Proof.
  cbv zeta.
  destruct (sync_run config group w)
    as (pre & order & w2 & s & Hpre & Hids & Hs & Horder & _ & ->).
  pose proof (syncAlbum_events config group (memberships pre) order 0 w2) as Hloop.
  set (loop := events (forEach (syncAlbum config group (memberships pre)) 0 order w2)) in *.
  assert (Hquiet : Forall (fun e => isGetAlbums e = false) loop).
  { eapply Forall_impl; [exact Hloop |]. by intros ? []. }
  assert (Hnoadd : Forall (fun e => isAddCall e = false) pre).
  { eapply Forall_impl; [exact Hpre |]. by intros ? []. }
  exists order, pre, loop.
  rewrite memberships_app, albumFetches_app, (albumFetches_none loop), app_nil_r,
    addCalls_app, (addCalls_none pre) by done.
  split_and!; [done | done | done | done | | |].
  - intros Hfair. specialize (Horder Hfair). split.
    + rewrite Horder. apply NoDup_elements.
    + intros X. rewrite Horder, elem_of_elements, Hs. unfold reported.
      split; intros (id & albums & Hin & HX); exists id, albums; (split; [| done]).
      * apply elem_of_app. by left.
      * apply elem_of_app in Hin as [Hin | Hin]; [done |].
        rewrite Forall_forall in Hquiet. by apply Hquiet in Hin.
  - intros Hmode. simpl.
    destruct (sync_loop config group (memberships pre) order w2) as (c & _ & Hdry & _).
    destruct (Hdry Hmode) as [_ Hlogs]. apply addCalls_none.
    eapply Forall_impl; [exact Hlogs |]. by intros [].
  - intros Hmode. simpl.
    destruct (sync_loop config group (memberships pre) order w2) as (c & _ & _ & Hwet).
    by destruct (Hwet Hmode) as (_ & ? & _).
Qed.

(** The writes of a run are needed: one per album at most, to an album
    some asset was reported in, never empty, with exactly the assets of
    the group that are not on record as members of the album. *)
Lemma writes_are_needed config group w :
  fair_range →
  let evs := events (synchronizeAlbums config group w) in
  NoDup (addCalls evs).*1.*1
  ∧ ∀ albumID assetIDs res, CallAddAssets albumID assetIDs res ∈ evs →
      reported evs albumID ∧ assetIDs ≠ []
      ∧ ∀ assetID, assetID ∈ assetIDs
          ↔ assetID ∈ da_ID <$> Assets group
            ∧ ¬ recorded (memberships evs) assetID albumID.
Proof.
  intros Hfair evs. subst evs.
  destruct (sync_summary config group w)
    as (order & _ & _ & _ & _ & _ & _ & Horder & Hdry & Hwet).
  destruct (Horder Hfair) as [Hnd Hrep].
  destruct (DryRun config) eqn:Hmode.
  { rewrite (Hdry eq_refl). split; [constructor |].
    intros X ids res Hin. apply elem_of_addCalls in Hin. rewrite (Hdry eq_refl) in Hin.
    by apply elem_of_nil in Hin. }
  specialize (Hwet eq_refl). split.
  - rewrite Hwet, planned_albums. by apply NoDup_filter.
  - intros X ids res Hin. apply elem_of_addCalls in Hin.
    assert (Hp : (X, ids) ∈ (addCalls (events (synchronizeAlbums config group w))).*1).
    { apply list_elem_of_fmap. by exists (X, ids, res). }
    rewrite Hwet in Hp. apply elem_of_planned in Hp as (HX & -> & Hpos). split_and!.
    + by apply Hrep.
    + intros Hnil. rewrite Hnil in Hpos. done.
    + intros id. rewrite elem_of_assetsToAdd, list_elem_of_fmap. split.
      * intros (a & Ha & -> & Hno). split; [by exists a | by apply not_recorded].
      * intros [(a & -> & Ha) Hno]. exists a. split_and!; [done | done |].
        by apply not_recorded.
Qed.

(** In normal mode the needed additions are written. *)
Lemma needed_are_written config group w :
  fair_range → DryRun config = false →
  let evs := events (synchronizeAlbums config group w) in
  ∀ albumID asset, reported evs albumID → asset ∈ Assets group →
    recorded (memberships evs) (da_ID asset) albumID
    ∨ ∃ assetIDs res, CallAddAssets albumID assetIDs res ∈ evs
        ∧ da_ID asset ∈ assetIDs.
Proof.
  intros Hfair Hmode evs X a HX Ha. subst evs.
  destruct (sync_summary config group w)
    as (order & _ & _ & _ & _ & _ & _ & Horder & _ & Hwet).
  destruct (Horder Hfair) as [_ Hin]. specialize (Hwet Hmode).
  set (evs := events (synchronizeAlbums config group w)) in *.
  destruct (inAlbum (default [] (memberships evs !! da_ID a)) X) eqn:Hrec.
  { left. apply inAlbum_spec in Hrec. unfold recorded.
    destruct (memberships evs !! da_ID a) as [albums |]; simpl in Hrec;
      [by exists albums | by apply elem_of_nil in Hrec]. }
  right.
  assert (Hadd : da_ID a ∈ assetsToAdd (memberships evs) X (Assets group)).
  { apply elem_of_assetsToAdd. by exists a. }
  assert (Hp : (X, assetsToAdd (memberships evs) X (Assets group))
               ∈ planned (memberships evs) group order).
  { apply elem_of_planned. split_and!; [by apply Hin | done |].
    unfold len. destruct (assetsToAdd _ X _); [by apply elem_of_nil in Hadd | simpl; lia]. }
  rewrite <- Hwet in Hp. apply list_elem_of_fmap in Hp as ([[X' ids] res] & [= <- <-] & Hcall).
  exists (assetsToAdd (memberships evs) X (Assets group)), res.
  split; [by apply elem_of_addCalls | done].
Qed.

Lemma addedPairs_accepted evs :
  (∀ albumID assetIDs res, CallAddAssets albumID assetIDs res ∈ evs → res = None) →
  addedPairs evs = attemptedPairs evs.
Proof.
  intros Hall. unfold addedPairs, attemptedPairs. f_equal.
  assert (Hcalls : ∀ call, call ∈ addCalls evs → accepted call = true).
  { intros [[X ids] res] Hin. apply elem_of_addCalls in Hin.
    rewrite (Hall X ids res Hin). done. }
  induction (addCalls evs) as [|call calls IH]; [done |].
  rewrite filter_cons_True by (apply Hcalls; left).
  f_equal. apply IH. intros call' Hin. apply Hcalls. by right.
Qed.

(** C8: the reconciler issues the additions that are needed and returns
    their number.  Assets that the server reports in the same albums: no
    write, count 0.  A group of two where [a] is in album [X] and [b] is
    not (their albums being otherwise the same): count 1, with exactly one
    write, [b] into [X], in normal mode when the server accepts it, and no
    write in preview mode.  Always, in normal mode: the count is the number
    of (asset, album) pairs in the accepted writes (as a Go [int]).  And
    in general the writes are the additions needed, no more and no fewer.
    A write goes to an album that some asset of the group was reported
    in, at most one write per album; it is never empty and carries exactly
    the assets of the group that are not on record as members of that
    album.  In normal mode every asset of the group that is not on record
    in an album reported for the group is part of a write to that album,
    and when the server accepts every write the count is the number of
    (asset, album) pairs written. *)
Theorem additions_are_counted config group w :
  fair_range →
  let o := synchronizeAlbums config group w in
  (∀ shared : gset string,
     (∀ asset, asset ∈ Assets group → reports config shared asset) →
     value o = Some (0, None) ∧ addCalls (events o) = [])
  ∧ (∀ a b albumsA albumsB X,
       Assets group = [a; b] → da_ID a ≠ da_ID b →
       answers config a albumsA → answers config b albumsB →
       X ∈ album_ID <$> albumsA → X ∉ album_ID <$> albumsB →
       (∀ Y, Y ≠ X → Y ∈ album_ID <$> albumsA ↔ Y ∈ album_ID <$> albumsB) →
       (DryRun config = true → value o = Some (1, None) ∧ addCalls (events o) = [])
       ∧ (DryRun config = false → accepts config X [da_ID b] →
            value o = Some (1, None)
            ∧ addCalls (events o) = [(X, [da_ID b], None)]))
  ∧ (DryRun config = false →
       value o = Some (wrapInt (addedPairs (events o)), None)
       ∧ (addedPairs (events o) < 2^63 →
            value o = Some (addedPairs (events o), None)))
  ∧ (NoDup (addCalls (events o)).*1.*1
     ∧ ∀ albumID assetIDs res, CallAddAssets albumID assetIDs res ∈ events o →
         reported (events o) albumID ∧ assetIDs ≠ []
         ∧ ∀ assetID, assetID ∈ assetIDs
             ↔ assetID ∈ da_ID <$> Assets group
               ∧ ¬ recorded (memberships (events o)) assetID albumID)
  ∧ (DryRun config = false →
       (∀ albumID asset, reported (events o) albumID → asset ∈ Assets group →
          recorded (memberships (events o)) (da_ID asset) albumID
          ∨ ∃ assetIDs res, CallAddAssets albumID assetIDs res ∈ events o
              ∧ da_ID asset ∈ assetIDs)
       ∧ ((∀ albumID assetIDs res, CallAddAssets albumID assetIDs res ∈ events o →
             res = None) →
          value o = Some (wrapInt (attemptedPairs (events o)), None))).
Proof.
  intros Hfair o. split; [| split; [| split; [| split]]].
  - intros shared Hrep. by apply (sync_shared config group shared).
  - intros a b albumsA albumsB X Hgroup Hab HA HB HXA HXB Hsame.
    by apply (sync_one_missing config group a b albumsA albumsB X w).
  - intros Hmode. pose proof (sync_count config group w Hmode) as Hc.
    split; [done |]. intros Hsmall. subst o. rewrite Hc. do 2 f_equal.
    apply wrapInt_small. split; [| done].
    pose proof (countPairs_nonneg
      (filter (fun call => accepted call = true)
         (addCalls (events (synchronizeAlbums config group w))))).
    unfold addedPairs. lia.
  - by apply writes_are_needed.
  - intros Hmode. split; [by apply needed_are_written |].
    intros Hall. pose proof (sync_count config group w Hmode) as Hc.
    subst o. rewrite Hc. by rewrite (addedPairs_accepted _ Hall).
Qed.

Lemma sync_events config group w :
  Forall synchronizes (events (synchronizeAlbums config group w)).
Proof.
  destruct (sync_summary config group w)
    as (order & reads & writes & Hev & Hreads & Hwrites & _).
  rewrite Hev. apply Forall_app.
  split; (eapply Forall_impl; [done |]); by intros ? [].
Qed.

(** X10: [synchronizeAlbums] reads the albums of every asset of the
    group exactly once, in the order of the group, also after a failed
    read; all reads come before the first write; and it does nothing but
    read albums, write to albums and log: no details are read, nothing is
    deleted, nothing is asked. *)
Theorem albums_are_read_once_then_written config group w :
  let evs := events (synchronizeAlbums config group w) in
  albumFetches evs = da_ID <$> Assets group
  ∧ Forall synchronizes evs
  ∧ ∃ reads writes, evs = reads ++ writes
      ∧ Forall (fun e => isAddCall e = false) reads
      ∧ Forall (fun e => isGetAlbums e = false) writes.
Proof.
  cbv zeta. destruct (sync_summary config group w)
    as (order & reads & writes & Hev & Hreads & Hwrites & Hids & _).
  split_and!; [done | apply sync_events |].
  - exists reads, writes. split_and!; [done | |];
      (eapply Forall_impl; [done |]); by intros ? [].
Qed.

(** X11: when a range over a map visits each key once, each album is written to at most once per group, and a write
    is never empty: it carries exactly the assets of the group that are
    not on record as members of the album. *)
Theorem one_write_per_album config group w :
  fair_range →
  let evs := events (synchronizeAlbums config group w) in
  NoDup (addCalls evs).*1.*1
  ∧ ∀ albumID assetIDs res, CallAddAssets albumID assetIDs res ∈ evs →
      assetIDs ≠ []
      ∧ ∀ assetID, assetID ∈ assetIDs
          ↔ assetID ∈ da_ID <$> Assets group
            ∧ ¬ recorded (memberships evs) assetID albumID.
Proof.
  intros Hfair evs. subst evs.
  destruct (sync_summary config group w)
    as (order & _ & _ & _ & _ & _ & _ & Horder & Hdry & Hwet).
  destruct (Horder Hfair) as [Hnd _].
  destruct (DryRun config) eqn:Hmode.
  { rewrite (Hdry eq_refl). split; [constructor |].
    intros X ids res Hin. apply elem_of_addCalls in Hin. rewrite (Hdry eq_refl) in Hin.
    by apply elem_of_nil in Hin. }
  specialize (Hwet eq_refl). split.
  - rewrite Hwet, planned_albums. by apply NoDup_filter.
  - intros X ids res Hin. apply elem_of_addCalls in Hin.
    assert (Hp : (X, ids) ∈ (addCalls (events (synchronizeAlbums config group w))).*1).
    { apply list_elem_of_fmap. by exists (X, ids, res). }
    rewrite Hwet in Hp. apply elem_of_planned in Hp as (_ & -> & Hpos). split.
    + intros Hnil. rewrite Hnil in Hpos. done.
    + intros id. rewrite elem_of_assetsToAdd, list_elem_of_fmap. split.
      * intros (a & Ha & -> & Hno). split; [by exists a | by apply not_recorded].
      * intros [(a & -> & Ha) Hno]. exists a. split_and!; [done | done |].
        by apply not_recorded.
Qed.

(** X12: when a range over a map visits each key once: in normal mode, for every album that some asset of the group
    was reported in and every asset of the group, the asset is on record
    as a member of the album or is part of a write to that album. *)
Theorem every_reported_album_gets_every_asset config group w :
  fair_range → DryRun config = false →
  let evs := events (synchronizeAlbums config group w) in
  ∀ albumID asset, reported evs albumID → asset ∈ Assets group →
    recorded (memberships evs) (da_ID asset) albumID
    ∨ ∃ assetIDs res, CallAddAssets albumID assetIDs res ∈ evs
        ∧ da_ID asset ∈ assetIDs.
Proof.
  intros Hfair Hmode evs X a HX Ha. subst evs.
  destruct (sync_summary config group w)
    as (order & _ & _ & _ & _ & _ & _ & Horder & _ & Hwet).
  destruct (Horder Hfair) as [_ Hin]. specialize (Hwet Hmode).
  set (evs := events (synchronizeAlbums config group w)) in *.
  destruct (inAlbum (default [] (memberships evs !! da_ID a)) X) eqn:Hrec.
  { left. apply inAlbum_spec in Hrec. unfold recorded.
    destruct (memberships evs !! da_ID a) as [albums |]; simpl in Hrec;
      [by exists albums | by apply elem_of_nil in Hrec]. }
  right.
  assert (Hadd : da_ID a ∈ assetsToAdd (memberships evs) X (Assets group)).
  { apply elem_of_assetsToAdd. by exists a. }
  assert (Hp : (X, assetsToAdd (memberships evs) X (Assets group))
               ∈ planned (memberships evs) group order).
  { apply elem_of_planned. split_and!; [by apply Hin | done |].
    unfold len. destruct (assetsToAdd _ X _); [by apply elem_of_nil in Hadd | simpl; lia]. }
  rewrite <- Hwet in Hp. apply list_elem_of_fmap in Hp as ([[X' ids] res] & [= <- <-] & Hcall).
  exists (assetsToAdd (memberships evs) X (Assets group)), res.
  split; [by apply elem_of_addCalls | done].
Qed.

End Synchronization.

(** ** The group processor *)

Section Group.
Context {U : UnicodeTables} {World : Type} {E : Environment World}.
Implicit Types (config : Config) (group : DuplicateGroup) (w : World)
  (evs : list Event).

Lemma deletion_events config group w :
  Forall removes (events (autoDeleteDuplicates config group w)).
Proof.
  destruct (deletion_run config group w) as (pre & Hpre & _ & Hcases).
  assert (Hreads : Forall removes pre).
  { eapply Forall_impl; [exact Hpre |]. by intros [| | | | |[] []]. }
  destruct Hcases as [(-> & _) | (best & dbest & keys & w' & _ & _ & _ & _ & _ & _ & _ & _
                                   & [(_ & -> & _) | (_ & -> & _)])]; [done | |].
  - apply Forall_app. split; [done | by repeat constructor].
  - apply Forall_app. split; [done |].
    destruct (confirmAndDelete_run config (othersThan best keys) w') as (_ & Hdel & _).
    eapply Forall_impl; [exact Hdel |]. by intros [| | | | |[] []].
Qed.

(** The run of [processDuplicateGroup]: a group of fewer than two assets
    is skipped; otherwise the albums are synchronized, the count returned
    is logged, and the deletion pass follows when it is enabled. *)
Lemma process_steps config groupNum totalGroups group w :
  let o := processDuplicateGroup config groupNum totalGroups group w in
  let header := Logged Info (ProcessingGroup groupNum totalGroups (len (Assets group))) in
  let s := synchronizeAlbums config group w in
  let d := autoDeleteDuplicates config group (after s) in
  (len (Assets group) < 2
   ∧ o = {| value := Some None; after := w;
            events := [header; Logged Warning SkippingGroup] |})
  ∨ (2 ≤ len (Assets group)
     ∧ ∃ c, value s = Some (c, None)
         ∧ ((AutoDelete config = false ∧ value o = Some None
             ∧ events o
               = (header :: events s
                  ++ [Logged Info (if 0 <? c then Synchronized c else AlreadySynchronized)])
                 ++ [])
            ∨ (AutoDelete config = true
               ∧ events o
                 = (header :: events s
                    ++ [Logged Info (if 0 <? c then Synchronized c
                                     else AlreadySynchronized)])
                   ++ events d
               ∧ value o = match value d with
                           | Some (Some e) => Some (Some (wrapError "auto-delete failed: " e))
                           | Some None => Some None
                           | None => None
                           end))).
Proof.
  cbv zeta. unfold processDuplicateGroup.
  rewrite (bind_Some (logInfo _) _ _ tt eq_refl). cbn [logInfo emit value events after].
  destruct (Z.ltb_spec (len (Assets group)) 2) as [Hfew | Hmany]; [by left | right].
  split; [done |].
  destruct (sync_value config group w) as (c & Hc).
  rewrite (bind_Some _ _ _ _ Hc). cbn [value events after].
  set (s := synchronizeAlbums config group w) in *.
  exists c. split; [done |].
  assert (Hlog : ∀ w', (if 0 <? c then logInfo (Synchronized c)
                        else logInfo AlreadySynchronized) w'
                 = {| value := Some tt; after := w';
                      events := [Logged Info (if 0 <? c then Synchronized c
                                               else AlreadySynchronized)] |}).
  { intros w'. by destruct (0 <? c). }
  rewrite (bind_Some _ _ _ tt); [| by rewrite Hlog]. rewrite Hlog.
  cbn [value events after].
  destruct (AutoDelete config).
  - right. split; [done |]. rewrite value_bind, events_bind.
    set (d := autoDeleteDuplicates config group (after s)).
    split; [| by destruct (value d) as [[e |] |]].
    assert (match value d with
            | Some a =>
              events (match a with
                      | Some e => ret (Some (wrapError "auto-delete failed: " e))
                      | None => ret None
                      end (after d))
            | None => []
            end = []) as ->.
    { by destruct (value d) as [[e |] |]. }
    rewrite app_nil_r. cbn [app]. by rewrite <- app_assoc.
  - left. split_and!; [done | done |]. cbn [ret events]. by rewrite !app_nil_r.
Qed.

Lemma process_run config groupNum totalGroups group w :
  let o := processDuplicateGroup config groupNum totalGroups group w in
  let header := Logged Info (ProcessingGroup groupNum totalGroups (len (Assets group))) in
  let s := synchronizeAlbums config group w in
  let d := autoDeleteDuplicates config group (after s) in
  (len (Assets group) < 2
   ∧ o = {| value := Some None; after := w;
            events := [header; Logged Warning SkippingGroup] |})
  ∨ (2 ≤ len (Assets group)
     ∧ ∃ line, (line = AlreadySynchronized ∨ ∃ c, line = Synchronized c)
         ∧ ((AutoDelete config = false ∧ value o = Some None
             ∧ events o = (header :: events s ++ [Logged Info line]) ++ [])
            ∨ (AutoDelete config = true
               ∧ events o = (header :: events s ++ [Logged Info line]) ++ events d
               ∧ value o = match value d with
                           | Some (Some e) => Some (Some (wrapError "auto-delete failed: " e))
                           | Some None => Some None
                           | None => None
                           end))).
Proof.
  cbv zeta.
  destruct (process_steps config groupNum totalGroups group w)
    as [Hfew | (Hmany & c & _ & Hcases)]; [by left | right].
  split; [done |]. exists (if 0 <? c then Synchronized c else AlreadySynchronized).
  split; [destruct (0 <? c); eauto | done].
Qed.

Lemma group_value config groupNum totalGroups group w :
  ∃ r, value (processDuplicateGroup config groupNum totalGroups group w) = Some r
    ∧ (r = None ∨ r = Some (wrapError "auto-delete failed: " selectionError)).
Proof.
  destruct (process_run config groupNum totalGroups group w)
    as [[Hfew ->] | (Hmany & line & _ & [(_ & Hv & _) | (Hflag & _ & Hv)])].
  - exists None. by split; [| left].
  - exists None. by split; [| left].
  - rewrite Hv.
    destruct (deletion_value config group (after (synchronizeAlbums config group w)))
      as [-> | ->]; eexists; (split; [done |]); by eauto.
Qed.

(** X13: [processDuplicateGroup] never panics; it returns nil, or, with
    auto-delete enabled and at least two assets, the selection error
    wrapped as "auto-delete failed: ".  A group of fewer than two assets
    returns nil after logging only: no call is made. *)
Theorem group_fails_only_on_selection config groupNum totalGroups group w :
  let o := processDuplicateGroup config groupNum totalGroups group w in
  (value o = Some None
   ∨ (AutoDelete config = true ∧ 2 ≤ len (Assets group)
      ∧ value o = Some (Some (wrapError "auto-delete failed: " selectionError))))
  ∧ (len (Assets group) < 2 →
       value o = Some None ∧ Forall (fun e => isLog e = true) (events o)).
Proof.
  cbv zeta.
  destruct (process_run config groupNum totalGroups group w)
    as [[Hfew ->] | (Hmany & line & _ & [(_ & Hv & _) | (Hflag & _ & Hv)])].
  - split; [by left |]. intros _. split; [done | by repeat constructor].
  - split; [by left | lia].
  - split; [| lia]. rewrite Hv.
    destruct (deletion_value config group (after (synchronizeAlbums config group w)))
      as [-> | ->]; [by left | by right].
Qed.

(** X14: the trace of a group splits in two: a first part without any
    read of details, prompt, delete call or "would delete" line, and a
    second part without any read of or write to albums; without
    auto-delete the second part is empty.  So the albums are completed
    before anything is deleted. *)
Theorem album_writes_precede_deletions config groupNum totalGroups group w :
  let o := processDuplicateGroup config groupNum totalGroups group w in
  ∃ first second,
    events o = first ++ second
    ∧ Forall (fun e => isDeleteCall e = false ∧ isWouldDelete e = false
                       ∧ isPrompt e = false ∧ isGetDetails e = false) first
    ∧ Forall (fun e => isAddCall e = false ∧ isGetAlbums e = false) second
    ∧ (AutoDelete config = false → second = []).
Proof.
  cbv zeta.
  pose proof (sync_events config group w) as Hsync.
  assert (Hfirst : ∀ line, (line = AlreadySynchronized ∨ ∃ c, line = Synchronized c) →
            Forall (fun e => isDeleteCall e = false ∧ isWouldDelete e = false
                             ∧ isPrompt e = false ∧ isGetDetails e = false)
              (Logged Info (ProcessingGroup groupNum totalGroups (len (Assets group)))
               :: events (synchronizeAlbums config group w) ++ [Logged Info line])).
  { intros line Hline. constructor; [done |]. apply Forall_app. split.
    - eapply Forall_impl; [exact Hsync |]. by intros [| | | | |[] []].
    - constructor; [| constructor]. by destruct Hline as [-> | [c ->]]. }
  destruct (process_run config groupNum totalGroups group w)
    as [[Hfew ->] | (Hmany & line & Hline & [(Hflag & _ & ->) | (Hflag & -> & _)])].
  - eexists _, []. rewrite app_nil_r. split_and!; [done | | constructor | done].
    by repeat constructor.
  - eexists _, []. split_and!; [done | by apply Hfirst | constructor | done].
  - eexists _, _. split_and!; [done | by apply Hfirst | | congruence].
    eapply Forall_impl; [apply deletion_events |]. by intros [| | | | |[] []].
Qed.

Lemma addedPairs_rejected evs :
  (∀ albumID assetIDs res, CallAddAssets albumID assetIDs res ∈ evs → res ≠ None) →
  addedPairs evs = 0.
Proof.
  intros Hall. unfold addedPairs.
  assert (Hcalls : ∀ call, call ∈ addCalls evs → accepted call ≠ true).
  { intros [[X ids] res] Hin. apply elem_of_addCalls in Hin.
    specialize (Hall X ids res Hin). unfold accepted. simpl. by destruct res. }
  induction (addCalls evs) as [|call calls IH]; [done |].
  rewrite filter_cons_False by (apply Hcalls; left).
  apply IH. intros call' Hin. apply Hcalls. by right.
Qed.

Lemma addedPairs_none evs :
  Forall (fun e => isAddCall e = false) evs → addedPairs evs = 0.
Proof. intros Hno. unfold addedPairs. by rewrite (addCalls_none evs Hno). Qed.

(** X23: in normal mode, what a group of at least two assets logs
    about its albums follows the accepted writes only.  With [n] the
    number of (asset, album) pairs in the writes the server accepted (as a
    Go [int]), the group logs "Synchronized n asset(s)" when [n] is
    positive and "Albums already synchronized" otherwise, and no other
    such line.  So a group whose writes the server rejected, all of them,
    is logged as already synchronized. *)
Theorem synchronized_line_counts_accepted_pairs config groupNum totalGroups group w :
  DryRun config = false → 2 ≤ len (Assets group) →
  let o := processDuplicateGroup config groupNum totalGroups group w in
  let n := wrapInt (addedPairs (events o)) in
  (∀ c, Logged Info (Synchronized c) ∈ events o ↔ c = n ∧ 0 < n)
  ∧ (Logged Info AlreadySynchronized ∈ events o ↔ n ≤ 0)
  ∧ ((∀ albumID assetIDs res, CallAddAssets albumID assetIDs res ∈ events o →
        res ≠ None) →
     Logged Info AlreadySynchronized ∈ events o).
Proof.
  intros Hmode Hmany o n. subst o n.
  pose proof (sync_events config group w) as Hsync.
  pose proof (sync_count config group w Hmode) as Hcount. cbv zeta in Hcount.
  set (s := synchronizeAlbums config group w) in *.
  assert (Hshape : ∃ c tail,
            value s = Some (c, None)
            ∧ events (processDuplicateGroup config groupNum totalGroups group w)
              = (Logged Info (ProcessingGroup groupNum totalGroups (len (Assets group)))
                 :: events s
                 ++ [Logged Info (if 0 <? c then Synchronized c else AlreadySynchronized)])
                ++ tail
            ∧ Forall removes tail).
  { destruct (process_steps config groupNum totalGroups group w)
      as [[Hfew _] | (_ & c & Hc & [(_ & _ & Hev) | (_ & Hev & _)])]; [lia | |].
    - exists c, []. split_and!; [done | done | constructor].
    - exists c, (events (autoDeleteDuplicates config group (after s))).
      split_and!; [done | done | apply deletion_events]. }
  destruct Hshape as (c & tail & Hc & Hev & Htail).
  rewrite Hcount in Hc. injection Hc as <-.
  set (c := wrapInt (addedPairs (events s))) in *.
  assert (Hpairs : addedPairs (events (processDuplicateGroup config groupNum totalGroups
                                         group w)) = addedPairs (events s)).
  { rewrite Hev, addedPairs_app, (addedPairs_none tail).
    2: { eapply Forall_impl; [exact Htail |]. by intros [| | | | |[] []]. }
    change (addedPairs (?h :: events s ++ ?l)) with (addedPairs ([h] ++ events s ++ l)).
    rewrite !addedPairs_app. unfold addedPairs at 1 3. simpl. lia. }
  rewrite Hpairs. fold c.
  assert (Hin : ∀ line, (line = AlreadySynchronized ∨ ∃ c', line = Synchronized c') →
            Logged Info line
            ∈ events (processDuplicateGroup config groupNum totalGroups group w)
            ↔ line = (if 0 <? c then Synchronized c else AlreadySynchronized)).
  { intros line Hline. rewrite Hev. split.
    - intros [Hin | Hin]%elem_of_app.
      + apply elem_of_cons in Hin as [Hin | Hin];
          [by destruct Hline as [-> | [c' ->]] |].
        apply elem_of_app in Hin as [Hin | Hin].
        * rewrite Forall_forall in Hsync. apply Hsync in Hin.
          by destruct Hline as [-> | [c' ->]].
        * apply list_elem_of_singleton in Hin. by injection Hin.
      + rewrite Forall_forall in Htail. apply Htail in Hin.
        by destruct Hline as [-> | [c' ->]].
    - intros ->. apply elem_of_app. left. right. apply elem_of_app. right. left. }
  assert (Hzero : Logged Info AlreadySynchronized
                  ∈ events (processDuplicateGroup config groupNum totalGroups group w)
                  ↔ c ≤ 0).
  { rewrite Hin by (by left). destruct (Z.ltb_spec 0 c); split; (done || lia). }
  split_and!.
  - intros c'. rewrite Hin by (right; by exists c').
    destruct (Z.ltb_spec 0 c); split.
    + intros [= ->]. done.
    + by intros [-> _].
    + done.
    + intros [_ ?]. lia.
  - exact Hzero.
  - intros Hall. apply Hzero. subst c.
    rewrite <- Hpairs, (addedPairs_rejected _ Hall). by rewrite wrapInt_0.
Qed.

Lemma preview_is_read_only config groupNum totalGroups group w :
  DryRun config = true →
  Forall (fun e => isAddCall e = false ∧ isDeleteCall e = false ∧ isPrompt e = false)
    (events (processDuplicateGroup config groupNum totalGroups group w)).
Proof.
  intros Hmode.
  assert (Hsync : Forall (fun e => isAddCall e = false ∧ isDeleteCall e = false
                                   ∧ isPrompt e = false)
                    (events (synchronizeAlbums config group w))).
  { destruct (sync_summary config group w)
      as (order & reads & writes & Hev & Hreads & Hwrites & _ & _ & Hdry & _).
    specialize (Hdry Hmode). rewrite Forall_forall. intros e He.
    assert (Hs : synchronizes e).
    { rewrite Hev in He. apply elem_of_app in He as [He | He];
        [rewrite Forall_forall in Hreads; by apply Hreads in He as [_ ?]
        | rewrite Forall_forall in Hwrites; by apply Hwrites in He as [_ ?]]. }
    destruct e as [| | X ids res | | |]; try done.
    apply elem_of_addCalls in He. rewrite Hdry in He. by apply elem_of_nil in He. }
  assert (Hdel : ∀ w', Forall (fun e => isAddCall e = false ∧ isDeleteCall e = false
                                        ∧ isPrompt e = false)
                         (events (autoDeleteDuplicates config group w'))).
  { intros w'. rewrite Forall_forall. intros e He.
    pose proof (deletion_events config group w') as Hrem.
    rewrite Forall_forall in Hrem. specialize (Hrem e He).
    destruct (deletion_summary config group w')
      as (_ & [(Hd & _ & Hp & _) | (best & dbest & keys & _ & _ & _ & _ & _ & _ & _ & _ & _
                                    & _ & _ & _ & Hp & Hdry & _)]).
    - destruct e as [| | | id res | n res |]; try done.
      + assert (Hin : id ∈ deleteCalls (events (autoDeleteDuplicates config group w'))).
        { apply list_elem_of_omap. by exists (CallDelete id res). }
        rewrite Hd in Hin. by apply elem_of_nil in Hin.
      + assert (Hin : n ∈ promptedCounts (events (autoDeleteDuplicates config group w'))).
        { apply list_elem_of_omap. by exists (AskOperator n res). }
        rewrite Hp in Hin. by apply elem_of_nil in Hin.
    - destruct (Hdry Hmode) as [Hd _]. specialize (Hp (or_intror Hmode)).
      destruct e as [| | | id res | n res |]; try done.
      + assert (Hin : id ∈ deleteCalls (events (autoDeleteDuplicates config group w'))).
        { apply list_elem_of_omap. by exists (CallDelete id res). }
        rewrite Hd in Hin. by apply elem_of_nil in Hin.
      + assert (Hin : n ∈ promptedCounts (events (autoDeleteDuplicates config group w'))).
        { apply list_elem_of_omap. by exists (AskOperator n res). }
        rewrite Hp in Hin. by apply elem_of_nil in Hin. }
  destruct (process_run config groupNum totalGroups group w)
    as [[Hfew ->] | (Hmany & line & Hline & [(Hflag & _ & ->) | (Hflag & -> & _)])].
  - by repeat constructor.
  - rewrite app_nil_r. constructor; [done |]. apply Forall_app. split; [done |].
    by repeat constructor.
  - apply Forall_app. split; [| apply Hdel].
    constructor; [done |]. apply Forall_app. split; [done |]. by repeat constructor.
Qed.

Lemma group_header config groupNum totalGroups group w :
  omap (fun e => match e with
                 | Logged Info (ProcessingGroup n t a) => Some (n, t, a)
                 | _ => None
                 end) (events (processDuplicateGroup config groupNum totalGroups group w))
  = [(groupNum, totalGroups, len (Assets group))].
Proof.
  assert (Hnone : ∀ evs, Forall (fun e => synchronizes e ∨ removes e
                                         ∨ (∃ lvl, e = Logged lvl SkippingGroup)
                                         ∨ e = Logged Info AlreadySynchronized
                                         ∨ ∃ c, e = Logged Info (Synchronized c)) evs →
            omap (fun e => match e with
                           | Logged Info (ProcessingGroup n t a) => Some (n, t, a)
                           | _ => None
                           end) evs = []).
  { induction 1 as [|e evs He _ IH]; [done |]. cbn [omap list_omap]. rewrite IH.
    destruct He as [He | [He | [[lvl ->] | [-> | [c ->]]]]];
      [by destruct e as [| | | | |[] []] | by destruct e as [| | | | |[] []]
      | by destruct lvl | done | done]. }
  pose proof (sync_events config group w) as Hsync.
  destruct (process_run config groupNum totalGroups group w)
    as [[Hfew ->] | (Hmany & line & Hline & [(Hflag & _ & ->) | (Hflag & -> & _)])].
  - done.
  - rewrite app_nil_r. cbn [omap list_omap]. rewrite Hnone; [done |].
    apply Forall_app. split; [eapply Forall_impl; [exact Hsync |]; by left |].
    constructor; [| constructor]. destruct Hline as [-> | [c ->]]; eauto 10.
  - cbn [omap list_omap app]. rewrite Hnone; [done |].
    apply Forall_app. split.
    + apply Forall_app. split; [eapply Forall_impl; [exact Hsync |]; by left |].
      constructor; [| constructor]. destruct Hline as [-> | [c ->]]; eauto 10.
    + eapply Forall_impl; [apply deletion_events |]. intros; by right; left.
Qed.

End Group.

(** ** The run *)

Section Run.
Context {U : UnicodeTables} {World : Type} {E : Environment World} {L : Listing World}.
Implicit Types (config : Config) (group : DuplicateGroup) (w : World).

Lemma groupHeaders_app evs1 evs2 :
  groupHeaders (evs1 ++ evs2) = groupHeaders evs1 ++ groupHeaders evs2.
Proof. apply omap_app. Qed.

Lemma engineEvents_app evs1 evs2 :
  engineEvents (evs1 ++ evs2) = engineEvents evs1 ++ engineEvents evs2.
Proof. apply omap_app. Qed.

Lemma listingCalls_app evs1 evs2 :
  listingCalls (evs1 ++ evs2) = listingCalls evs1 ++ listingCalls evs2.
Proof. apply omap_app. Qed.

Lemma failedGroups_app evs1 evs2 :
  failedGroups (evs1 ++ evs2) = failedGroups evs1 ++ failedGroups evs2.
Proof. apply omap_app. Qed.

Lemma engine_project (evs : list Event) :
  engineEvents (Engine <$> evs) = evs
  ∧ listingCalls (Engine <$> evs) = []
  ∧ failedGroups (Engine <$> evs) = []
  ∧ groupHeaders (Engine <$> evs)
    = omap (fun e => match e with
                     | Logged Info (ProcessingGroup n t a) => Some (n, t, a)
                     | _ => None
                     end) evs.
Proof.
  induction evs as [|e evs (IHe & IHl & IHf & IHg)]; [done |].
  unfold engineEvents, listingCalls, failedGroups, groupHeaders in *.
  rewrite fmap_cons. cbn [omap list_omap]. rewrite IHe, IHl, IHf, IHg.
  by split_and!.
Qed.

(** The loop over the groups runs to its end, whatever the groups
    return. *)
Lemma groupsLoop_run config total i groups w :
  ∃ w' evs,
    groupsLoop config total i groups w = (true, w', evs)
    ∧ groupHeaders evs
      = imap (fun k group => (i + Z.of_nat k + 1, total, len (Assets group))) groups
    ∧ listingCalls evs = []
    ∧ (∀ n e, (n, e) ∈ failedGroups evs →
         e = wrapError "auto-delete failed: " selectionError
         ∧ i + 1 ≤ n ≤ i + len groups)
    ∧ (∀ P : Event → Prop,
         (∀ n group w, Forall P (events (processDuplicateGroup config n total group w))) →
         Forall P (engineEvents evs)).
Proof.
  revert i w. induction groups as [|group groups IH]; intros i w.
  { exists w, []. split_and!; [done | done | done | |].
    - intros n e Hin. by apply elem_of_nil in Hin.
    - intros P _. constructor. }
  cbn [groupsLoop]. cbv zeta.
  destruct (group_value config (i + 1) total group w) as (r & Hr & Hcases).
  rewrite Hr.
  destruct (IH (i + 1) (after (processDuplicateGroup config (i + 1) total group w)))
    as (w' & evs & -> & Hheaders & Hlist & Hfailed & Hall).
  destruct (engine_project (events (processDuplicateGroup config (i + 1) total group w)))
    as (Hpe & Hpl & Hpf & Hpg).
  eexists w', _. split; [reflexivity |].
  assert (Hlog : ∀ failed : list MainEvent,
            failed = match r with
                     | Some e => [MainLogged Error (GroupFailed (i + 1) e)]
                     | None => []
                     end →
            groupHeaders failed = [] ∧ listingCalls failed = []
            ∧ engineEvents failed = []
            ∧ ∀ n e, (n, e) ∈ failedGroups failed →
                e = wrapError "auto-delete failed: " selectionError ∧ n = i + 1).
  { intros failed ->. destruct Hcases as [-> | ->].
    - split_and!; try done. intros n e Hin. by apply elem_of_nil in Hin.
    - split_and!; try done. intros n e Hin.
      apply list_elem_of_singleton in Hin. by injection Hin as -> ->. }
  destruct (Hlog _ eq_refl) as (Hfg & Hfl & Hfe & Hff).
  rewrite !groupHeaders_app, !listingCalls_app, Hpl, Hpg, Hfg, Hfl, Hlist, Hheaders.
  split_and!.
  - rewrite group_header. cbn [app imap]. f_equal; [f_equal; f_equal; lia |].
    apply imap_ext. intros k g _. simpl. do 2 f_equal. lia.
  - done.
  - intros n e. rewrite !failedGroups_app, Hpf, !elem_of_app.
    assert (Hlen : len (group :: groups) = 1 + len groups).
    { unfold len. simpl length. lia. }
    assert (0 ≤ len groups) by (unfold len; lia).
    intros [Hin | [Hin | Hin]].
    + by apply elem_of_nil in Hin.
    + destruct (Hff n e Hin) as [-> ->]. split; [done | lia].
    + destruct (Hfailed n e Hin) as [-> ?]. split; [done | lia].
  - intros P HP. rewrite !engineEvents_app, Hpe, Hfe. apply Forall_app.
    split; [apply HP | by apply Hall].
Qed.

Lemma banner_project (evs : list MainEvent) :
  Forall (fun e => match e with
                   | MainLogged Info _ | MainLogged Warning _ => True
                   | _ => False
                   end) evs →
  groupHeaders evs = [] ∧ engineEvents evs = [] ∧ listingCalls evs = []
  ∧ failedGroups evs = [].
Proof.
  induction 1 as [|e evs He _ (IHg & IHe & IHl & IHf)]; [done |].
  unfold engineEvents, listingCalls, failedGroups, groupHeaders in *.
  cbn [omap list_omap]. rewrite IHe, IHl, IHf, IHg.
  by destruct e as [| [] |].
Qed.

(** The run of [main]: the two fatal exits, and the normal one. *)
Lemma main_run flags w :
  let o := main flags w in
  let config := (validateConfig flags).2 in
  match (validateConfig flags).1 with
  | Some e =>
    o = {| exit := Fatalf "Configuration error: " e; final := w; mainEvents := [] |}
  | None =>
    ∃ start,
      Forall (fun e => match e with
                       | MainLogged Info _ | MainLogged Warning _ => True
                       | _ => False
                       end) start
      ∧ match (duplicatesRequest (ImmichURL config) (APIKey config) w).1 with
        | Err e =>
          exit o = Fatalf "Failed to fetch duplicates: " e
          ∧ mainEvents o = start ++ [CallGetDuplicates (Err e)]
        | Ok duplicates =>
          exit o = Returns
          ∧ ∃ w1 w2 loop ending,
              groupsLoop config (len duplicates) 0 duplicates w1 = (true, w2, loop)
              ∧ Forall (fun e => match e with
                                 | MainLogged Info _ | MainLogged Warning _ => True
                                 | _ => False
                                 end) ending
              ∧ mainEvents o
                = start ++ [CallGetDuplicates (Ok duplicates);
                            MainLogged Info (FoundGroups (len duplicates))]
                  ++ loop ++ ending
        end
  end.
Proof.
  cbv zeta. unfold main.
  destruct (validateConfig flags) as [[e |] config]; [done |]. cbn [fst snd].
  assert (Hstart : Forall (fun e => match e with
                                    | MainLogged Info _ | MainLogged Warning _ => True
                                    | _ => False
                                    end)
                     ([MainLogged Info Starting]
                      ++ (if DryRun config then [MainLogged Warning DryRunMode] else [])
                      ++ [MainLogged Info FetchingGroups])).
  { apply Forall_app. split; [by repeat constructor |].
    apply Forall_app. split; [destruct (DryRun config); by repeat constructor |].
    by repeat constructor. }
  eexists. split; [exact Hstart |].
  destruct (duplicatesRequest (ImmichURL config) (APIKey config) w) as [[duplicates | e] w1];
    cbn [fst]; [| done].
  destruct (Z.eqb_spec (len duplicates) 0) as [Hnone | Hsome].
  - assert (duplicates = []) as ->.
    { destruct duplicates; [done |]. unfold len in Hnone. simpl in Hnone. lia. }
    cbn [mainEvents exit]. split; [done |].
    exists w1, w1, [], [MainLogged Info NoDuplicatesFound].
    split_and!; [done | by repeat constructor | done].
  - destruct (groupsLoop_run config (len duplicates) 0 duplicates w1)
      as (w2 & loop & Hloop & _).
    rewrite Hloop. cbn [mainEvents exit]. split; [done |].
    exists w1, w2, loop.
    exists (MainLogged Info ProcessingComplete
            :: (if AutoDelete config then [] else [MainLogged Info AutoDeleteTip])).
    split_and!; [done | | done].
    constructor; [done |]. destruct (AutoDelete config); by repeat constructor.
Qed.

(** X15: [main] ends in one of three ways.  A rejected configuration is
    fatal before anything is logged or called.  A failed listing of the
    duplicate groups is fatal after that one call, before any group is
    looked at.  Otherwise [main] returns normally, whatever happens to the
    groups, having listed the groups once. *)
Theorem run_is_fatal_only_before_the_groups flags w :
  let o := main flags w in
  (∃ e, (validateConfig flags).1 = Some e
     ∧ exit o = Fatalf "Configuration error: " e
     ∧ mainEvents o = [] ∧ final o = w)
  ∨ (∃ e, (validateConfig flags).1 = None
       ∧ exit o = Fatalf "Failed to fetch duplicates: " e
       ∧ listingCalls (mainEvents o) = [Err e]
       ∧ engineEvents (mainEvents o) = [])
  ∨ (∃ duplicates, (validateConfig flags).1 = None
       ∧ exit o = Returns
       ∧ listingCalls (mainEvents o) = [Ok duplicates]).
Proof.
  cbv zeta. pose proof (main_run flags w) as Hrun. cbv zeta in Hrun.
  destruct ((validateConfig flags).1) as [e |] eqn:Hv.
  { left. exists e. by rewrite Hrun. }
  right. destruct Hrun as (start & Hstart & Hrun).
  destruct (banner_project start Hstart) as (Hsg & Hse & Hsl & Hsf).
  destruct ((duplicatesRequest _ _ w).1) as [duplicates | e].
  - right. exists duplicates.
    destruct Hrun as (-> & w1 & w2 & loop & ending & Hloop & Hending & ->).
    split_and!; [done | done |].
    destruct (groupsLoop_run (validateConfig flags).2 (len duplicates) 0 duplicates w1)
      as (w2' & loop' & Hloop' & _ & Hll & _).
    rewrite Hloop in Hloop'. injection Hloop' as _ <-.
    destruct (banner_project ending Hending) as (_ & _ & Hel & _).
    rewrite !listingCalls_app, Hsl, Hll, Hel. done.
  - left. exists e. destruct Hrun as (-> & ->).
    rewrite listingCalls_app, engineEvents_app, Hsl, Hse. done.
Qed.

(** X16: when the configuration is accepted and the listing succeeds,
    every group listed is processed exactly once, in the order of the
    listing, numbered from 1 with the number of groups as the total, also
    after a group has failed; and the only failure logged for a group is
    the wrapped selection error. *)
Theorem every_group_is_processed_in_order flags duplicates w :
  let config := (validateConfig flags).2 in
  (validateConfig flags).1 = None →
  (duplicatesRequest (ImmichURL config) (APIKey config) w).1 = Ok duplicates →
  let o := main flags w in
  exit o = Returns
  ∧ groupHeaders (mainEvents o)
    = imap (fun k group => (Z.of_nat k + 1, len duplicates, len (Assets group))) duplicates
  ∧ ∀ n e, (n, e) ∈ failedGroups (mainEvents o) →
      e = wrapError "auto-delete failed: " selectionError ∧ 1 ≤ n ≤ len duplicates.
Proof.
  intros config Hvalid Hlist o. subst o config.
  pose proof (main_run flags w) as Hrun. cbv zeta in Hrun.
  rewrite Hvalid in Hrun. destruct Hrun as (start & Hstart & Hrun).
  rewrite Hlist in Hrun.
  destruct Hrun as (-> & w1 & w2 & loop & ending & Hloop & Hending & ->).
  destruct (banner_project start Hstart) as (Hsg & Hse & Hsl & Hsf).
  destruct (banner_project ending Hending) as (Heg & Hee & Hel & Hef).
  destruct (groupsLoop_run (validateConfig flags).2 (len duplicates) 0 duplicates w1)
    as (w2' & loop' & Hloop' & Hheaders & _ & Hfailed & _).
  rewrite Hloop in Hloop'. injection Hloop' as _ <-.
  split_and!; [done | |].
  - rewrite !groupHeaders_app, Hsg, Heg, Hheaders, app_nil_r. simpl.
    apply imap_ext. intros k g _. simpl. do 2 f_equal.
  - intros n e. rewrite !failedGroups_app, Hsf, Hef, app_nil_r. simpl.
    intros Hin. destruct (Hfailed n e Hin) as [-> ?]. split; [done | lia].
Qed.

(** X17: with [--dry-run] a whole run makes no "add assets" call and no
    delete call, and asks the operator nothing. *)
Theorem preview_run_writes_nothing flags w :
  DryRun flags = true →
  Forall (fun e => isAddCall e = false ∧ isDeleteCall e = false ∧ isPrompt e = false)
    (engineEvents (mainEvents (main flags w))).
Proof.
  intros Hmode.
  pose proof (main_run flags w) as Hrun. cbv zeta in Hrun.
  assert (Hdry : (validateConfig flags).1 = None → DryRun (validateConfig flags).2 = true).
  { unfold validateConfig. repeat case_match; try done. }
  destruct ((validateConfig flags).1) as [e |] eqn:Hv.
  { rewrite Hrun. constructor. }
  destruct Hrun as (start & Hstart & Hrun).
  destruct (banner_project start Hstart) as (Hsg & Hse & Hsl & Hsf).
  destruct ((duplicatesRequest _ _ w).1) as [duplicates | e].
  - destruct Hrun as (_ & w1 & w2 & loop & ending & Hloop & Hending & ->).
    destruct (banner_project ending Hending) as (Heg & Hee & Hel & Hef).
    destruct (groupsLoop_run (validateConfig flags).2 (len duplicates) 0 duplicates w1)
      as (w2' & loop' & Hloop' & _ & _ & _ & Hall).
    rewrite Hloop in Hloop'. injection Hloop' as _ <-.
    rewrite !engineEvents_app, Hse, Hee, app_nil_r. simpl.
    apply Hall. intros n group w'. apply preview_is_read_only. by apply Hdry.
  - destruct Hrun as (_ & ->). rewrite engineEvents_app, Hse. constructor.
Qed.

End Run.

(** ** The HTTP helpers *)

Section Transport.
Context {World Stream : Type} {N : Http.Net World Stream}.
Import Http.

Lemma roundTrip_cases {A} method url header body (failed : error → A)
    (interpret : Response Stream → A) w :
  let x := roundTrip method url header body failed interpret w in
  let req := {| Method := method; URL := url; Header := header; Body := body |} in
  (∃ err, NewRequest_error method url = Some err
     ∧ x = {| answer := failed (wrapError "failed to create request: " err);
              world_after := w; sent := []; closeErrors := [] |})
  ∨ (NewRequest_error method url = None
     ∧ ((∃ err, (Do req w).1 = Err err
           ∧ x = {| answer := failed (wrapError "request failed: " err);
                    world_after := (Do req w).2; sent := [req]; closeErrors := [] |})
        ∨ (∃ resp, (Do req w).1 = Ok resp
             ∧ x = {| answer := interpret resp; world_after := (Do req w).2;
                      sent := [req]; closeErrors := closing resp |}))).
Proof.
  unfold roundTrip. destruct (NewRequest_error method url) as [err |]; [left; by exists err |].
  right. split; [done |].
  destruct (Do _ w) as [[resp | err] w']; simpl; [right; by exists resp | left; by exists err].
Qed.

Lemma delete_accepted config assetID w :
  answer (deleteAsset config assetID w) = None →
  ∃ jsonData resp,
    Marshal_delete assetID = Ok jsonData
    ∧ NewRequest_error "DELETE" (ImmichURL config +:+ "/api/assets") = None
    ∧ (Do (writeRequest config "DELETE" "/api/assets" jsonData) w).1 = Ok resp
    ∧ (StatusCode resp = 204 ∨ StatusCode resp = 200).
Proof.
  unfold deleteAsset. destruct (Marshal_delete assetID) as [jsonData | err]; [| done].
  match goal with |- answer (roundTrip ?m ?u ?h ?b ?f ?i w) = _ → _ =>
    destruct (roundTrip_cases m u h b f i w)
      as [(err & Hnew & ->) | [Hnew [(err & Hdo & ->) | (resp & Hdo & ->)]]]
  end; cbn [answer]; [done | done |].
  unfold StatusNoContent, StatusOK. intros Hok. exists jsonData, resp.
  split_and!; [done | exact Hnew | exact Hdo |].
  destruct (Z.eqb_spec (StatusCode resp) 204); [by left |].
  destruct (Z.eqb_spec (StatusCode resp) 200); [by right | done].
Qed.

Lemma add_accepted config albumID assetIDs w :
  answer (addAssetsToAlbum config albumID assetIDs w) = None →
  ∃ jsonData resp,
    Marshal_AddAssetsRequest assetIDs = Ok jsonData
    ∧ NewRequest_error "PUT" (ImmichURL config +:+ "/api/albums/" +:+ albumID +:+ "/assets")
      = None
    ∧ (Do (writeRequest config "PUT" ("/api/albums/" +:+ albumID +:+ "/assets")
             jsonData) w).1 = Ok resp
    ∧ StatusCode resp = 200.
Proof.
  unfold addAssetsToAlbum.
  destruct (Marshal_AddAssetsRequest assetIDs) as [jsonData | err]; [| done].
  match goal with |- answer (roundTrip ?m ?u ?h ?b ?f ?i w) = _ → _ =>
    destruct (roundTrip_cases m u h b f i w)
      as [(err & Hnew & ->) | [Hnew [(err & Hdo & ->) | (resp & Hdo & ->)]]]
  end; cbn [answer]; [done | done |].
  unfold StatusOK. intros Hok. exists jsonData, resp.
  split_and!; [done | exact Hnew | exact Hdo |].
  by destruct (Z.eqb_spec (StatusCode resp) 200).
Qed.

(** X18: the helper [deleteAsset] returns nil exactly when the request
    body could be marshalled, the request could be built, the client
    returned a response to the DELETE request on [/api/assets], and the
    status of the response is 204 or 200. *)
Theorem deleteAsset_succeeds_iff config assetID w :
  answer (deleteAsset config assetID w) = None
  ↔ ∃ jsonData resp,
      Marshal_delete assetID = Ok jsonData
      ∧ NewRequest_error "DELETE" (ImmichURL config +:+ "/api/assets") = None
      ∧ (Do (writeRequest config "DELETE" "/api/assets" jsonData) w).1 = Ok resp
      ∧ (StatusCode resp = 204 ∨ StatusCode resp = 200).
Proof.
  split; [apply delete_accepted |].
  intros (jsonData & resp & Hm & Hnew & Hdo & Hst). unfold deleteAsset. rewrite Hm.
  match goal with |- answer (roundTrip ?m ?u ?h ?b ?f ?i w) = _ =>
    destruct (roundTrip_cases m u h b f i w)
      as [(err & Hnew' & ->) | [_ [(err & Hdo' & ->) | (resp' & Hdo' & ->)]]]
  end; cbn [answer].
  - pose proof (eq_trans (eq_sym Hnew') Hnew) as Hclash. discriminate Hclash.
  - pose proof (eq_trans (eq_sym Hdo') Hdo) as Hclash. discriminate Hclash.
  - pose proof (eq_trans (eq_sym Hdo') Hdo) as Hsame. injection Hsame as ->.
    unfold StatusNoContent, StatusOK. by destruct Hst as [-> | ->].
Qed.

(** X19: the helper [addAssetsToAlbum] returns nil exactly when the
    request body could be marshalled, the request could be built, the
    client returned a response to the PUT request on the assets of the
    album, and the status of the response is 200; any other status, 204
    included, is an error. *)
Theorem addAssetsToAlbum_succeeds_iff config albumID assetIDs w :
  (answer (addAssetsToAlbum config albumID assetIDs w) = None
   ↔ ∃ jsonData resp,
       Marshal_AddAssetsRequest assetIDs = Ok jsonData
       ∧ NewRequest_error "PUT" (ImmichURL config +:+ "/api/albums/" +:+ albumID +:+ "/assets")
         = None
       ∧ (Do (writeRequest config "PUT" ("/api/albums/" +:+ albumID +:+ "/assets")
                jsonData) w).1 = Ok resp
       ∧ StatusCode resp = 200)
  ∧ ∀ jsonData resp,
      Marshal_AddAssetsRequest assetIDs = Ok jsonData →
      (Do (writeRequest config "PUT" ("/api/albums/" +:+ albumID +:+ "/assets")
             jsonData) w).1 = Ok resp →
      StatusCode resp = 204 →
      answer (addAssetsToAlbum config albumID assetIDs w) ≠ None.
Proof.
  split; [split; [apply add_accepted |] |].
  - intros (jsonData & resp & Hm & Hnew & Hdo & Hst). unfold addAssetsToAlbum. rewrite Hm.
    match goal with |- answer (roundTrip ?m ?u ?h ?b ?f ?i w) = _ =>
      destruct (roundTrip_cases m u h b f i w)
        as [(err & Hnew' & ->) | [_ [(err & Hdo' & ->) | (resp' & Hdo' & ->)]]]
    end; cbn [answer].
    + pose proof (eq_trans (eq_sym Hnew') Hnew) as Hclash. discriminate Hclash.
    + pose proof (eq_trans (eq_sym Hdo') Hdo) as Hclash. discriminate Hclash.
    + pose proof (eq_trans (eq_sym Hdo') Hdo) as Hsame. injection Hsame as ->.
      unfold StatusOK. by rewrite Hst.
  - intros jsonData resp Hm Hdo Hst Hnone.
    apply add_accepted in Hnone as (j & resp' & Hm' & _ & Hdo' & Hst').
    rewrite Hm in Hm'. injection Hm' as <-.
    pose proof (eq_trans (eq_sym Hdo) Hdo') as Hsame. injection Hsame as <-. lia.
Qed.

Lemma read_iff {A} config path (decode : Stream → result A) w a :
  answer (roundTrip "GET" (ImmichURL config +:+ path)
            [("x-api-key", APIKey config); ("Accept", "application/json")] None Err
            (fun resp =>
               if negb (StatusCode resp =? StatusOK) then Err (statusError resp)
               else match decode (RespBody resp) with
                    | Err err => Err (wrapError "failed to decode response: " err)
                    | Ok v => Ok v
                    end) w) = Ok a
  ↔ ∃ resp, NewRequest_error "GET" (ImmichURL config +:+ path) = None
      ∧ (Do (getRequest config path) w).1 = Ok resp
      ∧ StatusCode resp = 200
      ∧ decode (RespBody resp) = Ok a.
Proof.
  match goal with |- answer (roundTrip ?m ?u ?h ?b ?f ?i w) = _ ↔ _ =>
    destruct (roundTrip_cases m u h b f i w)
      as [(err & Hnew & ->) | [Hnew [(err & Hdo & ->) | (resp & Hdo & ->)]]]
  end; cbn [answer].
  - split; [done |]. intros (? & Hnone & _). congruence.
  - split; [done |]. intros (resp & _ & Hok & _).
    pose proof (eq_trans (eq_sym Hdo) Hok) as Hclash. discriminate Hclash.
  - unfold StatusOK.
    destruct (Z.eqb_spec (StatusCode resp) 200) as [H200 | H200]; simpl.
    + destruct (decode (RespBody resp)) as [v | err] eqn:Hdec.
      * split.
        -- intros [= <-]. by exists resp.
        -- intros (resp' & _ & Hok & _ & Hdec').
           pose proof (eq_trans (eq_sym Hdo) Hok) as Hsame. injection Hsame as <-.
           congruence.
      * split; [done |]. intros (resp' & _ & Hok & _ & Hdec').
        pose proof (eq_trans (eq_sym Hdo) Hok) as Hsame. injection Hsame as <-.
        congruence.
    + split; [done |]. intros (resp' & _ & Hok & Hst & _).
      pose proof (eq_trans (eq_sym Hdo) Hok) as Hsame. injection Hsame as <-. lia.
Qed.

(** X20: each of the three reading helpers returns a value exactly when
    the request could be built, the client returned a response to the GET
    request, the status is 200 and the body decodes; the value is the
    decoded body. *)
Theorem reads_succeed_iff config assetID w :
  (∀ duplicates,
     answer (getDuplicates config w) = Ok duplicates
     ↔ ∃ resp, NewRequest_error "GET" (ImmichURL config +:+ "/api/duplicates") = None
         ∧ (Do (getRequest config "/api/duplicates") w).1 = Ok resp
         ∧ StatusCode resp = 200
         ∧ Decode_duplicates (RespBody resp) = Ok duplicates)
  ∧ (∀ albums,
       answer (getAlbumsForAsset config assetID w) = Ok albums
       ↔ ∃ resp, NewRequest_error "GET"
                   (ImmichURL config +:+ "/api/albums?assetId=" +:+ assetID) = None
           ∧ (Do (getRequest config ("/api/albums?assetId=" +:+ assetID)) w).1 = Ok resp
           ∧ StatusCode resp = 200
           ∧ Decode_albums (RespBody resp) = Ok albums)
  ∧ (∀ details,
       answer (getAssetDetails config assetID w) = Ok details
       ↔ ∃ resp, NewRequest_error "GET" (ImmichURL config +:+ "/api/assets/" +:+ assetID)
                 = None
           ∧ (Do (getRequest config ("/api/assets/" +:+ assetID)) w).1 = Ok resp
           ∧ StatusCode resp = 200
           ∧ Decode_details (RespBody resp) = Ok details).
Proof.
  split_and!.
  - intros duplicates. apply (read_iff config "/api/duplicates" Decode_duplicates).
  - intros albums.
    apply (read_iff config ("/api/albums?assetId=" +:+ assetID) Decode_albums).
  - intros details.
    apply (read_iff config ("/api/assets/" +:+ assetID) Decode_details).
Qed.

End Transport.

(** ** The engine over the HTTP helpers *)

Section Acknowledged.
Context {U : UnicodeTables} {World : Type} {E : Environment World}.
Implicit Types (config : Config) (group : DuplicateGroup) (w : World).

Lemma confirmAndDelete_answered config l w :
  Forall (answered config) (events (confirmAndDelete config l w)).
Proof.
  unfold confirmAndDelete. apply events_Forall_bind.
  - unfold confirmDeletion. destruct (negb (Yes config) && negb (DryRun config));
      [| constructor].
    unfold exchange, bind. destruct (Scanln w) as [[response | err] w']; simpl.
    + destruct (negb (EqualFold response "y") && negb (EqualFold response "yes"));
        by repeat constructor.
    + by repeat constructor.
  - intros [] _; [| constructor]. apply events_Forall_bind; [| intros; constructor].
    apply events_Forall_forEach. intros [] id w'. unfold deleteOne.
    destruct (DryRun config); [by repeat constructor |].
    unfold deleteAsset, exchange, bind.
    destruct (deleteRequest _ _ _ w') as [res w''] eqn:Hreq. 
    assert (Hres : answered config (CallDelete id res)).
    { exists w'. by rewrite Hreq. }
    destruct res; simpl; by repeat constructor.
Qed.

Lemma group_answered config groupNum totalGroups group w :
  Forall (answered config)
    (events (processDuplicateGroup config groupNum totalGroups group w)).
Proof.
  assert (Hsync : Forall (answered config) (events (synchronizeAlbums config group w))).
  { destruct (sync_run config group w) as (pre & order & w2 & s & Hpre & _ & _ & _ & _ & ->).
    apply Forall_app. split.
    - eapply Forall_impl; [exact Hpre |]. by intros [| | | | |] [].
    - destruct (sync_loop config group (memberships pre) order w2) as (c & _ & Hdry & Hwet).
      destruct (DryRun config).
      + destruct (Hdry eq_refl) as [_ Hlogs].
        eapply Forall_impl; [exact Hlogs |]. by intros [].
      + destruct (Hwet eq_refl) as (_ & _ & Hlogs).
        eapply Forall_impl; [exact Hlogs |]. by intros []. }
  assert (Hdel : ∀ w', Forall (answered config) (events (autoDeleteDuplicates config group w'))).
  { intros w'. destruct (deletion_run config group w') as (pre & Hpre & _ & Hcases).
    assert (Hreads : Forall (answered config) pre).
    { eapply Forall_impl; [exact Hpre |]. by intros []. }
    destruct Hcases as [(-> & _) | (best & dbest & keys & w'' & _ & _ & _ & _ & _ & _ & _ & _
                                     & [(_ & -> & _) | (_ & -> & _)])]; [done | |].
    - apply Forall_app. split; [done | by repeat constructor].
    - apply Forall_app. split; [done | apply confirmAndDelete_answered]. }
  destruct (process_run config groupNum totalGroups group w)
    as [[Hfew ->] | (Hmany & line & Hline & [(Hflag & _ & ->) | (Hflag & -> & _)])].
  - by repeat constructor.
  - rewrite app_nil_r. constructor; [done |]. apply Forall_app. split; [done |].
    by repeat constructor.
  - apply Forall_app. split; [| apply Hdel].
    constructor; [done |]. apply Forall_app. split; [done |]. by repeat constructor.
Qed.

End Acknowledged.

Section EndToEnd.
Context {U : UnicodeTables} {World Stream : Type} {N : Http.Net World Stream}.
Context (operator : World → result string * World)
        (runtime : list string → World → list string * World).
Import Http.

(** X22: with the HTTP helpers as the gateway, every delete call that a
    group's trace records as successful got a response with status 204 or
    200 to a DELETE request for that asset, and every "add assets" call
    recorded as successful got a response with status 200 to a PUT
    request for that album and those assets. *)
Theorem acknowledged_writes_were_accepted config groupNum totalGroups group w :
  let evs := events (processDuplicateGroup (E:=gateway operator runtime)
                       config groupNum totalGroups group w) in
  (∀ assetID, CallDelete assetID None ∈ evs →
     ∃ w' jsonData resp,
       Marshal_delete assetID = Ok jsonData
       ∧ (Do (writeRequest config "DELETE" "/api/assets" jsonData) w').1 = Ok resp
       ∧ (StatusCode resp = 204 ∨ StatusCode resp = 200))
  ∧ (∀ albumID assetIDs, CallAddAssets albumID assetIDs None ∈ evs →
       ∃ w' jsonData resp,
         Marshal_AddAssetsRequest assetIDs = Ok jsonData
         ∧ (Do (writeRequest config "PUT" ("/api/albums/" +:+ albumID +:+ "/assets")
                  jsonData) w').1 = Ok resp
         ∧ StatusCode resp = 200).
Proof.
  cbv zeta.
  pose proof (group_answered (E:=gateway operator runtime)
                config groupNum totalGroups group w) as Hall.
  rewrite Forall_forall in Hall. split.
  - intros id Hin. destruct (Hall _ Hin) as [w' Hres]. cbn in Hres. symmetry in Hres.
    apply delete_accepted in Hres as (jsonData & resp & Hm & _ & Hdo & Hst).
    by exists w', jsonData, resp.
  - intros X ids Hin. destruct (Hall _ Hin) as [w' Hres]. cbn in Hres. symmetry in Hres.
    apply add_accepted in Hres as (jsonData & resp & Hm & _ & Hdo & Hst).
    by exists w', jsonData, resp.
Qed.

End EndToEnd.

(** ** The statements on examples *)

Lemma range_of_example (entries : list (string * AssetDetails)) :
  bool_decide (NoDup entries.*1) = true → range_of (candidates entries) entries.
Proof.
  intros Hnodup. unfold range_of, candidates. rewrite map_to_list_to_map; [done |].
  by apply bool_decide_eq_true in Hnodup.
Defined.

Lemma range_of_swapped (x y : string * AssetDetails) :
  range_of (candidates [x; y]) [x; y] → range_of (candidates [x; y]) [y; x].
Proof. unfold range_of. intros <-. apply Permutation_swap. Defined.

Lemma candidates_elem (entries : list (string * AssetDetails)) k details :
  bool_decide (NoDup entries.*1) = true →
  candidates entries !! k = Some details → (k, details) ∈ entries.
Proof.
  intros Hnodup Hk. apply bool_decide_eq_true in Hnodup.
  by apply elem_of_list_to_map in Hk.
Defined.

Lemma isOriginalFilename_iff_no_camera_prefix_witness :
  (∃ p, p ∈ prefixes ∧ starts_with_ignoring_case "img_1234.jpg" p)
  ∧ ¬ (∃ p, p ∈ prefixes ∧ starts_with_ignoring_case "vacation_2023.jpg" p).
Proof.
  split.
  - destruct (isOriginalFilename_iff_no_camera_prefix (U:=ascii_only) "img_1234.jpg")
      as (_ & _ & Hascii & _).
    destruct (Hascii eq_refl) as [Hfalse _]. apply Hfalse. reflexivity.
  - destruct (isOriginalFilename_iff_no_camera_prefix (U:=ascii_only) "vacation_2023.jpg")
      as (_ & _ & Hascii & _).
    destruct (Hascii eq_refl) as [_ Htrue]. apply Htrue. reflexivity.
Defined.

Lemma strictly_largest_is_selected_witness :
  selectBestQualityAsset (U:=ascii_only) (candidates by_size) by_size = Some "asset2"
  ∧ selectBestQualityAsset (U:=ascii_only) (candidates by_size) (reverse by_size)
    = Some "asset2".
Proof.
  assert (Hmax : ∀ k details, candidates by_size !! k = Some details →
                   hasSize details = true → k ≠ "asset2" →
                   sizeOf details < 2000000).
  { intros k details Hk _ Hne. apply (candidates_elem by_size) in Hk; [| reflexivity].
    unfold by_size in Hk. rewrite !elem_of_cons, elem_of_nil in Hk.
    destruct Hk as [[= -> ->] | [[= -> ->] | []]]; [reflexivity | done]. }
  split.
  - apply (strictly_largest_is_selected (U:=ascii_only) (candidates by_size) by_size
             "asset2" (mkAsset "asset2" "photo.jpg" (Some 2000000) 0)).
    + apply range_of_example. reflexivity.
    + reflexivity.
    + reflexivity.
    + vm_compute. discriminate.
    + exact Hmax.
  - apply (strictly_largest_is_selected (U:=ascii_only) (candidates by_size)
             (reverse by_size)
             "asset2" (mkAsset "asset2" "photo.jpg" (Some 2000000) 0)).
    + apply range_of_swapped, range_of_example. reflexivity.
    + reflexivity.
    + reflexivity.
    + vm_compute. discriminate.
    + exact Hmax.
Defined.

(** C5 as stated fails when the candidate seen first is named by the
    empty string: [image.jpg] has the size and the class of [photo.jpg] and
    was created a day earlier, yet the first one stays. *)
Lemma unnamed_best_keeps_against_earlier :
  range_of (candidates unnamed_first) unnamed_first
  ∧ sizeOf (mkAsset "asset2" "image.jpg" (Some 1000000) 1)
    = sizeOf (mkAsset "" "photo.jpg" (Some 1000000) 2)
  ∧ isOriginalFilename (U:=ascii_only) "image.jpg"
    = isOriginalFilename (U:=ascii_only) "photo.jpg"
  ∧ Before 1 2 = true
  ∧ selectBestQualityAsset (U:=ascii_only) (candidates unnamed_first) unnamed_first
    = Some "".
Proof.
  split_and!; [| reflexivity ..]. apply range_of_example. reflexivity.
Qed.

Lemma earlier_wins_among_equals_witness :
  selectBestQualityAsset (U:=ascii_only) (candidates by_date) by_date = Some "asset2"
  ∧ selectBestQualityAsset (U:=ascii_only) (candidates full_tie) full_tie = Some "asset1".
Proof.
  split.
  - apply (earlier_wins_among_equals (U:=ascii_only) (candidates by_date)
             "asset1" "asset2"
             (mkAsset "asset1" "photo.jpg" (Some 1000000) 2)
             (mkAsset "asset2" "image.jpg" (Some 1000000) 1));
      [discriminate | reflexivity .. | vm_compute; discriminate].
  - apply (earlier_wins_among_equals (U:=ascii_only) (candidates full_tie)
             "asset1" "asset2"
             (mkAsset "asset1" "first.jpg" (Some 1000000) 1)
             (mkAsset "asset2" "second.jpg" (Some 1000000) 1));
      [discriminate | reflexivity .. | vm_compute; discriminate].
Defined.

(** C6 as stated fails when a candidate is named by the empty string: it
    has size metadata and is the one selected, and the result is the empty
    string all the same. *)
Lemma unnamed_asset_is_mistaken_for_none :
  range_of (candidates unnamed_alone) unnamed_alone
  ∧ ¬ no_size_metadata (candidates unnamed_alone)
  ∧ selectBestQualityAsset (U:=ascii_only) (candidates unnamed_alone) unnamed_alone
    = Some "".
Proof.
  split_and!; [| | reflexivity].
  - apply range_of_example. reflexivity.
  - intros Hno. by specialize (Hno "" (mkAsset "" "photo.jpg" (Some 1000000) 0) eq_refl).
Qed.

(** What the hypothesis on sizes is for: a size below zero is never larger
    than the initial [-1]. *)
Lemma negative_size_is_never_taken :
  selectBestQualityAsset (U:=ascii_only) (candidates negative_size) negative_size
  = Some "".
Proof. reflexivity. Qed.

Lemma none_iff_no_size_metadata_witness :
  selectBestQualityAsset (U:=ascii_only) (candidates one_unsized) one_unsized
  = selectBestQualityAsset (U:=ascii_only) (filter sized (candidates one_unsized))
      (filter sized one_unsized)
  ∧ ∃ r, selectBestQualityAsset (U:=ascii_only) (candidates one_unsized) one_unsized = Some r
      ∧ (r = "" ↔ no_size_metadata (candidates one_unsized)).
Proof.
  destruct (none_iff_no_size_metadata (U:=ascii_only) (candidates one_unsized) one_unsized)
    as (r & Hr & Hfiltered & _ & _ & Hiff).
  { apply range_of_example. reflexivity. }
  split; [by rewrite Hr, Hfiltered |].
  exists r. split; [done |]. apply Hiff.
  - intros k details exif Hk Hexif.
    apply (candidates_elem one_unsized) in Hk; [| reflexivity].
    unfold one_unsized in Hk. rewrite !elem_of_cons, elem_of_nil in Hk.
    destruct Hk as [[= -> ->] | [[= -> ->] | []]]; [done |].
    injection Hexif as <-. vm_compute. discriminate.
  - reflexivity.
Defined.



Lemma scripted_fair albums details addAnswer deleteAnswer operator :
  fair_range (E:=scripted albums details addAnswer deleteAnswer operator).
Proof. intros keys w. reflexivity. Defined.

Lemma server_B_fails_trace :
  events (synchronizeAlbums (E:=server_B_fails) (mkConfig false false false) group_AB tt)
  = [CallGetAlbums "A" (Ok [albumX]);
     CallGetAlbums "B" (Err (errorString "HTTP 500: "));
     Logged Warning (FetchAlbumsFailed "B" (errorString "HTTP 500: "));
     CallAddAssets "X" ["B"] None;
     Logged Info (Added 1 "X")].
Proof. vm_compute. reflexivity. Defined.

(** C2 as stated fails: the fetch for asset B fails, and B is the asset
    written into album X, and counted. *)
Lemma failed_fetch_asset_is_added :
  events (synchronizeAlbums (E:=server_B_fails) (mkConfig false false false) group_AB tt)
  = [CallGetAlbums "A" (Ok [albumX]);
     CallGetAlbums "B" (Err (errorString "HTTP 500: "));
     Logged Warning (FetchAlbumsFailed "B" (errorString "HTTP 500: "));
     CallAddAssets "X" ["B"] None;
     Logged Info (Added 1 "X")]
  ∧ value (synchronizeAlbums (E:=server_B_fails) (mkConfig false false false) group_AB tt)
    = Some (1, None).
Proof. split; vm_compute; reflexivity. Qed.

Lemma failed_fetch_joins_every_addition_witness :
  ∃ assetIDs res,
    CallAddAssets "X" assetIDs res
    ∈ events (synchronizeAlbums (E:=server_B_fails) (mkConfig false false false)
                group_AB tt)
    ∧ "B" ∈ assetIDs.
Proof.
  destruct (failed_fetch_joins_every_addition (E:=server_B_fails)
              (mkConfig false false false) group_AB tt (scripted_fair _ _ _ _ _))
    as (_ & _ & Hjoin).
  destruct (Hjoin eq_refl) as [_ Hall].
  change "B" with (da_ID (Build_DuplicateAsset "B")).
  apply (Hall (Build_DuplicateAsset "B")) with (id := "A") (albums := [albumX]).
  - right. left.
  - intros albums Hin. rewrite server_B_fails_trace in Hin.
    rewrite !elem_of_cons, elem_of_nil in Hin.
    destruct Hin as [Hin | [Hin | [Hin | [Hin | [Hin | []]]]]]; discriminate Hin.
  - rewrite server_B_fails_trace. left.
  - left.
Defined.

Lemma additions_are_counted_witness :
  (value (synchronizeAlbums (E:=server_shared) (mkConfig false false false) group_AB tt)
   = Some (0, None)
   ∧ addCalls (events (synchronizeAlbums (E:=server_shared) (mkConfig false false false)
                         group_AB tt)) = [])
  ∧ (value (synchronizeAlbums (E:=server_B_missing) (mkConfig false false false)
              group_AB tt)
     = Some (1, None)
     ∧ addCalls (events (synchronizeAlbums (E:=server_B_missing)
                           (mkConfig false false false) group_AB tt))
       = [("X", ["B"], None)]).
Proof.
  split.
  - destruct (additions_are_counted (E:=server_shared) (mkConfig false false false)
                group_AB tt (scripted_fair _ _ _ _ _)) as (Hshared & _ & _).
    apply (Hshared {["X"]}). intros asset _ w. exists [albumX]. split; [reflexivity |].
    intros albumID. simpl. rewrite list_elem_of_singleton, elem_of_singleton. reflexivity.
  - destruct (additions_are_counted (E:=server_B_missing) (mkConfig false false false)
                group_AB tt (scripted_fair _ _ _ _ _)) as (_ & Hone & _).
    destruct (Hone (Build_DuplicateAsset "A") (Build_DuplicateAsset "B") [albumX] [] "X")
      as [_ Hnormal].
    + reflexivity.
    + discriminate.
    + intros w. reflexivity.
    + intros w. reflexivity.
    + left.
    + simpl. apply not_elem_of_nil.
    + intros Y Hne. simpl. rewrite list_elem_of_singleton, elem_of_nil. tauto.
    + apply Hnormal; [reflexivity |]. intros w. reflexivity.
Defined.

Lemma preview_writes_nothing_and_counts_the_same_witness :
  value (synchronizeAlbums (E:=server_B_missing) (mkConfig true true false) group_AB tt)
  = value (synchronizeAlbums (E:=server_B_missing) (mkConfig true false false) group_AB tt)
  ∧ wouldDeletes (events (autoDeleteDuplicates (U:=ascii_only) (E:=server_B_missing)
                            (mkConfig true true false) group_AB tt))
    = truncateID <$>
      deleteCalls (events (autoDeleteDuplicates (U:=ascii_only) (E:=server_B_missing)
                             (mkConfig true false false) group_AB tt)).
Proof.
  destruct (preview_writes_nothing_and_counts_the_same (U:=ascii_only)
              (E:=server_B_missing) (mkConfig true false false) group_AB tt)
    as ((_ & _ & Hadd) & _ & _ & _ & Hdelete).
  split.
  - apply Hadd. intros albumID assetIDs w. reflexivity.
  - apply Hdelete. right. intros w. exists "y". split; reflexivity.
Defined.

Lemma validateConfig_trims_one_slash_witness :
  ImmichURL (validateConfig flags_preview).2 = "http://localhost:2283".
Proof.
  destruct (validateConfig_trims_one_slash flags_preview) as (_ & _ & Htrim & _).
  - discriminate.
  - discriminate.
  - apply (Htrim "http://localhost:2283"). reflexivity.
Defined.

Lemma deletion_needs_two_details_witness :
  value (autoDeleteDuplicates (U:=ascii_only) (E:=server_B_unknown)
           (mkConfig true false true) group_AB tt) = Some None
  ∧ deleteCalls (events (autoDeleteDuplicates (U:=ascii_only) (E:=server_B_unknown)
                           (mkConfig true false true) group_AB tt)) = [].
Proof.
  destruct (deletion_needs_two_details (U:=ascii_only) (E:=server_B_unknown)
              (mkConfig true false true) group_AB tt) as (Hv & Hd & _).
  - vm_compute. lia.
  - split; [exact Hv | exact Hd].
Defined.

Lemma deletion_trace :
  deleteCalls (events (autoDeleteDuplicates (U:=ascii_only) (E:=server_shared)
                         (mkConfig true false true) group_AB tt)) = ["B"].
Proof. vm_compute. reflexivity. Defined.

Lemma deleted_assets_are_not_better_witness :
  ∃ best dbest details,
    bestLines (events (autoDeleteDuplicates (U:=ascii_only) (E:=server_shared)
                         (mkConfig true false true) group_AB tt)) = [truncateID best]
    ∧ best ≠ "B"
    ∧ fetched (events (autoDeleteDuplicates (U:=ascii_only) (E:=server_shared)
                         (mkConfig true false true) group_AB tt)) !! best = Some dbest
    ∧ fetched (events (autoDeleteDuplicates (U:=ascii_only) (E:=server_shared)
                         (mkConfig true false true) group_AB tt)) !! "B" = Some details
    ∧ sizeOf details ≤ sizeOf dbest.
Proof.
  destruct (deleted_assets_are_not_better (U:=ascii_only) (E:=server_shared)
              (mkConfig true false true) group_AB tt (scripted_fair _ _ _ _ _) "B")
    as (best & dbest & details & Hline & Hne & _ & Hbest & Hdetails & _ & Hlargest).
  - rewrite deletion_trace. left.
  - exists best, dbest, details. split_and!; [exact Hline | exact Hne | exact Hbest
                                             | exact Hdetails |].
    apply (proj2 Hlargest "B" details Hdetails).
    assert (Hfetched : fetched (events (autoDeleteDuplicates (U:=ascii_only)
                         (E:=server_shared) (mkConfig true false true) group_AB tt)) !! "B"
                       = Some (mkAsset "B" "photo.jpg" (Some 1000000) 0)).
    { vm_compute. reflexivity. }
    rewrite Hfetched in Hdetails. injection Hdetails as <-. reflexivity.
Defined.

Lemma confirmed_deletion_leaves_one_witness :
  len (deleteCalls (events (autoDeleteDuplicates (U:=ascii_only) (E:=server_shared)
                              (mkConfig true false true) group_AB tt)))
  = Z.of_nat (size (fetched (events (autoDeleteDuplicates (U:=ascii_only)
                                       (E:=server_shared) (mkConfig true false true)
                                       group_AB tt)))) - 1.
Proof.
  destruct (confirmed_deletion_leaves_one (U:=ascii_only) (E:=server_shared)
              (mkConfig true false true) group_AB tt (scripted_fair _ _ _ _ _))
    as (best & _ & _ & _ & Hlen).
  - reflexivity.
  - left. reflexivity.
  - vm_compute. reflexivity.
  - vm_compute. lia.
  - exact Hlen.
Defined.

Lemma no_duplicates_branch_is_dead_witness :
  Logged Info NoDuplicatesToDelete
  ∉ events (autoDeleteDuplicates (U:=ascii_only) (E:=server_shared)
              (mkConfig true false true) group_AB tt).
Proof.
  apply (no_duplicates_branch_is_dead (U:=ascii_only) (E:=server_shared)
           (mkConfig true false true) group_AB tt (scripted_fair _ _ _ _ _)).
Defined.

Lemma one_write_per_album_witness :
  NoDup (addCalls (events (synchronizeAlbums (E:=server_B_missing)
                             (mkConfig false false false) group_AB tt))).*1.*1.
Proof.
  destruct (one_write_per_album (E:=server_B_missing) (mkConfig false false false)
              group_AB tt (scripted_fair _ _ _ _ _)) as [Hnd _].
  exact Hnd.
Defined.

Lemma server_B_missing_trace :
  events (synchronizeAlbums (E:=server_B_missing) (mkConfig false false false) group_AB tt)
  = [CallGetAlbums "A" (Ok [albumX]);
     CallGetAlbums "B" (Ok []);
     CallAddAssets "X" ["B"] None;
     Logged Info (Added 1 "X")].
Proof. vm_compute. reflexivity. Defined.

Lemma every_reported_album_gets_every_asset_witness :
  recorded (memberships (events (synchronizeAlbums (E:=server_B_missing)
                                   (mkConfig false false false) group_AB tt))) "B" "X"
  ∨ ∃ assetIDs res,
      CallAddAssets "X" assetIDs res
      ∈ events (synchronizeAlbums (E:=server_B_missing) (mkConfig false false false)
                  group_AB tt)
      ∧ "B" ∈ assetIDs.
Proof.
  apply (every_reported_album_gets_every_asset (E:=server_B_missing)
           (mkConfig false false false) group_AB tt (scripted_fair _ _ _ _ _) eq_refl
           "X" (Build_DuplicateAsset "B")).
  - exists "A", [albumX]. rewrite server_B_missing_trace. split; left.
  - right. left.
Defined.

Lemma every_group_is_processed_in_order_witness :
  groupHeaders (mainEvents (main (U:=ascii_only) (E:=server_shared)
                              (L:=listing two_groups) flags_preview tt))
  = [(1, 2, 2); (2, 2, 1)].
Proof.
  destruct (every_group_is_processed_in_order (U:=ascii_only) (E:=server_shared)
              (L:=listing two_groups) flags_preview two_groups tt)
    as (_ & Hheaders & _).
  - reflexivity.
  - reflexivity.
  - rewrite Hheaders. reflexivity.
Defined.

Lemma preview_run_writes_nothing_witness :
  Forall (fun e => isAddCall e = false ∧ isDeleteCall e = false ∧ isPrompt e = false)
    (engineEvents (mainEvents (main (U:=ascii_only) (E:=server_B_missing)
                                 (L:=listing two_groups) flags_preview tt))).
Proof.
  apply (preview_run_writes_nothing (U:=ascii_only) (E:=server_B_missing)
           (L:=listing two_groups) flags_preview tt).
  reflexivity.
Defined.

Lemma deletion_fails_only_on_selection_witness :
  value (autoDeleteDuplicates (U:=ascii_only) (E:=server_unsized)
           (mkConfig true false true) group_AB tt) = Some (Some selectionError)
  ∧ deleteCalls (events (autoDeleteDuplicates (U:=ascii_only) (E:=server_unsized)
                           (mkConfig true false true) group_AB tt)) = [].
Proof.
  destruct (deletion_fails_only_on_selection (U:=ascii_only) (E:=server_unsized)
              (mkConfig true false true) group_AB tt) as [_ Hquiet].
  assert (Hv : value (autoDeleteDuplicates (U:=ascii_only) (E:=server_unsized)
                        (mkConfig true false true) group_AB tt)
               = Some (Some selectionError)).
  { vm_compute. reflexivity. }
  split; [exact Hv | exact (proj1 (Hquiet Hv))].
Defined.

Lemma operator_is_asked_at_most_once_witness :
  deleteCalls (events (autoDeleteDuplicates (U:=ascii_only) (E:=server_operator_declines)
                         (mkConfig true false false) group_AB tt)) = []
  ∧ wouldDeletes (events (autoDeleteDuplicates (U:=ascii_only)
                            (E:=server_operator_declines)
                            (mkConfig true false false) group_AB tt)) = [].
Proof.
  destruct (operator_is_asked_at_most_once (U:=ascii_only) (E:=server_operator_declines)
              (mkConfig true false false) group_AB tt) as (_ & _ & _ & Hdeclined).
  apply Hdeclined.
  - reflexivity.
  - reflexivity.
  - intros w. vm_compute. reflexivity.
Defined.

Lemma group_fails_only_on_selection_witness :
  value (processDuplicateGroup (U:=ascii_only) (E:=server_shared)
           (mkConfig true false true) 1 1 (mkGroup ["A"]) tt) = Some None.
Proof.
  destruct (group_fails_only_on_selection (U:=ascii_only) (E:=server_shared)
              (mkConfig true false true) 1 1 (mkGroup ["A"]) tt) as [_ Hfew].
  apply Hfew. vm_compute. reflexivity.
Defined.

Lemma addAssetsToAlbum_succeeds_iff_witness :
  Http.answer (Http.addAssetsToAlbum (N:=canned (fun _ => 204))
                 (mkConfig false false false) "X" ["B"] tt) ≠ None.
Proof.
  destruct (addAssetsToAlbum_succeeds_iff (N:=canned (fun _ => 204))
              (mkConfig false false false) "X" ["B"] tt) as [_ Hno_content].
  apply (Hno_content "B"
           {| Http.StatusCode := 204;
              Http.RespBody := "http://localhost:2283/api/albums/X/assets" |}).
  - reflexivity.
  - reflexivity.
  - reflexivity.
Defined.

Lemma obliging_trace :
  deleteCalls (events (processDuplicateGroup (U:=ascii_only) (E:=obliging)
                         (mkConfig true false true) 1 1 (mkGroup ["A"; "BB"]) tt))
  = ["A"]
  ∧ CallDelete "A" None
    ∈ events (processDuplicateGroup (U:=ascii_only) (E:=obliging)
                (mkConfig true false true) 1 1 (mkGroup ["A"; "BB"]) tt).
Proof.
  split; [vm_compute; reflexivity |].
  apply list_elem_of_In. vm_compute. tauto.
Defined.

Lemma acknowledged_writes_were_accepted_witness :
  ∃ w jsonData resp,
    Http.Marshal_delete (Net:=polite) "A" = Ok jsonData
    ∧ (Http.Do (Net:=polite)
         (writeRequest (mkConfig true false true) "DELETE" "/api/assets" jsonData) w).1
      = Ok resp
    ∧ (Http.StatusCode resp = 204 ∨ Http.StatusCode resp = 200).
Proof.
  destruct (acknowledged_writes_were_accepted (U:=ascii_only) (N:=polite)
              (fun w => (Ok "y", w)) (fun keys w => (keys, w))
              (mkConfig true false true) 1 1 (mkGroup ["A"; "BB"]) tt) as [Hdelete _].
  apply (Hdelete "A"). apply (proj2 obliging_trace).
Defined.

Lemma server_rejects_trace :
  events (processDuplicateGroup (U:=ascii_only) (E:=server_rejects)
            (mkConfig false false false) 1 1 group_AB tt)
  = [Logged Info (ProcessingGroup 1 1 2);
     CallGetAlbums "A" (Ok [albumX]);
     CallGetAlbums "B" (Ok []);
     CallAddAssets "X" ["B"] (Some (errorString "HTTP 500: "));
     Logged Error (AddFailed "X" (errorString "HTTP 500: "));
     Logged Info AlreadySynchronized].
Proof. vm_compute. reflexivity. Defined.

Lemma synchronized_line_counts_accepted_pairs_witness :
  Logged Info AlreadySynchronized
  ∈ events (processDuplicateGroup (U:=ascii_only) (E:=server_rejects)
              (mkConfig false false false) 1 1 group_AB tt).
Proof.
  destruct (synchronized_line_counts_accepted_pairs (U:=ascii_only) (E:=server_rejects)
              (mkConfig false false false) 1 1 group_AB tt) as (_ & _ & Hrejected).
  - reflexivity.
  - vm_compute. discriminate.
  - apply Hrejected. intros albumID assetIDs res Hin.
    rewrite server_rejects_trace in Hin.
    rewrite !elem_of_cons, elem_of_nil in Hin.
    destruct Hin as [Hin | [Hin | [Hin | [Hin | [Hin | [Hin | []]]]]]];
      try discriminate Hin.
    injection Hin as _ _ ->. discriminate.
Defined.
